(** * Carina control loops: a shallow embedding of the three reconcilers

    Source files embedded here:
    - controllers/node_controller.go             (volume rebuild)
    - controllers/pod_controller.go              (block-I/O throttle)
    - controllers/persistentvolume_controller.go (capacity aggregator)

    Go code is embedded as state-passing functions in a small monad that
    threads the reconciler's private fields, the state of the outside world
    (cluster API server, host files, clock) and the chronological list of
    calls made to the outside world.  A Go run-time panic is an outcome of
    its own.  Go [error] values are [option error] ([None] is [nil]).
    Calls to the logging package are not part of the embedding, except where
    evaluating the arguments of a log call can panic. *)

From Stdlib Require Import Ascii.
From stdpp Require Import base option list strings gmap pretty.

Open Scope string_scope.
Open Scope Z_scope.
Open Scope list_scope.

(** ** Go runtime *)

Module Go.

Definition error : Type := string.

(** A [(T, error)] pair as returned by the typed cluster client. *)
Inductive result (A : Type) : Type :=
| Ok (a : A)
| Err (e : error).
Arguments Ok {A} a.
Arguments Err {A} e.

#[export] Instance result_eq_dec {A} `{EqDecision A} : EqDecision (result A).
Proof. solve_decision. Defined.

Inductive Outcome (A : Type) : Type :=
| Val (a : A)
| Panic (msg : string).
Arguments Val {A} a.
Arguments Panic {A} msg.

#[export] Instance Outcome_eq_dec {A} `{EqDecision A} : EqDecision (Outcome A).
Proof. solve_decision. Defined.

Definition M (S A : Type) : Type := S -> Outcome A * S.

Definition ret {S A} (a : A) : M S A := fun s => (Val a, s).

Definition bind {S A B} (m : M S A) (k : A -> M S B) : M S B :=
  fun s =>
    match m s with
    | (Val a, s') => k a s'
    | (Panic msg, s') => (Panic msg, s')
    end.

Definition panic {S A} (msg : string) : M S A := fun s => (Panic msg, s).

Definition gets {S A} (f : S -> A) : M S A := fun s => (Val (f s), s).

Definition modify {S} (f : S -> S) : M S unit := fun s => (Val tt, f s).

(** Control flow of a loop body: fall through to the next iteration
    ([continue] or the end of the body) with the loop-carried locals, or
    [return] from the enclosing function. *)
Inductive Flow (L R : Type) : Type :=
| Next (l : L)
| Return (r : R).
Arguments Next {L R} l.
Arguments Return {L R} r.

#[export] Instance Flow_eq_dec {L R} `{EqDecision L} `{EqDecision R}
  : EqDecision (Flow L R).
Proof. solve_decision. Defined.

(** [for _, x := range xs { body }] over a slice. *)
Fixpoint forRange {S A L R} (body : A -> L -> M S (Flow L R))
    (xs : list A) (l : L) : M S (Flow L R) :=
  match xs with
  | [] => ret (Next l)
  | x :: xs' =>
      bind (body x l) (fun f =>
        match f with
        | Next l' => forRange body xs' l'
        | Return r => ret (Return r)
        end)
  end.

(** The order in which [range] visits a Go map is unspecified.  The
    embedding takes the order from a [MapRange] instance, which may be any
    enumeration of the entries. *)
Class MapRange : Type := {
  range_map : forall {V : Type}, gmap string V -> list (string * V);
  range_map_perm : forall (V : Type) (m : gmap string V),
    range_map m ≡ₚ map_to_list m
}.

(** [strings.HasPrefix]. *)
Definition HasPrefix (s p : string) : bool := String.prefix p s.

Definition isSpace (a : Ascii.ascii) : bool :=
  match Ascii.nat_of_ascii a with
  | 9%nat | 10%nat | 11%nat | 12%nat | 13%nat | 32%nat => true
  | _ => false
  end.

Fixpoint trimLeft (s : string) : string :=
  match s with
  | String a s' => if isSpace a then trimLeft s' else s
  | EmptyString => EmptyString
  end.

Fixpoint trimRight (s : string) : string :=
  match s with
  | String a s' =>
      match trimRight s' with
      | EmptyString => if isSpace a then EmptyString else String a EmptyString
      | t => String a t
      end
  | EmptyString => EmptyString
  end.

(** [strings.TrimSpace], on the ASCII white space characters. *)
Definition TrimSpace (s : string) : string := trimRight (trimLeft s).

(** [strings.Split(s, sep)] for a one-character separator: the result has
    one more element than [s] has separators. *)
Fixpoint Split (s : string) (sep : Ascii.ascii) : list string :=
  match s with
  | EmptyString => [EmptyString]
  | String a s' =>
      if Ascii.eqb a sep then EmptyString :: Split s' sep
      else match Split s' sep with
           | [] => [String a EmptyString]
           | w :: ws => String a w :: ws
           end
  end.

End Go.
Export Go.

Declare Scope go_scope.
Delimit Scope go_scope with go.
Notation "x <- m ;; k" := (bind m (fun x => k))
  (at level 100, m at next level, k at level 200, right associativity) : go_scope.
Notation "m ;; k" := (bind m (fun _ => k))
  (at level 100, k at level 200, right associativity) : go_scope.
Open Scope go_scope.

(** The enumeration that visits the entries in the order of [map_to_list]. *)
#[export] Instance canonical_range : MapRange :=
  {| range_map := fun V m => map_to_list m;
     range_map_perm := fun V m => Permutation_refl (map_to_list m) |}.

(** ** Cluster objects (the fields the controllers read or write) *)

Record ObjectKey : Type := MkObjectKey {
  key_Namespace : string;
  key_Name : string
}.

#[export] Instance ObjectKey_eq_dec : EqDecision ObjectKey.
Proof. solve_decision. Defined.

(** [carinav1.LogicVolume]. *)
Record LogicVolume : Type := MkLogicVolume {
  lv_Name : string;
  lv_OwnerReferences : list string;
  lv_Finalizers : list string;
  lv_DeletionTimestamp : option Z;
  lv_Spec_NodeName : string;
  lv_Spec_NameSpace : string;
  lv_Spec_Pvc : string;
  lv_Status_Status : string
}.

#[export] Instance LogicVolume_eq_dec : EqDecision LogicVolume.
Proof. solve_decision. Defined.

Definition lv_set_Finalizers (lv : LogicVolume) (fs : list string) : LogicVolume :=
  {| lv_Name := lv_Name lv;
     lv_OwnerReferences := lv_OwnerReferences lv;
     lv_Finalizers := fs;
     lv_DeletionTimestamp := lv_DeletionTimestamp lv;
     lv_Spec_NodeName := lv_Spec_NodeName lv;
     lv_Spec_NameSpace := lv_Spec_NameSpace lv;
     lv_Spec_Pvc := lv_Spec_Pvc lv;
     lv_Status_Status := lv_Status_Status lv |}.

Inductive NodePhase : Type := NodePending | NodeRunning | NodeTerminated.

#[export] Instance NodePhase_eq_dec : EqDecision NodePhase.
Proof. solve_decision. Defined.

(** [corev1.Node]; a [resource.Quantity] is represented by its [Value()]. *)
Record Node : Type := MkNode {
  node_Name : string;
  node_DeletionTimestamp : option Z;
  node_Status_Phase : NodePhase;
  node_Status_Capacity : gmap string Z;
  node_Status_Allocatable : gmap string Z
}.

#[export] Instance Node_eq_dec : EqDecision Node.
Proof. solve_decision. Defined.

Record CSIPersistentVolumeSource : Type := MkCSI {
  csi_Driver : string;
  csi_VolumeAttributes : gmap string string
}.

#[export] Instance CSIPersistentVolumeSource_eq_dec
  : EqDecision CSIPersistentVolumeSource.
Proof. solve_decision. Defined.

(** [corev1.PersistentVolume]; [Spec.CSI] and [Spec.ClaimRef] are pointers. *)
Record PersistentVolume : Type := MkPersistentVolume {
  pv_Name : string;
  pv_Spec_CSI : option CSIPersistentVolumeSource;
  pv_Spec_ClaimRef : option ObjectKey
}.

#[export] Instance PersistentVolume_eq_dec : EqDecision PersistentVolume.
Proof. solve_decision. Defined.

Record PersistentVolumeClaimSpec : Type := MkPVCSpec {
  pvcs_AccessModes : list string;
  pvcs_Selector : option string;
  pvcs_Resources : gmap string Z;
  pvcs_VolumeName : string;
  pvcs_StorageClassName : option string;
  pvcs_VolumeMode : option string;
  pvcs_DataSource : option string
}.

#[export] Instance PersistentVolumeClaimSpec_eq_dec : EqDecision PersistentVolumeClaimSpec.
Proof. solve_decision. Defined.

(** [corev1.PersistentVolumeClaim]. *)
Record PersistentVolumeClaim : Type := MkPVC {
  pvc_Name : string;
  pvc_Namespace : string;
  pvc_Finalizers : list string;
  pvc_DeletionTimestamp : option Z;
  pvc_Spec : PersistentVolumeClaimSpec;
  pvc_Status_Phase : string
}.

#[export] Instance PersistentVolumeClaim_eq_dec : EqDecision PersistentVolumeClaim.
Proof. solve_decision. Defined.

Inductive PodPhase : Type :=
  PodPending | PodRunning | PodSucceeded | PodFailed | PodUnknown.

#[export] Instance PodPhase_eq_dec : EqDecision PodPhase.
Proof. solve_decision. Defined.

(** [corev1.Volume]; [PersistentVolumeClaim] is a pointer. *)
Record Volume : Type := MkVolume {
  vol_Name : string;
  vol_PersistentVolumeClaim : option string
}.

#[export] Instance Volume_eq_dec : EqDecision Volume.
Proof. solve_decision. Defined.

(** [corev1.Pod]. *)
Record Pod : Type := MkPod {
  pod_Namespace : string;
  pod_Name : string;
  pod_Annotations : gmap string string;
  pod_DeletionTimestamp : option Z;
  pod_Spec_NodeName : string;
  pod_Spec_SchedulerName : string;
  pod_Spec_Volumes : list Volume;
  pod_Status_Phase : PodPhase
}.

#[export] Instance Pod_eq_dec : EqDecision Pod.
Proof. solve_decision. Defined.

(** [corev1.ConfigMap]. *)
Record ConfigMap : Type := MkConfigMap {
  cm_Namespace : string;
  cm_Name : string;
  cm_Data : gmap string string
}.

#[export] Instance ConfigMap_eq_dec : EqDecision ConfigMap.
Proof. solve_decision. Defined.

(** ** Calls to the outside world, in the order they are made *)

Inductive Call : Type :=
| CallListLogicVolume
| CallListNode
| CallListPersistentVolume (pvIndex : option string)
| CallListPod (combinedIndex : string)
| CallDeleteLogicVolume (lv : LogicVolume)
| CallPatchLogicVolume (obj base : LogicVolume)
| CallGetPersistentVolumeClaim (key : ObjectKey)
| CallDeletePersistentVolumeClaim (pvc : PersistentVolumeClaim)
| CallCreatePersistentVolumeClaim (pvc : PersistentVolumeClaim)
| CallGetPod (key : ObjectKey)
| CallGetConfigMap (key : ObjectKey)
| CallCreateConfigMap (cm : ConfigMap)
| CallUpdateConfigMap (cm : ConfigMap)
| CallSleep (seconds : Z)
| CallOpen (path : string)
| CallExecuteCommand (deviceKey value cpath : string).

#[export] Instance Call_eq_dec : EqDecision Call.
Proof. solve_decision. Defined.

(** The typed cluster client ([client.Client]): every method takes the
    state of the API server and returns its answer and the next state. *)
Class Client (W : Type) : Type := {
  ListLogicVolume : W -> result (list LogicVolume) * W;
  ListNode : W -> result (list Node) * W;
  ListPersistentVolume : option string -> W -> result (list PersistentVolume) * W;
  ListPod : string -> W -> result (list Pod) * W;
  DeleteLogicVolume : LogicVolume -> W -> option error * W;
  PatchLogicVolume : LogicVolume -> LogicVolume -> W -> option error * W;
  GetPersistentVolumeClaim : ObjectKey -> W -> result PersistentVolumeClaim * W;
  DeletePersistentVolumeClaim : PersistentVolumeClaim -> W -> option error * W;
  CreatePersistentVolumeClaim : PersistentVolumeClaim -> W -> option error * W;
  GetPod : ObjectKey -> W -> result Pod * W;
  GetConfigMap : ObjectKey -> W -> result ConfigMap * W;
  CreateConfigMap : ConfigMap -> W -> option error * W;
  UpdateConfigMap : ConfigMap -> W -> option error * W;
  IsNotFound : error -> bool
}.

(** The host: clock, throttle pseudo-files (a file is the list of lines a
    [bufio.Scanner] yields) and the command executor. *)
Class Host (W : Type) : Type := {
  Sleep : Z -> W -> W;
  Open : string -> W -> result (list string) * W;
  ExecuteCommand : string -> list string -> W -> option error * W
}.

(** What a reconciler runs on: its own fields, the world, the calls so far. *)
Record Sys (R W : Type) : Type := MkSys {
  self : R;
  world : W;
  trace : list Call
}.
Arguments MkSys {R W} self world trace.
Arguments self {R W} s.
Arguments world {R W} s.
Arguments trace {R W} s.

#[export] Instance Sys_eq_dec {R W} `{EqDecision R} `{EqDecision W}
  : EqDecision (Sys R W).
Proof. solve_decision. Defined.

Definition call {R W A} (c : Call) (op : W -> A * W) : M (Sys R W) A :=
  fun s =>
    let '(a, w) := op (world s) in
    (Val a, MkSys (self s) w (trace s ++ [c])).

Definition time_Sleep {R W} `{Host W} (seconds : Z) : M (Sys R W) unit :=
  call (CallSleep seconds) (fun w => (tt, Sleep seconds w)).

(** ** Package [utils]

    The package is not among the embedded source files.  Its constants are
    taken as parameters; its helper functions are modelled from what the
    specification says about them. *)

Module utils.

Class Constants : Type := {
  CSIPluginName : string;
  CarinaSchedule : string;
  LogicVolumeFinalizer : string;
  VolumeDeviceMajor : string;
  VolumeDeviceMinor : string;
  DeviceCapacityKeyPrefix : string
}.

(** Modelled from the spec: [utils.ContainsString] is not in the embedded
    sources; it tells whether the finalizer token is present in the
    finalizer set ("its rebuild finalizer token (if present)"). *)
Definition ContainsString (slice : list string) (s : string) : bool :=
  bool_decide (s ∈ slice).

(** Modelled from the spec: [utils.SliceRemoveString] is not in the embedded
    sources; it removes the given token from the finalizer set ("strip its
    rebuild finalizer token") and keeps the others in their order. *)
Definition SliceRemoveString (slice : list string) (s : string) : list string :=
  filter (fun item => item ≠ s) slice.

(** Modelled from the spec: [utils.UntilMaxRetry] is not in the embedded
    sources; "bounded retry: up to 12 attempts, 10 time-units apart": the
    function is tried until it returns [nil], at most [maxRetry] times,
    sleeping [interval] between two attempts, and the last error is returned
    when every attempt failed. *)
Fixpoint UntilMaxRetry {R W} `{Host W} (f : M (Sys R W) (option error))
    (maxRetry : nat) (interval : Z) : M (Sys R W) (option error) :=
  match maxRetry with
  | O => ret None
  | S n =>
      err <- f ;;
      match err with
      | None => ret None
      | Some e =>
          match n with
          | O => ret (Some e)
          | S _ => time_Sleep interval ;; UntilMaxRetry f n interval
          end
      end
  end.

(** Modelled from the spec: [utils.MapEqualMap] is not in the embedded
    sources; "field-exact equality" of two records. *)
Definition MapEqualMap (x y : gmap string string) : bool :=
  bool_decide (x = y).

End utils.

(** ** controllers/node_controller.go *)

Module NodeReconciler.

(** The private fields of [NodeReconciler]. *)
Record T : Type := MkT {
  cacheNoDeleteLv : gmap string Z
}.

#[export] Instance NodeReconciler_T_eq_dec : EqDecision T.
Proof. solve_decision. Defined.

Definition St (W : Type) : Type := Sys T W.

Definition cacheNoDeleteLv_insert {W} (key : string) (v : Z) (s : St W) : St W :=
  MkSys (MkT (<[key := v]> (cacheNoDeleteLv (self s)))) (world s) (trace s).

Section Controller.
Context {W : Type} `{!Client W} `{!Host W} `{!utils.Constants} `{!MapRange}.

(** [r.List(ctx, lvList)] and the other client methods, each recorded. *)
Definition r_ListLogicVolume : M (St W) (result (list LogicVolume)) :=
  call CallListLogicVolume ListLogicVolume.

Definition r_ListNode : M (St W) (result (list Node)) :=
  call CallListNode ListNode.

Definition r_ListPersistentVolume : M (St W) (result (list PersistentVolume)) :=
  call (CallListPersistentVolume None) (ListPersistentVolume None).

Definition r_DeleteLogicVolume (lv : LogicVolume) : M (St W) (option error) :=
  call (CallDeleteLogicVolume lv) (DeleteLogicVolume lv).

Definition r_PatchLogicVolume (obj base : LogicVolume) : M (St W) (option error) :=
  call (CallPatchLogicVolume obj base) (PatchLogicVolume obj base).

Definition r_GetPersistentVolumeClaim (o : ObjectKey)
    : M (St W) (result PersistentVolumeClaim) :=
  call (CallGetPersistentVolumeClaim o) (GetPersistentVolumeClaim o).

Definition r_DeletePersistentVolumeClaim (pvc : PersistentVolumeClaim)
    : M (St W) (option error) :=
  call (CallDeletePersistentVolumeClaim pvc) (DeletePersistentVolumeClaim pvc).

Definition r_CreatePersistentVolumeClaim (pvc : PersistentVolumeClaim)
    : M (St W) (option error) :=
  call (CallCreatePersistentVolumeClaim pvc) (CreatePersistentVolumeClaim pvc).

(** [pvMap]: the names of the PersistentVolumes that exist. *)
Definition pvMap : M (St W) (gmap string Z * option error) :=
  r <- r_ListPersistentVolume ;;
  match r with
  | Err e => ret (∅, Some e)
  | Ok items =>
      ret (foldl (fun result pv => <[pv_Name pv := 0]> result) ∅ items, None)
  end.

(** The loop of [getNeedRebuildVolume] over the nodes. *)
Definition nodeStatusOf (items : list Node) : gmap string string :=
  foldl (fun nodeStatus n =>
           if bool_decide (node_DeletionTimestamp n ≠ None)
              || bool_decide (node_Status_Phase n = NodeTerminated)
           then <[node_Name n := "abnormal"]> nodeStatus
           else <[node_Name n := "normal"]> nodeStatus)
        ∅ items.

(** [lv2 := lv.DeepCopy(); lv2.Finalizers = utils.SliceRemoveString(...)]. *)
Definition stripFinalizer (lv : LogicVolume) : LogicVolume :=
  lv_set_Finalizers lv
    (utils.SliceRemoveString (lv_Finalizers lv) utils.LogicVolumeFinalizer).

Definition hasFinalizer (lv : LogicVolume) : bool :=
  utils.ContainsString (lv_Finalizers lv) utils.LogicVolumeFinalizer.

Definition candidateKey (lv : LogicVolume) : ObjectKey :=
  MkObjectKey (lv_Spec_NameSpace lv) (lv_Spec_Pvc lv).

Definition VolumeObjectMap : Type := gmap string ObjectKey.

(** The body of the loop of [getNeedRebuildVolume] over the LogicVolumes;
    the loop-carried local is [volumeObjectMap]. *)
Definition lvBody (nodeStatus : gmap string string) (pvs : gmap string Z)
    (lv : LogicVolume) (volumeObjectMap : gmap string ObjectKey)
    : M (St W) (Flow (gmap string ObjectKey) (gmap string ObjectKey * option error)) :=
  if bool_decide (0 < length (lv_OwnerReferences lv))%nat then
    ret (Next volumeObjectMap)
  else
    let ok := bool_decide (is_Some (pvs !! lv_Name lv)) in
    if bool_decide (lv_Status_Status lv ≠ "") && negb ok then
      if hasFinalizer lv then
        err <- r_DeleteLogicVolume lv ;;
        match err with
        | Some e => ret (Return (volumeObjectMap, Some e))
        | None =>
            let lv2 := stripFinalizer lv in
            err <- r_PatchLogicVolume lv2 lv ;;
            match err with
            | Some e => ret (Return (volumeObjectMap, Some e))
            | None => ret (Next volumeObjectMap)
            end
        end
      else ret (Next volumeObjectMap)
    else
      cache <- gets (fun s => cacheNoDeleteLv (self s)) ;;
      if bool_decide (lv_Status_Status lv = "Success")
         && (bool_decide (is_Some (cache !! lv_Name lv))
             || bool_decide (nodeStatus !! lv_Spec_NodeName lv = Some "normal"))
      then ret (Next volumeObjectMap)
      else
        let volumeObjectMap := <[lv_Name lv := candidateKey lv]> volumeObjectMap in
        if hasFinalizer lv then
          let lv2 := stripFinalizer lv in
          err <- r_PatchLogicVolume lv2 lv ;;
          match err with
          | Some e => ret (Return (volumeObjectMap, Some e))
          | None => ret (Next volumeObjectMap)
          end
        else ret (Next volumeObjectMap).

Definition getNeedRebuildVolume : M (St W) (gmap string ObjectKey * option error) :=
  let volumeObjectMap : gmap string ObjectKey := ∅ in
  r <- r_ListLogicVolume ;;
  match r with
  | Err e => ret (volumeObjectMap, Some e)
  | Ok lvList =>
      if bool_decide (length lvList = 0%nat) then ret (volumeObjectMap, None)
      else
        r <- r_ListNode ;;
        match r with
        | Err e => ret (volumeObjectMap, Some e)
        | Ok nl =>
            let nodeStatus := nodeStatusOf nl in
            p <- pvMap ;;
            let '(pvs, err) := p in
            match err with
            | Some e => ret (volumeObjectMap, Some e)
            | None =>
                f <- forRange (lvBody nodeStatus pvs) lvList volumeObjectMap ;;
                match f with
                | Return r => ret r
                | Next volumeObjectMap => ret (volumeObjectMap, None)
                end
            end
        end
  end.

(** The claim that [rebuildVolume] creates in place of the fetched one. *)
Definition newPvcOf (o : ObjectKey) (pvc : PersistentVolumeClaim)
    : PersistentVolumeClaim :=
  {| pvc_Name := key_Name o;
     pvc_Namespace := key_Namespace o;
     pvc_Finalizers := [];
     pvc_DeletionTimestamp := None;
     pvc_Spec :=
       {| pvcs_AccessModes := pvcs_AccessModes (pvc_Spec pvc);
          pvcs_Selector := pvcs_Selector (pvc_Spec pvc);
          pvcs_Resources := pvcs_Resources (pvc_Spec pvc);
          pvcs_VolumeName := "";
          pvcs_StorageClassName := pvcs_StorageClassName (pvc_Spec pvc);
          pvcs_VolumeMode := pvcs_VolumeMode (pvc_Spec pvc);
          pvcs_DataSource := pvcs_DataSource (pvc_Spec pvc) |};
     pvc_Status_Phase := "" |}.

(** The body of the loop of [rebuildVolume] over the candidates.  The
    arguments of the [log.Warnf] call on the failure path dereference
    [Spec.StorageClassName] and [Spec.VolumeMode]. *)
Definition rebuildBody (entry : string * ObjectKey) (_ : unit)
    : M (St W) (Flow unit (option error)) :=
  let '(key, o) := entry in
  r <- r_GetPersistentVolumeClaim o ;;
  match r with
  | Err _ =>
      modify (cacheNoDeleteLv_insert key 0) ;;
      ret (Next tt)
  | Ok pvc =>
      let newPvc := newPvcOf o pvc in
      _ <- r_DeletePersistentVolumeClaim newPvc ;;
      err <- utils.UntilMaxRetry (r_CreatePersistentVolumeClaim newPvc) 12 10 ;;
      match err with
      | Some e =>
          match pvcs_StorageClassName (pvc_Spec newPvc),
                pvcs_VolumeMode (pvc_Spec newPvc) with
          | Some _, Some _ => ret (Return (Some e))
          | _, _ => panic "invalid memory address or nil pointer dereference"
          end
      | None => ret (Next tt)
      end
  end.

Definition rebuildVolume (volumeObjectMap : gmap string ObjectKey)
    : M (St W) (option error) :=
  f <- forRange rebuildBody (range_map volumeObjectMap) tt ;;
  match f with
  | Return err => ret err
  | Next _ => ret None
  end.

(** One full pass of the controller. *)
Definition resourceReconcile : M (St W) (option error) :=
  p <- getNeedRebuildVolume ;;
  let '(o, err) := p in
  match err with
  | Some e => ret (Some e)
  | None =>
      err <- rebuildVolume o ;;
      match err with
      | Some e => ret (Some e)
      | None => ret None
      end
  end.

End Controller.
End NodeReconciler.

(** ** controllers/pod_controller.go *)

Module PodReconciler.

Definition KubernetesCustomized : string := "kubernetes.customized".
Definition BlkIOThrottleReadBPS : string := "blkio.throttle.read_bps_device".
Definition BlkIOThrottleReadIOPS : string := "blkio.throttle.read_iops_device".
Definition BlkIOThrottleWriteBPS : string := "blkio.throttle.write_bps_device".
Definition BlkIOThrottleWriteIOPS : string := "blkio.throttle.write_iops_device".
Definition BlkIOCGroupPath : string := "/sys/fs/cgroup/blkio/".

(** The four limit kinds, in the order both constructors of the
    [cgroupblkio] slice visit them. *)
Definition limitKinds : list string :=
  [BlkIOThrottleReadBPS; BlkIOThrottleReadIOPS;
   BlkIOThrottleWriteBPS; BlkIOThrottleWriteIOPS].

(** [filepath.Join(dir, name)] where [dir] ends with the separator and
    [name] is a single clean path element, as in every use here. *)
Definition filepath_Join (dir name : string) : string := dir +:+ name.

(** The private fields of [PodReconciler]; the executor is part of the
    host. *)
Record T : Type := MkT {
  NodeName : string
}.

#[export] Instance PodReconciler_T_eq_dec : EqDecision T.
Proof. solve_decision. Defined.

Definition St (W : Type) : Type := Sys T W.

Record ctrl_Result : Type := MkResult {
  Requeue : bool;
  RequeueAfter : Z
}.

#[export] Instance ctrl_Result_eq_dec : EqDecision ctrl_Result.
Proof. solve_decision. Defined.

(** [ctrl.Result{}]. *)
Definition Result0 : ctrl_Result := MkResult false 0.

Record cgroupblkio : Type := Mkcgroupblkio {
  name : string;
  cpath : string;
  oldBlkio : gmap string string;
  newBlkio : gmap string string
}.

#[export] Instance cgroupblkio_eq_dec : EqDecision cgroupblkio.
Proof. solve_decision. Defined.

Definition set_oldBlkio (c : cgroupblkio) (m : gmap string string) : cgroupblkio :=
  Mkcgroupblkio (name c) (cpath c) m (newBlkio c).

Definition set_newBlkio (c : cgroupblkio) (m : gmap string string) : cgroupblkio :=
  Mkcgroupblkio (name c) (cpath c) (oldBlkio c) m.

(** [fmt.Sprintf("%s/%s", KubernetesCustomized, c.name)]. *)
Definition annotationKey (c : cgroupblkio) : string :=
  KubernetesCustomized +:+ "/" +:+ name c.

(** [fmt.Sprintf("echo %s %s > %s", k, v, c.cpath)]. *)
Definition echoCommand (k v path : string) : string :=
  "echo " +:+ k +:+ " " +:+ v +:+ " > " +:+ path.

(** [podFilter.filter]; the argument is a pointer. *)
Definition podFilter_filter `{!utils.Constants} (nodeName : string)
    (pod : option Pod) : bool :=
  match pod with
  | None => false
  | Some pod =>
      if bool_decide (pod_Spec_NodeName pod = nodeName)
         && bool_decide (pod_Spec_SchedulerName pod = utils.CarinaSchedule)
      then true else false
  end.

(** The four predicates of [podFilter]; an event is given by the object
    (or the new object) it carries. *)
Definition podFilter_Create `{!utils.Constants} (nodeName : string)
    (object : Pod) : bool :=
  podFilter_filter nodeName (Some object).

Definition podFilter_Delete (nodeName : string) (object : Pod) : bool := false.

Definition podFilter_Update `{!utils.Constants} (nodeName : string)
    (objectOld objectNew : Pod) : bool :=
  podFilter_filter nodeName (Some objectNew).

Definition podFilter_Generic (nodeName : string) (object : Pod) : bool := false.

Section Controller.
Context {W : Type} `{!Client W} `{!Host W} `{!utils.Constants} `{!MapRange}.

Definition r_GetPod (req : ObjectKey) : M (St W) (result Pod) :=
  call (CallGetPod req) (GetPod req).

Definition r_ListPod (combinedIndex : string) : M (St W) (result (list Pod)) :=
  call (CallListPod combinedIndex) (ListPod combinedIndex).

Definition r_ListPersistentVolume (pvIndex : string)
    : M (St W) (result (list PersistentVolume)) :=
  call (CallListPersistentVolume (Some pvIndex)) (ListPersistentVolume (Some pvIndex)).

Definition os_Open (path : string) : M (St W) (result (list string)) :=
  call (CallOpen path) (Open path).

Definition exec_ExecuteCommand (k v path : string) : M (St W) (option error) :=
  call (CallExecuteCommand k v path)
       (ExecuteCommand "bash" ["-c"; echoCommand k v path]).

(** The scanning loop of [readCGroupBlkioFile] over the lines of one file:
    [strSlice[1]] is out of range when the trimmed line has no space. *)
Fixpoint scanLines (lines : list string) (old : gmap string string)
    : M (St W) (gmap string string) :=
  match lines with
  | [] => ret old
  | line :: rest =>
      let line := TrimSpace line in
      let strSlice := Split line " "%char in
      match strSlice !! 0%nat, strSlice !! 1%nat with
      | Some k, Some v => scanLines rest (<[k := v]> old)
      | _, _ => panic "index out of range [1] with length 1"
      end
  end.

Definition readBody (v : string) (cb : list cgroupblkio)
    : M (St W) (Flow (list cgroupblkio) Empty_set) :=
  let cpath := filepath_Join BlkIOCGroupPath v in
  let ctmp := Mkcgroupblkio v cpath ∅ ∅ in
  r <- os_Open cpath ;;
  match r with
  | Err _ => ret (Next cb)
  | Ok lines =>
      old <- scanLines lines (oldBlkio ctmp) ;;
      ret (Next (cb ++ [set_oldBlkio ctmp old]))
  end.

Definition flowLocals {L} (f : Flow L Empty_set) : L :=
  match f with
  | Next l => l
  | Return r => match r with end
  end.

Definition readCGroupBlkioFile : M (St W) (list cgroupblkio) :=
  f <- forRange readBody limitKinds [] ;;
  ret (flowLocals f).

(** The first loop of [writeCgroupBlkioFile] for one limit kind: entries of
    [newBlkio] that repeat the previous value are deleted. *)
Definition dropUnchanged (c : cgroupblkio) : gmap string string :=
  foldl (fun new kv =>
           match new !! kv.1 with
           | Some nv => if bool_decide (kv.2 = nv) then delete kv.1 new else new
           | None => new
           end)
        (newBlkio c) (range_map (oldBlkio c)).

Definition writeEntry (path : string) (kv : string * string) (_ : unit)
    : M (St W) (Flow unit Empty_set) :=
  _ <- exec_ExecuteCommand kv.1 kv.2 path ;;
  ret (Next tt).

Definition writeBody (c : cgroupblkio) (_ : unit)
    : M (St W) (Flow unit Empty_set) :=
  let new := dropUnchanged c in
  _ <- forRange (writeEntry (cpath c)) (range_map new) tt ;;
  ret (Next tt).

Definition writeCgroupBlkioFile (cp : list cgroupblkio) : M (St W) unit :=
  _ <- forRange writeBody cp tt ;;
  ret tt.

(** The part of the loop body over the volumes of a pod that both
    [SinglePodCGroupConfig] and [AllPodCGroupConfig] start with: the device
    key of the volume, or [None] where the body says [continue].
    [pvInfo.Spec.CSI] is a pointer. *)
Definition blkioKeyOf (p : Pod) (volume : Volume) : M (St W) (option string) :=
  match vol_PersistentVolumeClaim volume with
  | None => ret None
  | Some claimName =>
      r <- r_ListPersistentVolume (pod_Namespace p +:+ "-" +:+ claimName) ;;
      match r with
      | Err _ => ret None
      | Ok items =>
          match items with
          | [pvInfo] =>
              match pv_Spec_CSI pvInfo with
              | None => panic "invalid memory address or nil pointer dereference"
              | Some csi =>
                  if bool_decide (csi_Driver csi ≠ utils.CSIPluginName) then ret None
                  else
                    let attr k := default "" (csi_VolumeAttributes csi !! k) in
                    ret (Some (attr utils.VolumeDeviceMajor +:+ ":"
                               +:+ attr utils.VolumeDeviceMinor))
              end
          | _ => ret None
          end
      end
  end.

(** The inner loop over [cb] of [SinglePodCGroupConfig]. *)
Definition fillSingle (pod : Pod) (blkioKey : string) (c : cgroupblkio)
    : cgroupblkio :=
  match pod_Annotations pod !! annotationKey c with
  | Some newValue => set_newBlkio c (<[blkioKey := newValue]> (newBlkio c))
  | None => set_newBlkio c (<[blkioKey := "0"]> (newBlkio c))
  end.

(** The inner loop over [cb] of [AllPodCGroupConfig]. *)
Definition fillAll (p : Pod) (blkioKey : string) (c : cgroupblkio)
    : cgroupblkio :=
  let oldOk := bool_decide (is_Some (oldBlkio c !! blkioKey)) in
  match pod_Annotations p !! annotationKey c with
  | Some newValue => set_newBlkio c (<[blkioKey := newValue]> (newBlkio c))
  | None =>
      if oldOk then set_newBlkio c (<[blkioKey := "0"]> (newBlkio c)) else c
  end.

Definition volumeBody (fill : Pod -> string -> cgroupblkio -> cgroupblkio)
    (p : Pod) (volume : Volume) (cb : list cgroupblkio)
    : M (St W) (Flow (list cgroupblkio) Empty_set) :=
  k <- blkioKeyOf p volume ;;
  match k with
  | None => ret (Next cb)
  | Some blkioKey => ret (Next (fill p blkioKey <$> cb))
  end.

Definition SinglePodCGroupConfig (pod : Pod) : M (St W) (option error) :=
  let cb := (fun v => Mkcgroupblkio v (filepath_Join BlkIOCGroupPath v) ∅ ∅)
              <$> limitKinds in
  f <- forRange (volumeBody fillSingle pod) (pod_Spec_Volumes pod) cb ;;
  writeCgroupBlkioFile (flowLocals f) ;;
  ret None.

Definition podBody (p : Pod) (cb : list cgroupblkio)
    : M (St W) (Flow (list cgroupblkio) Empty_set) :=
  forRange (volumeBody fillAll p) (pod_Spec_Volumes p) cb.

Definition AllPodCGroupConfig : M (St W) (option error) :=
  nodeName <- gets (fun s => NodeName (self s)) ;;
  r <- r_ListPod (utils.CarinaSchedule +:+ "-" +:+ nodeName) ;;
  match r with
  | Err e => ret (Some e)
  | Ok podList =>
      cb <- readCGroupBlkioFile ;;
      f <- forRange podBody podList cb ;;
      writeCgroupBlkioFile (flowLocals f) ;;
      ret None
  end.

(** The polling loop of [Reconcile]: [for i := 0; i < 5; i++]. *)
Fixpoint waitRunning (budget : nat) (req : ObjectKey) (pod : Pod)
    : M (St W) (Flow Pod (ctrl_Result * option error)) :=
  match budget with
  | O => ret (Next pod)
  | S budget' =>
      if bool_decide (pod_Status_Phase pod = PodRunning) then ret (Next pod)
      else
        time_Sleep 30 ;;
        r <- r_GetPod req ;;
        match r with
        | Ok _ => ret (Return (Result0, None))
        | Err _ => waitRunning budget' req pod
        end
  end.

Definition Reconcile (req : ObjectKey) : M (St W) (ctrl_Result * option error) :=
  r <- r_GetPod req ;;
  match r with
  | Err e =>
      if IsNotFound e then ret (Result0, None) else ret (Result0, Some e)
  | Ok pod =>
      if bool_decide (pod_DeletionTimestamp pod ≠ None) then ret (Result0, None)
      else
        f <- waitRunning 5 req pod ;;
        match f with
        | Return r => ret r
        | Next pod =>
            err <- SinglePodCGroupConfig pod ;;
            match err with
            | Some e => ret (Result0, Some e)
            | None => ret (Result0, None)
            end
        end
  end.

End Controller.
End PodReconciler.

(** ** controllers/persistentvolume_controller.go *)

Module PersistentVolumeReconciler.

(** What the aggregator takes from outside the repository: the configured
    namespace and the JSON encoder. *)
Class Environment : Type := {
  RuntimeNamespace : string;
  json_Marshal : list (gmap string string) -> result string
}.

(** The private fields of [PersistentVolumeReconciler]. *)
Record T : Type := MkT {
  cacheConfigMap : gmap string (gmap string string);
  lastEventTime : Z
}.

#[export] Instance PersistentVolumeReconciler_T_eq_dec : EqDecision T.
Proof. solve_decision. Defined.

Definition St (W : Type) : Type := Sys T W.

Definition set_cacheConfigMap {W} (c : gmap string (gmap string string))
    (s : St W) : St W :=
  MkSys (MkT c (lastEventTime (self s))) (world s) (trace s).

(** [value["nodeName"]]: a missing key reads as the empty string. *)
Definition nodeNameOf (value : gmap string string) : string :=
  default "" (value !! "nodeName").

Definition cacheHit (cache : gmap string (gmap string string))
    (nodeDevice : list (gmap string string)) : bool :=
  if bool_decide (size cache ≠ length nodeDevice) then false
  else
    forallb (fun value =>
               match cache !! nodeNameOf value with
               | None => false
               | Some cached => utils.MapEqualMap value cached
               end)
            nodeDevice.

Definition cacheRefreshed (nodeDevice : list (gmap string string))
    : gmap string (gmap string string) :=
  foldl (fun cache value => <[nodeNameOf value := value]> cache) ∅ nodeDevice.

Section Controller.
Context {W : Type} `{!Client W} `{!utils.Constants} `{!MapRange} `{!Environment}.

Definition r_ListNode : M (St W) (result (list Node)) :=
  call CallListNode ListNode.

Definition r_GetConfigMap (key : ObjectKey) : M (St W) (result ConfigMap) :=
  call (CallGetConfigMap key) (GetConfigMap key).

Definition r_CreateConfigMap (cm : ConfigMap) : M (St W) (option error) :=
  call (CallCreateConfigMap cm) (CreateConfigMap cm).

Definition r_UpdateConfigMap (cm : ConfigMap) : M (St W) (option error) :=
  call (CallUpdateConfigMap cm) (UpdateConfigMap cm).

(** One of the two loops over the quantities of a node:
    [tmp[label+key] = fmt.Sprintf("%d", v.Value())] for the keys that carry
    the device-capacity prefix. *)
Definition addQuantities (label : string) (quantities : gmap string Z)
    (tmp : gmap string string) : gmap string string :=
  foldl (fun tmp kv =>
           if HasPrefix kv.1 utils.DeviceCapacityKeyPrefix
           then <[label +:+ kv.1 := pretty kv.2]> tmp
           else tmp)
        tmp (range_map quantities).

(** The body of the loop of [updateNodeConfigMap] over the nodes. *)
Definition nodeRecord (nodeDevice : list (gmap string string)) (node : Node)
    : list (gmap string string) :=
  let tmp := addQuantities "capacity." (node_Status_Capacity node) ∅ in
  let tmp := addQuantities "allocatable." (node_Status_Allocatable node) tmp in
  if bool_decide (0 < size tmp)%nat
  then nodeDevice ++ [<["nodeName" := node_Name node]> tmp]
  else nodeDevice.

Definition nodeDeviceOf (items : list Node) : list (gmap string string) :=
  foldl nodeRecord [] items.

Definition storageConfigMapKey : ObjectKey :=
  MkObjectKey RuntimeNamespace "carina-node-storage".

Definition updateNodeConfigMap : M (St W) (option error) :=
  r <- r_ListNode ;;
  match r with
  | Err e => ret (Some e)
  | Ok nl =>
      let nodeDevice := nodeDeviceOf nl in
      cache <- gets (fun s => cacheConfigMap (self s)) ;;
      if cacheHit cache nodeDevice then ret None
      else
        match json_Marshal nodeDevice with
        | Err e => ret (Some e)
        | Ok byteJson =>
            r <- r_GetConfigMap storageConfigMapKey ;;
            match r with
            | Err e =>
                if IsNotFound e then
                  let c := MkConfigMap RuntimeNamespace "carina-node-storage"
                             {["node" := byteJson]} in
                  err <- r_CreateConfigMap c ;;
                  match err with
                  | Some e => ret (Some e)
                  | None => ret None
                  end
                else ret (Some e)
            | Ok cm =>
                let cm := MkConfigMap (cm_Namespace cm) (cm_Name cm)
                            {["node" := byteJson]} in
                err <- r_UpdateConfigMap cm ;;
                match err with
                | Some e => ret (Some e)
                | None =>
                    modify (set_cacheConfigMap (cacheRefreshed nodeDevice)) ;;
                    ret None
                end
            end
        end
  end.

End Controller.
End PersistentVolumeReconciler.

(** ** A small API server and host to run the controllers against *)

Module Fake.

(** Values for the constants of package [utils] to run the controllers
    with. *)
#[export] Instance constants : utils.Constants :=
  {| utils.CSIPluginName := "carina.storage.io";
     utils.CarinaSchedule := "carina-scheduler";
     utils.LogicVolumeFinalizer := "carina.storage.io/logicvolume";
     utils.VolumeDeviceMajor := "carina.storage.io/dev-major";
     utils.VolumeDeviceMinor := "carina.storage.io/dev-minor";
     utils.DeviceCapacityKeyPrefix := "carina.storage.io/" |}.

Record Cluster : Type := MkCluster {
  lvs : list LogicVolume;
  nodes : list Node;
  pvs : list PersistentVolume;
  pvcs : list PersistentVolumeClaim;
  pods : list Pod;
  cms : list ConfigMap;
  files : list (string * list string);
  clock : Z
}.

#[export] Instance Cluster_eq_dec : EqDecision Cluster.
Proof. solve_decision. Defined.

Definition NotFound : error := "not found".
Definition AlreadyExists : error := "already exists".

Definition set_lvs (w : Cluster) (l : list LogicVolume) : Cluster :=
  MkCluster l (nodes w) (pvs w) (pvcs w) (pods w) (cms w) (files w) (clock w).

Definition set_pvcs (w : Cluster) (l : list PersistentVolumeClaim) : Cluster :=
  MkCluster (lvs w) (nodes w) (pvs w) l (pods w) (cms w) (files w) (clock w).

Definition set_cms (w : Cluster) (l : list ConfigMap) : Cluster :=
  MkCluster (lvs w) (nodes w) (pvs w) (pvcs w) (pods w) l (files w) (clock w).

Definition set_nodes (w : Cluster) (l : list Node) : Cluster :=
  MkCluster (lvs w) l (pvs w) (pvcs w) (pods w) (cms w) (files w) (clock w).

Definition set_clock (w : Cluster) (t : Z) : Cluster :=
  MkCluster (lvs w) (nodes w) (pvs w) (pvcs w) (pods w) (cms w) (files w) t.

(** The [pvIndex] field index registered by [PodReconciler.SetupWithManager]. *)
Definition pvIndexOf (pv : PersistentVolume) : list string :=
  match pv_Spec_CSI pv, pv_Spec_ClaimRef pv with
  | Some csi, Some ref =>
      if bool_decide (csi_Driver csi = utils.CSIPluginName)
      then [key_Namespace ref +:+ "-" +:+ key_Name ref] else []
  | _, _ => []
  end.

(** The [combinedIndex] field index. *)
Definition combinedIndexOf (p : Pod) : string :=
  pod_Spec_SchedulerName p +:+ "-" +:+ pod_Spec_NodeName p.

Definition isLv (n : string) (lv : LogicVolume) : bool :=
  bool_decide (lv_Name lv = n).

Definition isPvc (ns n : string) (pvc : PersistentVolumeClaim) : bool :=
  bool_decide (pvc_Namespace pvc = ns) && bool_decide (pvc_Name pvc = n).

Definition isCm (ns n : string) (cm : ConfigMap) : bool :=
  bool_decide (cm_Namespace cm = ns) && bool_decide (cm_Name cm = n).

Definition lv_set_DeletionTimestamp (lv : LogicVolume) (t : Z) : LogicVolume :=
  MkLogicVolume (lv_Name lv) (lv_OwnerReferences lv) (lv_Finalizers lv) (Some t)
    (lv_Spec_NodeName lv) (lv_Spec_NameSpace lv) (lv_Spec_Pvc lv)
    (lv_Status_Status lv).

Definition pvc_set_DeletionTimestamp (pvc : PersistentVolumeClaim) (t : Z)
    : PersistentVolumeClaim :=
  MkPVC (pvc_Name pvc) (pvc_Namespace pvc) (pvc_Finalizers pvc) (Some t)
    (pvc_Spec pvc) (pvc_Status_Phase pvc).

(** Deleting an object that still carries finalizers only marks it. *)
Definition deleteLv (lv : LogicVolume) (w : Cluster) : option error * Cluster :=
  match List.find (isLv (lv_Name lv)) (lvs w) with
  | None => (Some NotFound, w)
  | Some _ =>
      (None,
       set_lvs w
         (omap (fun x =>
                  if isLv (lv_Name lv) x then
                    match lv_Finalizers x with
                    | [] => None
                    | _ => Some (lv_set_DeletionTimestamp x (clock w))
                    end
                  else Some x)
               (lvs w)))
  end.

(** A merge patch made from [base] to [obj] that changes the finalizers;
    a marked object whose last finalizer goes away is removed. *)
Definition patchLv (obj base : LogicVolume) (w : Cluster) : option error * Cluster :=
  match List.find (isLv (lv_Name obj)) (lvs w) with
  | None => (Some NotFound, w)
  | Some _ =>
      (None,
       set_lvs w
         (omap (fun x =>
                  if isLv (lv_Name obj) x then
                    let x' := lv_set_Finalizers x (lv_Finalizers obj) in
                    match lv_Finalizers x', lv_DeletionTimestamp x' with
                    | [], Some _ => None
                    | _, _ => Some x'
                    end
                  else Some x)
               (lvs w)))
  end.

Definition getPvc (o : ObjectKey) (w : Cluster)
    : result PersistentVolumeClaim * Cluster :=
  match List.find (isPvc (key_Namespace o) (key_Name o)) (pvcs w) with
  | None => (Err NotFound, w)
  | Some pvc => (Ok pvc, w)
  end.

Definition deletePvc (pvc : PersistentVolumeClaim) (w : Cluster)
    : option error * Cluster :=
  match List.find (isPvc (pvc_Namespace pvc) (pvc_Name pvc)) (pvcs w) with
  | None => (Some NotFound, w)
  | Some _ =>
      (None,
       set_pvcs w
         (omap (fun x =>
                  if isPvc (pvc_Namespace pvc) (pvc_Name pvc) x then
                    match pvc_Finalizers x with
                    | [] => None
                    | _ => Some (pvc_set_DeletionTimestamp x (clock w))
                    end
                  else Some x)
               (pvcs w)))
  end.

Definition createPvc (pvc : PersistentVolumeClaim) (w : Cluster)
    : option error * Cluster :=
  match List.find (isPvc (pvc_Namespace pvc) (pvc_Name pvc)) (pvcs w) with
  | Some _ => (Some AlreadyExists, w)
  | None => (None, set_pvcs w (pvcs w ++ [pvc]))
  end.

Definition getPod (o : ObjectKey) (w : Cluster) : result Pod * Cluster :=
  match List.find (fun p => bool_decide (pod_Namespace p = key_Namespace o)
                            && bool_decide (pod_Name p = key_Name o)) (pods w) with
  | None => (Err NotFound, w)
  | Some p => (Ok p, w)
  end.

Definition getCm (o : ObjectKey) (w : Cluster) : result ConfigMap * Cluster :=
  match List.find (isCm (key_Namespace o) (key_Name o)) (cms w) with
  | None => (Err NotFound, w)
  | Some cm => (Ok cm, w)
  end.

Definition createCm (cm : ConfigMap) (w : Cluster) : option error * Cluster :=
  match List.find (isCm (cm_Namespace cm) (cm_Name cm)) (cms w) with
  | Some _ => (Some AlreadyExists, w)
  | None => (None, set_cms w (cms w ++ [cm]))
  end.

Definition updateCm (cm : ConfigMap) (w : Cluster) : option error * Cluster :=
  match List.find (isCm (cm_Namespace cm) (cm_Name cm)) (cms w) with
  | None => (Some NotFound, w)
  | Some _ =>
      (None,
       set_cms w
         ((fun x => if isCm (cm_Namespace cm) (cm_Name cm) x then cm else x)
            <$> cms w))
  end.

#[export] Instance client : Client Cluster :=
  {| ListLogicVolume := fun w => (Ok (lvs w), w);
     ListNode := fun w => (Ok (nodes w), w);
     ListPersistentVolume := fun idx w =>
       match idx with
       | None => (Ok (pvs w), w)
       | Some i =>
           (Ok (List.filter (fun pv => bool_decide (i ∈ pvIndexOf pv)) (pvs w)), w)
       end;
     ListPod := fun idx w =>
       (Ok (List.filter (fun p => bool_decide (combinedIndexOf p = idx)) (pods w)), w);
     DeleteLogicVolume := deleteLv;
     PatchLogicVolume := patchLv;
     GetPersistentVolumeClaim := getPvc;
     DeletePersistentVolumeClaim := deletePvc;
     CreatePersistentVolumeClaim := createPvc;
     GetPod := getPod;
     GetConfigMap := getCm;
     CreateConfigMap := createCm;
     UpdateConfigMap := updateCm;
     IsNotFound := fun e => bool_decide (e = NotFound) |}.

#[export] Instance host : Host Cluster :=
  {| Sleep := fun seconds w => set_clock w (clock w + seconds);
     Open := fun path w =>
       match List.find (fun f => bool_decide (f.1 = path)) (files w) with
       | None => (Err "no such file or directory", w)
       | Some f => (Ok f.2, w)
       end;
     ExecuteCommand := fun _ _ w => (None, w) |}.

(** A JSON encoder is outside the repository; this stand-in writes the
    records one after the other. *)
Definition encodeRecord (r : gmap string string) : string :=
  "{" +:+ foldr (fun kv acc => kv.1 +:+ "=" +:+ kv.2 +:+ ";" +:+ acc) "}" (map_to_list r).

#[export] Instance environment : PersistentVolumeReconciler.Environment :=
  {| PersistentVolumeReconciler.RuntimeNamespace := "carina";
     PersistentVolumeReconciler.json_Marshal := fun l =>
       Ok (foldr (fun r acc => encodeRecord r +:+ acc) "" l) |}.

Definition empty : Cluster := MkCluster [] [] [] [] [] [] [] 0.

End Fake.

(** ** Vocabulary of the statements *)

(** The calls made between two states of a run. *)
Definition newCalls {R W} (s s' : Sys R W) : list Call :=
  drop (length (trace s)) (trace s').

(** How many times a call occurs in a list of calls. *)
Definition occurrences (c : Call) (t : list Call) : nat :=
  length (filter (fun x => x = c) t).

(** Every call a computation makes satisfies [P]. *)
Definition emits {R W A} (P : Call -> Prop) (m : M (Sys R W) A) : Prop :=
  ∀ s, ∃ t, trace (m s).2 = trace s ++ t ∧ Forall P t.

Definition isListCall (c : Call) : Prop :=
  match c with
  | CallListLogicVolume | CallListNode | CallListPersistentVolume _
  | CallListPod _ => True
  | _ => False
  end.

(** The claim a call to the cluster is about, for the calls on claims. *)
Definition claimOf (c : Call) : option ObjectKey :=
  match c with
  | CallGetPersistentVolumeClaim key => Some key
  | CallDeletePersistentVolumeClaim pvc
  | CallCreatePersistentVolumeClaim pvc =>
      Some (MkObjectKey (pvc_Namespace pvc) (pvc_Name pvc))
  | _ => None
  end.

(** The LogicVolume a call to the cluster is about: for a patch, the object
    the patch is computed against. *)
Definition logicVolumeOf (c : Call) : option LogicVolume :=
  match c with
  | CallDeleteLogicVolume lv => Some lv
  | CallPatchLogicVolume _ base => Some base
  | _ => None
  end.

(** A call that touches no LogicVolume and no claim other than [o]. *)
Definition claimCallFor (o : ObjectKey) (c : Call) : Prop :=
  logicVolumeOf c = None ∧ ∀ o', claimOf c = Some o' -> o' = o.

Module NodePlan.
Import NodeReconciler.

Section Plan.
Context `{!utils.Constants}.

(** The four ways the loop of [getNeedRebuildVolume] treats a LogicVolume,
    read off the conditions of the loop body. *)
Definition owned (lv : LogicVolume) : bool :=
  bool_decide (0 < length (lv_OwnerReferences lv))%nat.

Definition orphaned (pvs : gmap string Z) (lv : LogicVolume) : bool :=
  bool_decide (lv_Status_Status lv ≠ "")
  && negb (bool_decide (is_Some (pvs !! lv_Name lv))).

Definition settled (nodeStatus : gmap string string) (cache : gmap string Z)
    (lv : LogicVolume) : bool :=
  bool_decide (lv_Status_Status lv = "Success")
  && (bool_decide (is_Some (cache !! lv_Name lv))
      || bool_decide (nodeStatus !! lv_Spec_NodeName lv = Some "normal")).

Definition candidate (nodeStatus : gmap string string) (pvs cache : gmap string Z)
    (lv : LogicVolume) : bool :=
  negb (owned lv) && negb (orphaned pvs lv) && negb (settled nodeStatus cache lv).

(** The calls the loop body makes for one LogicVolume when none fails. *)
Definition lvCalls (nodeStatus : gmap string string) (pvs cache : gmap string Z)
    (lv : LogicVolume) : list Call :=
  if owned lv then []
  else if orphaned pvs lv then
    if hasFinalizer lv
    then [CallDeleteLogicVolume lv; CallPatchLogicVolume (stripFinalizer lv) lv]
    else []
  else if settled nodeStatus cache lv then []
  else if hasFinalizer lv then [CallPatchLogicVolume (stripFinalizer lv) lv]
  else [].

Definition allLvCalls (nodeStatus : gmap string string) (pvs cache : gmap string Z)
    (lvList : list LogicVolume) : list Call :=
  concat (lvCalls nodeStatus pvs cache <$> lvList).

(** What the loop body does to [volumeObjectMap]. *)
Definition record (nodeStatus : gmap string string) (pvs cache : gmap string Z)
    (m : gmap string ObjectKey) (lv : LogicVolume) : gmap string ObjectKey :=
  if candidate nodeStatus pvs cache lv then <[lv_Name lv := candidateKey lv]> m else m.

(** The result of the loop of [pvMap]. *)
Definition pvNames (items : list PersistentVolume) : gmap string Z :=
  foldl (fun result pv => <[pv_Name pv := 0]> result) ∅ items.

(** The calls of a create retry in which every attempt fails. *)
Fixpoint retryCalls (pvc : PersistentVolumeClaim) (interval : Z) (n : nat)
    : list Call :=
  match n with
  | O => []
  | S n' =>
      CallCreatePersistentVolumeClaim pvc ::
      match n' with
      | O => []
      | S _ => CallSleep interval :: retryCalls pvc interval n'
      end
  end.

Definition isCreateCall (c : Call) : bool :=
  match c with
  | CallCreatePersistentVolumeClaim _ => true
  | _ => false
  end.

End Plan.
End NodePlan.

(** ** A cluster to run the volume-rebuild controller on *)

Module RebuildScenario.
Import Fake NodeReconciler.

Definition finalizer : string := "carina.storage.io/logicvolume".

(** Owned by another subsystem. *)
Definition lvOwned : LogicVolume :=
  MkLogicVolume "lv-owned" ["bcache"] [finalizer] None
    "node-gone" "default" "claim-owned" "Success".

(** No PersistentVolume of its name, with the rebuild finalizer. *)
Definition lvOrphan : LogicVolume :=
  MkLogicVolume "lv-orphan" [] [finalizer; "other"] None
    "node-1" "default" "claim-orphan" "Success".

(** No PersistentVolume of its name, without the rebuild finalizer. *)
Definition lvBare : LogicVolume :=
  MkLogicVolume "lv-bare" [] [] None
    "node-1" "default" "claim-bare" "Failed".

(** Two volumes on a node that is gone. *)
Definition lvLost : LogicVolume :=
  MkLogicVolume "lv-lost" [] [finalizer] None
    "node-gone" "default" "claim-lost" "Success".

Definition lvLost2 : LogicVolume :=
  MkLogicVolume "lv-lost2" [] [finalizer] None
    "node-gone" "default" "claim-lost2" "Success".

Definition node1 : Node := MkNode "node-1" None NodeRunning ∅ ∅.

Definition csi816 : CSIPersistentVolumeSource :=
  MkCSI "carina.storage.io"
    (<["carina.storage.io/dev-major" := "8"]>
       (<["carina.storage.io/dev-minor" := "16"]> ∅)).

Definition keyLost : ObjectKey := MkObjectKey "default" "claim-lost".
Definition keyLost2 : ObjectKey := MkObjectKey "default" "claim-lost2".

Definition pvLost : PersistentVolume :=
  MkPersistentVolume "lv-lost" (Some csi816) (Some keyLost).

Definition pvLost2 : PersistentVolume :=
  MkPersistentVolume "lv-lost2" (Some csi816) (Some keyLost2).

Definition claimSpec : PersistentVolumeClaimSpec :=
  MkPVCSpec ["ReadWriteOnce"] None {["storage" := 10]} "lv-lost"
    (Some "csi-carina-sc") (Some "Filesystem") None.

(** Both claims are in use: deleting them only marks them, so creating
    them anew fails for as long as their pods run. *)
Definition claimLost : PersistentVolumeClaim :=
  MkPVC "claim-lost" "default" ["kubernetes.io/pvc-protection"] None
    claimSpec "Bound".

Definition claimLost2 : PersistentVolumeClaim :=
  MkPVC "claim-lost2" "default" ["kubernetes.io/pvc-protection"] None
    claimSpec "Bound".

Definition cluster : Cluster :=
  MkCluster [lvOwned; lvOrphan; lvBare; lvLost; lvLost2] [node1]
    [pvLost; pvLost2] [claimLost; claimLost2] [] [] [] 0.

Definition start : St Cluster := MkSys (MkT ∅) cluster [].

(** The state after [getNeedRebuildVolume], and the candidates it returns. *)
Definition afterSelection : St Cluster := (getNeedRebuildVolume start).2.

Definition candidates : gmap string ObjectKey :=
  <["lv-lost" := keyLost]> (<["lv-lost2" := keyLost2]> ∅).


(** The states after a first and after a second full pass. *)
Definition afterPass1 : St Cluster := (resourceReconcile start).2.
Definition afterPass2 : St Cluster := (resourceReconcile afterPass1).2.

End RebuildScenario.

(** ** Vocabulary of the statements on the throttle controller *)

Module ThrottlePlan.
Import PodReconciler.

Definition isExecuteCall (c : Call) : Prop :=
  match c with
  | CallExecuteCommand _ _ _ => True
  | _ => False
  end.

(** The paths of the four throttle pseudo-files. *)
Definition limitPaths : list string :=
  filepath_Join BlkIOCGroupPath <$> limitKinds.

Section Plan.
Context {W : Type} `{!Client W} `{!Host W} `{!utils.Constants} `{!MapRange}.

(** The device references a pass over the pods resolves: the same calls
    as the loops of [AllPodCGroupConfig] over the pods and their volumes,
    collecting each pod with the device key of each volume that gets past
    the [continue]s. *)
Definition refBody (p : Pod) (volume : Volume) (refs : list (Pod * string))
    : M (St W) (Flow (list (Pod * string)) Empty_set) :=
  k <- blkioKeyOf p volume ;;
  match k with
  | None => ret (Next refs)
  | Some blkioKey => ret (Next (refs ++ [(p, blkioKey)]))
  end.

Definition refsOfPod (p : Pod) (refs : list (Pod * string))
    : M (St W) (Flow (list (Pod * string)) Empty_set) :=
  forRange (refBody p) (pod_Spec_Volumes p) refs.

Definition referencedDevices (podList : list Pod) : M (St W) (list (Pod * string)) :=
  f <- forRange refsOfPod podList [] ;;
  ret (flowLocals f).

(** The world after [n] polls of [Reconcile] that all fail to fetch the
    pod, if they all fail. *)
Fixpoint failedPolls (req : ObjectKey) (n : nat) (w : W) : option W :=
  match n with
  | O => Some w
  | S n' =>
      match GetPod req (Sleep 30 w) with
      | (Err _, w') => failedPolls req n' w'
      | (Ok _, _) => None
      end
  end.

Fixpoint pollCalls (req : ObjectKey) (n : nat) : list Call :=
  match n with
  | O => []
  | S n' => CallSleep 30 :: CallGetPod req :: pollCalls req n'
  end.

(** The effect of the resolved references on one [cgroupblkio]. *)
Definition filled (refs : list (Pod * string)) (c : cgroupblkio) : cgroupblkio :=
  foldl (fun c pk => fillAll pk.1 pk.2 c) c refs.

(** The writes of [writeCgroupBlkioFile] for one limit kind. *)
Definition execCalls (c : cgroupblkio) : list Call :=
  (fun kv => CallExecuteCommand kv.1 kv.2 (cpath c)) <$> range_map (dropUnchanged c).

End Plan.
End ThrottlePlan.

(** ** A host and cluster to run the throttle controller on *)

Module ThrottleScenario.
Import Fake PodReconciler.

Definition readBpsPath : string := filepath_Join BlkIOCGroupPath BlkIOThrottleReadBPS.

Definition webKey : ObjectKey := MkObjectKey "default" "web".

(** A pod of the local node and scheduler with one carina volume on device
    [8:16] and a read-rate override. *)
Definition webPod (phase : PodPhase) : Pod :=
  MkPod "default" "web"
    {[ "kubernetes.customized/blkio.throttle.read_bps_device" := "104857600" ]}
    None "node-1" "carina-scheduler" [MkVolume "data" (Some "data")] phase.

Definition pvData : PersistentVolume :=
  MkPersistentVolume "pv-data" (Some RebuildScenario.csi816)
    (Some (MkObjectKey "default" "data")).

(** The same pod without any override. *)
Definition plainPod : Pod :=
  MkPod "default" "web" ∅ None "node-1" "carina-scheduler"
    [MkVolume "data" (Some "data")] PodRunning.

(** A pod of the local node and scheduler that is being deleted. *)
Definition deletedPod : Pod :=
  MkPod "default" "web" ∅ (Some 5) "node-1" "carina-scheduler"
    [MkVolume "data" (Some "data")] PodRunning.

(** The four pseudo-files: the read-rate file with the given lines, the
    other three without limits. *)
Definition filesWith (lines : list string) : list (string * list string) :=
  [(readBpsPath, lines);
   (filepath_Join BlkIOCGroupPath BlkIOThrottleReadIOPS, []);
   (filepath_Join BlkIOCGroupPath BlkIOThrottleWriteBPS, []);
   (filepath_Join BlkIOCGroupPath BlkIOThrottleWriteIOPS, [])].

Definition hostWith (pods : list Pod) (files : list (string * list string))
    : St Cluster :=
  MkSys (MkT "node-1") (MkCluster [] [] [pvData] [] pods [] files 0) [].

Definition deleting : St Cluster := hostWith [deletedPod] (filesWith []).

(** The pod has not reached the running phase. *)
Definition pending : St Cluster := hostWith [webPod PodPending] (filesWith []).

(** The pod runs. *)
Definition running : St Cluster := hostWith [webPod PodRunning] (filesWith []).

(** The read-rate file has a line without a second field. *)
Definition malformed : St Cluster :=
  hostWith [webPod PodRunning] (filesWith ["8:16"]).

(** None of the four pseudo-files can be opened. *)
Definition missing : St Cluster := hostWith [webPod PodRunning] [].

(** A read-rate limit is set on device [8:16], and no pod is left on the
    node. *)
Definition stale : St Cluster := hostWith [] (filesWith ["8:16 104857600"]).

(** A read-rate limit is set on device [8:16], and the pod that uses the
    device carries no override. *)
Definition limited : St Cluster :=
  hostWith [plainPod] (filesWith ["8:16 104857600"]).

Definition localIndex : string := "carina-scheduler-node-1".

(** The previous state read from the host, per path. *)
Definition previousState (s : St Cluster) : list (string * list (string * string)) :=
  match (readCGroupBlkioFile s).1 with
  | Val cb => (fun c => (cpath c, map_to_list (oldBlkio c))) <$> cb
  | Panic _ => []
  end.

(** The stages of the full resync on [limited]. *)
Definition limitedListed : St Cluster := (r_ListPod localIndex limited).2.
Definition limitedRead : St Cluster := (readCGroupBlkioFile limitedListed).2.

Definition limitedLimits : list cgroupblkio :=
  match (readCGroupBlkioFile limitedListed).1 with
  | Val cb => cb
  | Panic _ => []
  end.

Definition limitedResolved : St Cluster :=
  (ThrottlePlan.referencedDevices [plainPod] limitedRead).2.

End ThrottleScenario.

(** ** A cluster to run the capacity aggregator on *)

Module CapacityScenario.
Import Fake PersistentVolumeReconciler.

Definition isWriteCall (c : Call) : bool :=
  match c with
  | CallCreateConfigMap _ | CallUpdateConfigMap _ => true
  | _ => false
  end.

Definition writes (t : list Call) : nat :=
  length (filter (fun c => isWriteCall c = true) t).

Definition nodeA : Node :=
  MkNode "node-a" None NodeRunning
    {[ "carina.storage.io/carina-vg-hdd" := 100 ]}
    {[ "carina.storage.io/carina-vg-hdd" := 80 ]}.

Definition nodeB : Node :=
  MkNode "node-b" None NodeRunning
    {[ "carina.storage.io/carina-vg-ssd" := 50 ]}
    {[ "carina.storage.io/carina-vg-ssd" := 50 ]}.

(** No artifact yet, an empty cache. *)
Definition start : St Cluster :=
  MkSys (MkT ∅ 0) (MkCluster [] [nodeA; nodeB] [] [] [] [] [] 0) [].

(** The same nodes, listed in the other order from now on. *)
Definition reordered (s : St Cluster) : St Cluster :=
  MkSys (self s) (set_nodes (world s) (reverse (nodes (world s)))) (trace s).

Definition afterPass1 : St Cluster := (updateNodeConfigMap start).2.
Definition afterPass2 : St Cluster := (updateNodeConfigMap (reordered afterPass1)).2.
Definition afterPass3 : St Cluster := (updateNodeConfigMap (reordered afterPass2)).2.

End CapacityScenario.

(** ** More vocabulary on the volume-rebuild controller *)

Module NodePlan2.
Import NodeReconciler.

(** The test of the loop of [getNeedRebuildVolume] over the nodes. *)
Definition abnormal (n : Node) : bool :=
  bool_decide (node_DeletionTimestamp n ≠ None)
  || bool_decide (node_Status_Phase n = NodeTerminated).

(** The calls of one iteration of [rebuildVolume] for the claim [o]: the
    fetch alone, or the fetch, the delete and the creates of the retry. *)
Definition blockFor (o : ObjectKey) (b : list Call) : Prop :=
  b = [CallGetPersistentVolumeClaim o]
  ∨ ∃ pvc t,
      b = CallGetPersistentVolumeClaim o
          :: CallDeletePersistentVolumeClaim (newPvcOf o pvc) :: t
      ∧ t `prefix_of` NodePlan.retryCalls (newPvcOf o pvc) 10 12.


(** The names of the LogicVolumes a call to the cluster carries. *)
Definition logicVolumeNames (c : Call) : list string :=
  match c with
  | CallDeleteLogicVolume lv => [lv_Name lv]
  | CallPatchLogicVolume obj base => [lv_Name obj; lv_Name base]
  | _ => []
  end.




Section States.
Context {W : Type} `{!Client W} `{!Host W}.



End States.
End NodePlan2.

(** ** A second cluster for the volume-rebuild controller *)

Module RebuildScenario2.
Import Fake NodeReconciler.

Definition finalizer : string := "carina.storage.io/logicvolume".

(** On a healthy node, with its PersistentVolume. *)
Definition lvHealthy : LogicVolume :=
  MkLogicVolume "lv-healthy" [] [finalizer] None
    "node-1" "default" "claim-healthy" "Success".

(** On a node that is gone, with its PersistentVolume; its name is in the
    negative cache. *)
Definition lvCached : LogicVolume :=
  MkLogicVolume "lv-cached" [] [finalizer] None
    "node-gone" "default" "claim-cached" "Success".

(** On a healthy node, not yet provisioned: empty status, no
    PersistentVolume. *)
Definition lvPending : LogicVolume :=
  MkLogicVolume "lv-pending" [] [finalizer] None
    "node-1" "default" "claim-pending" "".

(** On a node that is gone; its claim names no storage class. *)
Definition lvClassless : LogicVolume :=
  MkLogicVolume "lv-classless" [] [] None
    "node-gone" "default" "claim-classless" "Success".

Definition node1 : Node := MkNode "node-1" None NodeRunning ∅ ∅.

Definition pvOf (name claim : string) : PersistentVolume :=
  MkPersistentVolume name (Some RebuildScenario.csi816)
    (Some (MkObjectKey "default" claim)).

Definition keyClassless : ObjectKey := MkObjectKey "default" "claim-classless".
Definition keyPending : ObjectKey := MkObjectKey "default" "claim-pending".

Definition classlessSpec : PersistentVolumeClaimSpec :=
  MkPVCSpec ["ReadWriteOnce"] None {["storage" := 10]} "lv-classless"
    None (Some "Filesystem") None.

(** In use, so that deleting it only marks it. *)
Definition claimClassless : PersistentVolumeClaim :=
  MkPVC "claim-classless" "default" ["kubernetes.io/pvc-protection"] None
    classlessSpec "Bound".

Definition cluster : Cluster :=
  MkCluster [lvHealthy; lvCached; lvPending]
    [node1]
    [pvOf "lv-healthy" "claim-healthy"; pvOf "lv-cached" "claim-cached"]
    [] [] [] [] 0.

Definition start : St Cluster :=
  MkSys (MkT (<["lv-cached" := 0]> ∅)) cluster [].

Definition afterSelection : St Cluster := (getNeedRebuildVolume start).2.

(** What the selection records: only [lv-pending]. *)
Definition candidates : gmap string ObjectKey :=
  <["lv-pending" := keyPending]> ∅.

Definition afterRebuild : St Cluster := (rebuildVolume candidates afterSelection).2.

(** A cluster without any LogicVolume. *)
Definition idle : St Cluster := MkSys (MkT ∅) Fake.empty [].

(** Only [lv-classless] and its claim. *)
Definition classless : St Cluster :=
  MkSys (MkT ∅)
    (MkCluster [lvClassless] [] [pvOf "lv-classless" "claim-classless"]
       [claimClassless] [] [] [] 0) [].

Definition classlessCandidates : gmap string ObjectKey :=
  <["lv-classless" := keyClassless]> ∅.



End RebuildScenario2.

(** ** The claim of an owned LogicVolume shared with a lost one *)

Module SharedClaimScenario.
Import Fake NodeReconciler.

(** Owned by another subsystem; its claim is the claim of [lv-lost]. *)
Definition lvOwned : LogicVolume :=
  MkLogicVolume "lv-owned" ["bcache"] [RebuildScenario.finalizer] None
    "node-gone" "default" "claim-lost" "Success".

(** The claim, not in use: deleting it removes it. *)
Definition claimFree : PersistentVolumeClaim :=
  MkPVC "claim-lost" "default" [] None RebuildScenario.claimSpec "Bound".

Definition cluster : Cluster :=
  MkCluster [lvOwned; RebuildScenario.lvLost] [RebuildScenario.node1]
    [RebuildScenario.pvLost] [claimFree] [] [] [] 0.

Definition start : St Cluster := MkSys (MkT ∅) cluster [].

Definition afterPass : St Cluster := (resourceReconcile start).2.

End SharedClaimScenario.

(** ** The exhausted retry of [RebuildScenario], step by step *)

Module ExhaustedScenario.
Import Fake NodeReconciler RebuildScenario.



End ExhaustedScenario.

(** ** An API server that answers every call with an error *)

Module Broken.

Definition Unavailable : error := "service unavailable".

#[export] Instance client : Client unit :=
  {| ListLogicVolume := fun w => (Err Unavailable, w);
     ListNode := fun w => (Err Unavailable, w);
     ListPersistentVolume := fun _ w => (Err Unavailable, w);
     ListPod := fun _ w => (Err Unavailable, w);
     DeleteLogicVolume := fun _ w => (Some Unavailable, w);
     PatchLogicVolume := fun _ _ w => (Some Unavailable, w);
     GetPersistentVolumeClaim := fun _ w => (Err Unavailable, w);
     DeletePersistentVolumeClaim := fun _ w => (Some Unavailable, w);
     CreatePersistentVolumeClaim := fun _ w => (Some Unavailable, w);
     GetPod := fun _ w => (Err Unavailable, w);
     GetConfigMap := fun _ w => (Err Unavailable, w);
     CreateConfigMap := fun _ w => (Some Unavailable, w);
     UpdateConfigMap := fun _ w => (Some Unavailable, w);
     IsNotFound := fun _ => false |}.

#[export] Instance host : Host unit :=
  {| Sleep := fun _ w => w;
     Open := fun _ w => (Err Unavailable, w);
     ExecuteCommand := fun _ _ w => (Some Unavailable, w) |}.

Definition node : NodeReconciler.St unit := MkSys (NodeReconciler.MkT ∅) tt [].
Definition pod : PodReconciler.St unit := MkSys (PodReconciler.MkT "node-1") tt [].

End Broken.

(** ** More vocabulary on the throttle controller *)

Module ThrottlePlan2.
Import PodReconciler ThrottlePlan.

(** The calls the throttle controller makes: reads of the cluster, the
    sleep of the polling loop, and reads and writes of the four throttle
    pseudo-files. *)
Definition throttleCall (c : Call) : Prop :=
  match c with
  | CallGetPod _ | CallListPod _ | CallListPersistentVolume (Some _) => True
  | CallSleep seconds => seconds = 30
  | CallOpen path | CallExecuteCommand _ _ path => path ∈ limitPaths
  | _ => False
  end.

(** A computation whose calls all satisfy [P] and whose value, when it
    returns one, satisfies [Q]. *)
Definition emitsWith {R W A} (P : Call -> Prop) (Q : A -> Prop)
    (m : M (Sys R W) A) : Prop :=
  ∀ s, ∃ t, trace (m s).2 = trace s ++ t ∧ Forall P t
            ∧ ∀ a, (m s).1 = Val a -> Q a.

(** An invariant of the loop-carried locals, on the way out of a loop
    body. *)
Definition nextWith {L Ret} (I : L -> Prop) (f : Flow L Ret) : Prop :=
  match f with
  | Next l => I l
  | Return _ => True
  end.

(** Every [cgroupblkio] of the slice is on one of the four pseudo-files. *)
Definition onLimitPaths (cb : list cgroupblkio) : Prop :=
  Forall (fun c => cpath c ∈ limitPaths) cb.

Definition isPvLookup (c : Call) : Prop :=
  match c with
  | CallListPersistentVolume (Some _) => True
  | _ => False
  end.

(** What [Reconcile] makes of the outcome of [SinglePodCGroupConfig]. *)
Definition resultOf (o : Outcome (option error))
    : Outcome (ctrl_Result * option error) :=
  match o with
  | Val err => Val (Result0, err)
  | Panic msg => Panic msg
  end.

(** The [cgroupblkio] slice [SinglePodCGroupConfig] starts from. *)
Definition freshLimits : list cgroupblkio :=
  (fun v => Mkcgroupblkio v (filepath_Join BlkIOCGroupPath v) ∅ ∅) <$> limitKinds.

(** The effect of the device keys resolved for one pod on one
    [cgroupblkio], in [SinglePodCGroupConfig]. *)
Definition filledSingle (pod : Pod) (keys : list string) (c : cgroupblkio)
    : cgroupblkio :=
  foldl (fun c k => fillSingle pod k c) c keys.

(** The value [SinglePodCGroupConfig] sets for a limit kind: the override
    of the pod, or [0]. *)
Definition desiredValue (pod : Pod) (kind : string) : string :=
  default "0" (pod_Annotations pod !! (KubernetesCustomized +:+ "/" +:+ kind)).

(** The two field indexes registered by [PodReconciler.SetupWithManager]:
    the values an object is indexed under. *)
Definition combinedIndex (object : Pod) : list string :=
  [pod_Spec_SchedulerName object +:+ "-" +:+ pod_Spec_NodeName object].

Definition pvIndex `{!utils.Constants} (pv : PersistentVolume) : list string :=
  match pv_Spec_CSI pv with
  | None => []
  | Some csi =>
      if bool_decide (csi_Driver csi ≠ utils.CSIPluginName) then []
      else
        match pv_Spec_ClaimRef pv with
        | None => []
        | Some ref => [] ++ [key_Namespace ref +:+ "-" +:+ key_Name ref]
        end
  end.

(** [blkioKey] of a PersistentVolume with CSI source [csi]. *)
Definition deviceKey `{!utils.Constants} (csi : CSIPersistentVolumeSource)
    : string :=
  default "" (csi_VolumeAttributes csi !! utils.VolumeDeviceMajor) +:+ ":"
  +:+ default "" (csi_VolumeAttributes csi !! utils.VolumeDeviceMinor).




End ThrottlePlan2.

(** ** More runs of the throttle controller *)

Module ThrottleScenario2.
Import Fake PodReconciler ThrottleScenario.

(** The pod is gone. *)
Definition gone : St Cluster := hostWith [] (filesWith []).

(** A pod of another scheduler on another node whose combined index is
    that of the local node. *)
Definition foreignPod : Pod :=
  MkPod "default" "foreign" ∅ None "scheduler-node-1" "carina"
    [MkVolume "data" (Some "data")] PodRunning.

(** The read-rate limit the override of [webPod] asks for is set
    already. *)
Definition current : St Cluster :=
  hostWith [webPod PodRunning] (filesWith ["8:16 104857600"]).

Definition afterFetch (s : St Cluster) : St Cluster := (r_GetPod webKey s).2.

Definition currentListed : St Cluster := (r_ListPod localIndex current).2.
Definition currentRead : St Cluster := (readCGroupBlkioFile currentListed).2.

Definition currentLimits : list cgroupblkio :=
  match (readCGroupBlkioFile currentListed).1 with
  | Val cb => cb
  | Panic _ => []
  end.

Definition currentResolved : St Cluster :=
  (ThrottlePlan.referencedDevices [webPod PodRunning] currentRead).2.

(** The read-rate and the write-rate entries of [currentLimits]. *)
Definition currentReadBps : cgroupblkio :=
  Mkcgroupblkio BlkIOThrottleReadBPS readBpsPath {["8:16" := "104857600"]} ∅.

Definition currentWriteBps : cgroupblkio :=
  Mkcgroupblkio BlkIOThrottleWriteBPS
    (filepath_Join BlkIOCGroupPath BlkIOThrottleWriteBPS) ∅ ∅.

Definition dataVolume : Volume := MkVolume "data" (Some "data").

(** [running] after the lookups of the volumes of the pod. *)
Definition runningResolved : St Cluster :=
  (ThrottlePlan.referencedDevices [webPod PodRunning] running).2.

(** [running] after the fetch of the pod and the lookups. *)
Definition fetchedResolved : St Cluster :=
  (ThrottlePlan.referencedDevices [webPod PodRunning] (afterFetch running)).2.


End ThrottleScenario2.

(** ** A cluster that loses the pod after the first fetch

    The first fetch of the pod answers a pod that is not running; the next
    [outage] fetches fail; later ones answer the pod again.  Every other
    call to the cluster fails. *)

Module Flaky.

Record World : Type := MkWorld {
  fetches : nat;
  outage : nat
}.

#[export] Instance World_eq_dec : EqDecision World.
Proof. solve_decision. Defined.

Definition Timeout : error := "context deadline exceeded".

Definition thePod : Pod := ThrottleScenario.webPod PodPending.

Definition getPod (w : World) : result Pod * World :=
  (if bool_decide (fetches w = 0%nat) || bool_decide (outage w < fetches w)%nat
   then Ok thePod else Err Timeout,
   MkWorld (S (fetches w)) (outage w)).

#[export] Instance client : Client World :=
  {| ListLogicVolume := fun w => (Err Timeout, w);
     ListNode := fun w => (Err Timeout, w);
     ListPersistentVolume := fun _ w => (Err Timeout, w);
     ListPod := fun _ w => (Err Timeout, w);
     DeleteLogicVolume := fun _ w => (Some Timeout, w);
     PatchLogicVolume := fun _ _ w => (Some Timeout, w);
     GetPersistentVolumeClaim := fun _ w => (Err Timeout, w);
     DeletePersistentVolumeClaim := fun _ w => (Some Timeout, w);
     CreatePersistentVolumeClaim := fun _ w => (Some Timeout, w);
     GetPod := fun _ w => getPod w;
     GetConfigMap := fun _ w => (Err Timeout, w);
     CreateConfigMap := fun _ w => (Some Timeout, w);
     UpdateConfigMap := fun _ w => (Some Timeout, w);
     IsNotFound := fun _ => false |}.

#[export] Instance host : Host World :=
  {| Sleep := fun _ w => w;
     Open := fun _ w => (Err Timeout, w);
     ExecuteCommand := fun _ _ w => (None, w) |}.

Definition during (n : nat) : PodReconciler.St World :=
  MkSys (PodReconciler.MkT "node-1") (MkWorld 0 n) [].

End Flaky.

(** ** More runs of the capacity aggregator *)

Module CapacityScenario2.
Import Fake PersistentVolumeReconciler CapacityScenario.

(** The second pass of [CapacityScenario]: the artifact exists, the cache
    is empty. *)
Definition second : St Cluster := reordered afterPass1.

Definition secondJson : string :=
  match json_Marshal (nodeDeviceOf (nodes (world second))) with
  | Ok byteJson => byteJson
  | Err _ => ""
  end.

(** The artifact as the first pass created it. *)
Definition stored : ConfigMap :=
  match (GetConfigMap storageConfigMapKey (world second)).1 with
  | Ok cm => cm
  | Err _ => MkConfigMap "" "" ∅
  end.

(** The third pass: the nodes are listed in the first order again. *)
Definition third : St Cluster := reordered afterPass2.

(** The record of [nodeA]. *)
Definition recordA : gmap string string :=
  <["nodeName" := "node-a"]>
    (<["allocatable.carina.storage.io/carina-vg-hdd" := "80"]>
       (<["capacity.carina.storage.io/carina-vg-hdd" := "100"]> ∅)).

(** A node without device quantities. *)
Definition nodeC : Node :=
  MkNode "node-c" None NodeRunning {[ "cpu" := 8 ]} {[ "cpu" := 8 ]}.

(** The snapshot of [nodeA] and [nodeB], and the same after [nodeA] lost
    capacity. *)
Definition snapshot : list (gmap string string) := nodeDeviceOf [nodeA; nodeB].

Definition shrunk : list (gmap string string) :=
  nodeDeviceOf
    [MkNode "node-a" None NodeRunning
       {[ "carina.storage.io/carina-vg-hdd" := 100 ]}
       {[ "carina.storage.io/carina-vg-hdd" := 60 ]};
     nodeB].

End CapacityScenario2.

(** * Properties *)

(** ** Runs and their calls *)

Lemma newCalls_app {R W} (s s' : Sys R W) (t : list Call) :
  trace s' = trace s ++ t -> newCalls s s' = t.
Proof. intros E. unfold newCalls. rewrite E. apply drop_app_length. Qed.

Lemma occurrences_app (c : Call) (t1 t2 : list Call) :
  occurrences c (t1 ++ t2) = (occurrences c t1 + occurrences c t2)%nat.
Proof. unfold occurrences. by rewrite filter_app, length_app. Qed.

Lemma occurrences_zero (c : Call) (t : list Call) :
  c ∉ t -> occurrences c t = 0%nat.
Proof.
  intros Hn. unfold occurrences.
  induction t as [|x t IH]; [done|].
  rewrite filter_cons. destruct (decide (x = c)) as [->|Hne].
  - exfalso. apply Hn. left.
  - apply IH. intros Hin. apply Hn. by right.
Qed.


(** ** Volume rebuild: the loop over the LogicVolumes *)

Section NodeProofs.
Import NodeReconciler NodePlan.
Context {W : Type} `{!Client W} `{!Host W} `{!utils.Constants} `{!MapRange}.

(** One iteration: it never panics, leaves the private fields alone, makes
    a prefix of the planned calls (all of them unless a call fails) and
    records the volume exactly when it is a candidate. *)
Lemma lvBody_spec ns pvs lv m (s : St W) :
  ∃ out s' t,
    lvBody ns pvs lv m s = (Val out, s')
    ∧ self s' = self s
    ∧ trace s' = trace s ++ t
    ∧ t `prefix_of` lvCalls ns pvs (cacheNoDeleteLv (self s)) lv
    ∧ match out with
      | Next m' => t = lvCalls ns pvs (cacheNoDeleteLv (self s)) lv
                   ∧ m' = record ns pvs (cacheNoDeleteLv (self s)) m lv
      | Return (m', err) => is_Some err
                   ∧ m' = record ns pvs (cacheNoDeleteLv (self s)) m lv
      end.
Proof.
  unfold lvBody, lvCalls, record, candidate, owned, orphaned, settled.
  destruct (bool_decide (0 < length (lv_OwnerReferences lv))%nat) eqn:Ho; simpl.
  { eexists _, _, []. rewrite app_nil_r. repeat split; try done. }
  destruct (bool_decide (lv_Status_Status lv ≠ "")
            && negb (bool_decide (is_Some (pvs !! lv_Name lv)))) eqn:Hor; simpl.
  { destruct (hasFinalizer lv) eqn:Hf.
    - unfold bind, r_DeleteLogicVolume, r_PatchLogicVolume, call, ret; simpl.
      destruct (DeleteLogicVolume lv (world s)) as [[e|] w1] eqn:Hd; simpl.
      + eexists _, _, [_]. repeat split; eauto. by eexists [_].
      + destruct (PatchLogicVolume (stripFinalizer lv) lv w1)
          as [[e|] w2] eqn:Hp; simpl.
        * eexists _, _, [_; _]. rewrite <- app_assoc. repeat split; eauto.
        * eexists _, _, [_; _]. rewrite <- app_assoc. repeat split; eauto.
    - eexists _, _, []. rewrite app_nil_r. repeat split; try done. }
  unfold bind, gets, ret; simpl.
  destruct (bool_decide (lv_Status_Status lv = "Success") && _) eqn:Hs; simpl.
  { eexists _, _, []. rewrite app_nil_r. repeat split; try done. }
  destruct (hasFinalizer lv) eqn:Hf.
  - unfold bind, r_PatchLogicVolume, call, ret; simpl.
    destruct (PatchLogicVolume (stripFinalizer lv) lv (world s))
      as [[e|] w2] eqn:Hp; simpl.
    * eexists _, _, [_]. repeat split; eauto.
    * eexists _, _, [_]. repeat split; eauto.
  - eexists _, _, []. rewrite app_nil_r. repeat split; try done.
Qed.

(** The whole loop, by induction on the list of LogicVolumes. *)
Lemma lvLoop_spec ns pvs lvList m (s : St W) :
  ∃ out s' t done,
    forRange (lvBody ns pvs) lvList m s = (Val out, s')
    ∧ self s' = self s
    ∧ trace s' = trace s ++ t
    ∧ t `prefix_of` allLvCalls ns pvs (cacheNoDeleteLv (self s)) lvList
    ∧ done `prefix_of` lvList
    ∧ match out with
      | Next m' => t = allLvCalls ns pvs (cacheNoDeleteLv (self s)) lvList
                   ∧ done = lvList
                   ∧ m' = foldl (record ns pvs (cacheNoDeleteLv (self s))) m done
      | Return (m', err) => is_Some err
                   ∧ m' = foldl (record ns pvs (cacheNoDeleteLv (self s))) m done
      end.
Proof.
  revert m s. induction lvList as [|lv rest IH]; intros m s.
  { exists (Next m), s, [], []. simpl. rewrite app_nil_r. repeat split; done. }
  destruct (lvBody_spec ns pvs lv m s) as (out & s1 & t1 & E1 & Hself1 & Ht1 & Hp1 & Hout).
  cbn [forRange]. unfold bind at 1. rewrite E1.
  destruct out as [m1|[m1 err]].
  - destruct Hout as [-> ->].
    destruct (IH (record ns pvs (cacheNoDeleteLv (self s)) m lv) s1)
      as (out & s2 & t2 & done & E2 & Hself2 & Ht2 & Hp2 & Hd2 & Hout2).
    rewrite Hself1 in *.
    exists out, s2, (lvCalls ns pvs (cacheNoDeleteLv (self s)) lv ++ t2), (lv :: done).
    rewrite E2, Hself2, Ht2, Ht1, <- app_assoc.
    repeat split; try done.
    + unfold allLvCalls. cbn [fmap list_fmap concat]. by apply prefix_app.
    + by apply prefix_cons.
    + destruct out as [m2|[m2 err2]].
      * destruct Hout2 as (-> & -> & ->). done.
      * destruct Hout2 as (? & ->). done.
  - destruct Hout as [Herr ->].
    exists (Return (record ns pvs (cacheNoDeleteLv (self s)) m lv, err)), s1, t1, [lv].
    unfold ret. repeat split; try done.
    + unfold allLvCalls. cbn [fmap list_fmap concat].
      destruct Hp1 as [k ->]. rewrite <- app_assoc. by eexists.
    + apply prefix_cons, prefix_nil.
Qed.


Lemma lvCalls_elem ns pvs cache lv c :
  c ∈ lvCalls ns pvs cache lv ->
  owned lv = false ∧ hasFinalizer lv = true
  ∧ (c = CallDeleteLogicVolume lv ∧ orphaned pvs lv = true
     ∨ c = CallPatchLogicVolume (stripFinalizer lv) lv).
Proof.
  unfold lvCalls. intros Hin.
  destruct (owned lv); [by apply elem_of_nil in Hin|].
  destruct (orphaned pvs lv).
  - destruct (hasFinalizer lv); [|by apply elem_of_nil in Hin].
    rewrite !elem_of_cons, elem_of_nil in Hin.
    destruct Hin as [->|[->|[]]]; auto.
  - destruct (settled ns cache lv); [by apply elem_of_nil in Hin|].
    destruct (hasFinalizer lv); [|by apply elem_of_nil in Hin].
    rewrite !elem_of_cons, elem_of_nil in Hin.
    destruct Hin as [->|[]]; auto.
Qed.

Lemma allLvCalls_elem ns pvs cache lvList c :
  c ∈ allLvCalls ns pvs cache lvList ->
  ∃ lv, lv ∈ lvList ∧ c ∈ lvCalls ns pvs cache lv.
Proof.
  unfold allLvCalls. induction lvList as [|lv rest IH]; cbn [fmap list_fmap concat].
  - by intros ?%elem_of_nil.
  - intros [Hin|Hin]%elem_of_app.
    + exists lv. split; [left|done].
    + destruct (IH Hin) as (lv' & ? & ?). exists lv'. split; [by right|done].
Qed.

Lemma allLvCalls_block ns pvs cache lvList lv :
  lv ∈ lvList ->
  ∃ t1 t2, allLvCalls ns pvs cache lvList = t1 ++ lvCalls ns pvs cache lv ++ t2.
Proof.
  unfold allLvCalls. induction lvList as [|x rest IH]; cbn [fmap list_fmap concat].
  - by intros ?%elem_of_nil.
  - intros [->|Hin]%elem_of_cons.
    + by exists [], (concat (lvCalls ns pvs cache <$> rest)).
    + destruct (IH Hin) as (t1 & t2 & ->).
      exists (lvCalls ns pvs cache x ++ t1), t2. by rewrite <- app_assoc.
Qed.

(** Where the entries of [volumeObjectMap] come from. *)
Lemma record_fold_lookup ns pvs cache done m name key :
  foldl (record ns pvs cache) m done !! name = Some key ->
  m !! name = Some key
  ∨ ∃ lv, lv ∈ done ∧ candidate ns pvs cache lv = true
          ∧ lv_Name lv = name ∧ candidateKey lv = key.
Proof.
  revert m. induction done as [|lv rest IH]; intros m; cbn [foldl]; [by left|].
  intros [Hm|(lv' & ? & ? & ? & ?)]%IH.
  - unfold record in Hm. destruct (candidate ns pvs cache lv) eqn:Hc; [|by left].
    destruct (decide (lv_Name lv = name)) as [<-|Hne].
    + rewrite lookup_insert_eq in Hm. injection Hm as <-.
      right. exists lv. repeat split; [left|done].
    + rewrite lookup_insert_ne in Hm by done. by left.
  - right. exists lv'. repeat split; [by right|done..].
Qed.

Lemma pvNames_lookup items n :
  is_Some (pvNames items !! n) <-> n ∈ pv_Name <$> items.
Proof.
  unfold pvNames.
  assert (∀ m : gmap string Z, is_Some (foldl (fun result pv => <[pv_Name pv := 0]> result) m items !! n)
               <-> is_Some (m !! n) ∨ n ∈ pv_Name <$> items) as G.
  { induction items as [|pv rest IH]; intros m; cbn [foldl fmap list_fmap].
    - split; [by left|]. intros [?|?%elem_of_nil]; done.
    - rewrite IH, elem_of_cons. destruct (decide (pv_Name pv = n)) as [->|Hne].
      + rewrite lookup_insert_eq. split; [intros _; right; by left|eauto].
      + rewrite lookup_insert_ne by done.
        split; [tauto|]. intros [?|[?|?]]; [tauto|congruence|tauto]. }
  rewrite G, lookup_empty. split; [intros [[? ?]|?]; done|by right].
Qed.

(** [getNeedRebuildVolume] as a whole: after the list calls it makes a
    prefix of the planned calls, the whole plan when it returns no error. *)
Lemma getNeedRebuildVolume_spec (s : St W) lvList w1 :
  ListLogicVolume (world s) = (Ok lvList, w1) ->
  ∃ m err s' hdr t done ns pvs,
    getNeedRebuildVolume s = (Val (m, err), s')
    ∧ self s' = self s
    ∧ trace s' = trace s ++ hdr ++ t
    ∧ Forall isListCall hdr
    ∧ t `prefix_of` allLvCalls ns pvs (cacheNoDeleteLv (self s)) lvList
    ∧ done `prefix_of` lvList
    ∧ m = foldl (record ns pvs (cacheNoDeleteLv (self s))) ∅ done
    ∧ (err = None ->
       t = allLvCalls ns pvs (cacheNoDeleteLv (self s)) lvList ∧ done = lvList)
    ∧ (∀ nl w2 pvl w3,
         lvList ≠ [] ->
         ListNode w1 = (Ok nl, w2) ->
         ListPersistentVolume None w2 = (Ok pvl, w3) ->
         ns = nodeStatusOf nl ∧ pvs = pvNames pvl
         ∧ hdr = [CallListLogicVolume; CallListNode; CallListPersistentVolume None]).
Proof.
  intros HL. unfold getNeedRebuildVolume, r_ListLogicVolume, bind at 1, call at 1.
  rewrite HL. cbn beta iota.
  destruct lvList as [|lv0 rest].
  { rewrite bool_decide_eq_true_2 by done.
    exists ∅, None, (MkSys (self s) w1 (trace s ++ [CallListLogicVolume])),
      [CallListLogicVolume], [], [], ∅, ∅.
    cbn. split_and!; try done.
    repeat constructor. }
  set (lvList := lv0 :: rest) in *.
  rewrite bool_decide_eq_false_2 by done.
  cbn beta iota. unfold r_ListNode, bind at 1, call at 1. cbn [world self trace].
  destruct (ListNode w1) as [[nl|e] w2] eqn:HN; cbn beta iota.
  2:{ exists ∅, (Some e), (MkSys (self s) w2 ((trace s ++ [CallListLogicVolume]) ++ [CallListNode])),
        [CallListLogicVolume; CallListNode], [], [], ∅, ∅.
      unfold ret. cbn. rewrite <- app_assoc.
      split_and!; try done; try apply prefix_nil;
        try (repeat constructor; done); intros; congruence. }
  unfold pvMap, r_ListPersistentVolume, bind at 1, bind at 1, call at 1.
  cbn [world self trace].
  destruct (ListPersistentVolume None w2) as [[pvl|e] w3] eqn:HP; cbn beta iota.
  2:{ eexists ∅, (Some e), _,
        [CallListLogicVolume; CallListNode; CallListPersistentVolume None], [], [], ∅, ∅.
      unfold ret. cbn. rewrite <- !app_assoc.
      split_and!; try done; try apply prefix_nil;
        try (repeat constructor; done); intros; congruence. }
  unfold ret at 1. cbn beta iota.
  set (s3 := MkSys (self s) w3 _).
  destruct (lvLoop_spec (nodeStatusOf nl) (pvNames pvl) lvList ∅ s3)
    as (out & s4 & t & done & E & Hself & Ht & Hp & Hd & Hout).
  fold (pvNames pvl). unfold bind. rewrite E.
  assert (Hhdr : Forall isListCall
            [CallListLogicVolume; CallListNode; CallListPersistentVolume None])
    by repeat constructor.
  destruct out as [m'|[m' err]].
  - destruct Hout as (-> & -> & ->).
    eexists _, None, s4, _, _, lvList, (nodeStatusOf nl), (pvNames pvl).
    unfold ret. split_and!; try done.
    + rewrite Ht. subst s3. cbn [trace]. by rewrite <- !app_assoc.
    + intros nl' w2' pvl' w3' _ [= <- <-]; rewrite HP; intros [= <- <-]. done.
  - destruct Hout as ([e He] & ->). subst err.
    eexists _, (Some e), s4, _, t, done, (nodeStatusOf nl), (pvNames pvl).
    unfold ret. split_and!; try done.
    + rewrite Ht. subst s3. cbn [trace]. by rewrite <- !app_assoc.
    + intros nl' w2' pvl' w3' _ [= <- <-]; rewrite HP; intros [= <- <-]. done.
Qed.

End NodeProofs.

(** ** Volume rebuild: the loop over the candidates *)

Section RebuildProofs.
Import NodeReconciler NodePlan.
Context {W : Type} `{!Client W} `{!Host W} `{!utils.Constants} `{!MapRange}.

Lemma retryCalls_claim pvc n :
  Forall (claimCallFor (MkObjectKey (pvc_Namespace pvc) (pvc_Name pvc)))
         (retryCalls pvc 10 n).
Proof.
  induction n as [|n IH]; [constructor|].
  cbn [retryCalls]. constructor.
  - split; [done|]. by intros o' [= <-].
  - destruct n; [constructor|]. constructor; [|done].
    split; [done|]. by intros o' [=].
Qed.


(** The bounded retry around the create call. *)
Lemma create_retry_spec pvc n (s : St W) :
  ∃ err s' t,
    utils.UntilMaxRetry (r_CreatePersistentVolumeClaim pvc) n 10 s = (Val err, s')
    ∧ self s' = self s
    ∧ trace s' = trace s ++ t
    ∧ t `prefix_of` retryCalls pvc 10 n
    ∧ (is_Some err -> t = retryCalls pvc 10 n).
Proof.
  revert s. induction n as [|n IH]; intros s.
  { exists None, s, []. cbn. rewrite app_nil_r. split_and!; try done. }
  cbn [utils.UntilMaxRetry retryCalls].
  unfold bind at 1, r_CreatePersistentVolumeClaim at 1, call at 1.
  destruct (CreatePersistentVolumeClaim pvc (world s)) as [[e|] w1] eqn:HC.
  2:{ eexists None, _, [_]. unfold ret. split_and!; try done.
      apply prefix_cons, prefix_nil. }
  destruct n as [|n].
  { eexists (Some e), _, [_]. unfold ret. split_and!; done. }
  unfold bind at 1, time_Sleep at 1, call at 1. cbn [world self trace].
  set (s2 := MkSys _ _ _).
  destruct (IH s2) as (err & s3 & t & E & Hself & Ht & Hp & Hfull).
  exists err, s3,
    (CallCreatePersistentVolumeClaim pvc :: CallSleep 10 :: t).
  rewrite E. split_and!; try done.
  - rewrite Ht. subst s2. cbn [trace]. by rewrite <- !app_assoc.
  - by apply prefix_cons, prefix_cons.
  - intros He. by rewrite (Hfull He).
Qed.

(** One iteration of the loop of [rebuildVolume]. *)
Lemma rebuildBody_spec key o (s : St W) :
  ∃ out s' t,
    rebuildBody (key, o) tt s = (out, s')
    ∧ trace s' = trace s ++ t
    ∧ match (GetPersistentVolumeClaim o (world s)).1 with
      | Err _ =>
          out = Val (Next tt)
          ∧ t = [CallGetPersistentVolumeClaim o]
          ∧ cacheNoDeleteLv (self s') = <[key := 0]> (cacheNoDeleteLv (self s))
      | Ok pvc =>
          let newPvc := newPvcOf o pvc in
          self s' = self s
          ∧ ∃ t', t = CallGetPersistentVolumeClaim o
                      :: CallDeletePersistentVolumeClaim newPvc :: t'
                  ∧ t' `prefix_of` retryCalls newPvc 10 12
                  ∧ match out with
                    | Val (Next _) => True
                    | Val (Return err) =>
                        is_Some err ∧ t' = retryCalls newPvc 10 12
                    | Panic _ => t' = retryCalls newPvc 10 12
                    end
      end.
Proof.
  unfold rebuildBody, bind at 1, r_GetPersistentVolumeClaim at 1, call at 1.
  destruct (GetPersistentVolumeClaim o (world s)) as [[pvc|e] w1] eqn:HG;
    cbn [fst].
  2:{ eexists _, _, [_]. unfold bind, modify, ret. cbn.
      split_and!; done. }
  unfold bind at 1, r_DeletePersistentVolumeClaim at 1, call at 1.
  cbn [world self trace].
  destruct (DeletePersistentVolumeClaim (newPvcOf o pvc) w1) as [derr w2] eqn:HD.
  set (s2 := MkSys _ _ _).
  destruct (create_retry_spec (newPvcOf o pvc) 12 s2)
    as (err & s3 & t & E & Hself & Ht & Hp & Hfull).
  unfold bind. rewrite E.
  assert (Htr : trace s3 = trace s ++ CallGetPersistentVolumeClaim o
                 :: CallDeletePersistentVolumeClaim (newPvcOf o pvc) :: t).
  { rewrite Ht. subst s2. cbn [trace]. by rewrite <- !app_assoc. }
  destruct err as [e|].
  - destruct (pvcs_StorageClassName (pvc_Spec (newPvcOf o pvc))),
             (pvcs_VolumeMode (pvc_Spec (newPvcOf o pvc)));
      unfold ret, panic; eexists _, s3, _; (split; [reflexivity|]);
      (split; [exact Htr|]); (split; [done|]); exists t;
      (split; [done|]); (split; [done|]); try split; eauto.
  - unfold ret. eexists _, s3, _. split; [reflexivity|]. split; [exact Htr|].
    split; [done|]. exists t. done.
Qed.

Lemma newPvcOf_claim o pvc :
  MkObjectKey (pvc_Namespace (newPvcOf o pvc)) (pvc_Name (newPvcOf o pvc)) = o.
Proof. by destruct o. Qed.

Lemma rebuildBody_calls key o (s : St W) :
  ∃ t, trace (rebuildBody (key, o) tt s).2 = trace s ++ t
       ∧ Forall (claimCallFor o) t.
Proof.
  destruct (rebuildBody_spec key o s) as (out & s' & t & E & Ht & Hcase).
  exists t. rewrite E. split; [done|].
  destruct (GetPersistentVolumeClaim o (world s)).1 as [pvc|e].
  - destruct Hcase as (_ & t' & -> & [k Hk] & _).
    constructor; [split; [done|]; by intros ? [= <-]|].
    constructor; [split; [done|]; intros ? [= <-]; by destruct o|].
    pose proof (retryCalls_claim (newPvcOf o pvc) 12) as HF.
    rewrite Hk, newPvcOf_claim in HF. by apply Forall_app in HF as [? _].
  - destruct Hcase as (_ & -> & _).
    constructor; [|constructor]. split; [done|]. by intros ? [= <-].
Qed.

Lemma rebuildLoop_calls items (s : St W) :
  ∃ t, trace (forRange rebuildBody items tt s).2 = trace s ++ t
       ∧ Forall (fun c => ∃ o, o ∈ items.*2 ∧ claimCallFor o c) t.
Proof.
  revert s. induction items as [|[key o] rest IH]; intros s.
  { exists []. cbn. by rewrite app_nil_r. }
  destruct (rebuildBody_calls key o s) as (t1 & Ht1 & HF1).
  assert (HF1' : Forall (fun c => ∃ o', o' ∈ ((key, o) :: rest).*2 ∧ claimCallFor o' c) t1).
  { eapply Forall_impl; [exact HF1|]. intros c Hc. exists o. split; [left|done]. }
  cbn [forRange]. unfold bind at 1.
  destruct (rebuildBody (key, o) tt s) as [[[[]|r]|msg] s1] eqn:E; cbn [snd] in Ht1.
  - destruct (IH s1) as (t2 & Ht2 & HF2).
    exists (t1 ++ t2). rewrite Ht2, Ht1, <- app_assoc. split; [done|].
    apply Forall_app. split; [done|].
    eapply Forall_impl; [exact HF2|]. intros c (o' & ? & ?).
    exists o'. split; [by right|done].
  - exists t1. by unfold ret.
  - by exists t1.
Qed.


End RebuildProofs.

(** ** Volume rebuild: the claims *)

Section NodeClaims.
Import NodeReconciler NodePlan.
Context {W : Type} `{!Client W} `{!Host W} `{!utils.Constants} `{!MapRange}.

Lemma owned_false lv : owned lv = false <-> lv_OwnerReferences lv = [].
Proof.
  unfold owned. destruct (lv_OwnerReferences lv) as [|x l]; cbn [length].
  - by rewrite bool_decide_eq_false_2 by lia.
  - by rewrite bool_decide_eq_true_2 by lia.
Qed.

Lemma candidate_unowned ns pvs cache lv :
  candidate ns pvs cache lv = true -> lv_OwnerReferences lv = [].
Proof.
  unfold candidate. intros Hc. apply owned_false.
  destruct (owned lv); [done|done].
Qed.

Lemma names_unique (lvList : list LogicVolume) a b :
  NoDup (lv_Name <$> lvList) -> a ∈ lvList -> b ∈ lvList ->
  lv_Name a = lv_Name b -> a = b.
Proof.
  induction lvList as [|x l IH]; cbn [fmap list_fmap]; [by intros _ ?%elem_of_nil|].
  intros [Hx Hl]%NoDup_cons [->|Ha]%elem_of_cons [->|Hb]%elem_of_cons Hn; auto.
  - exfalso. apply Hx. rewrite Hn. by apply list_elem_of_fmap_2.
  - exfalso. apply Hx. rewrite <- Hn. by apply list_elem_of_fmap_2.
Qed.

Lemma range_map_elem {V} (m : gmap string V) k v :
  (k, v) ∈ range_map m <-> m !! k = Some v.
Proof. by rewrite (range_map_perm V m), elem_of_map_to_list. Qed.

Lemma range_map_NoDup {V} (m : gmap string V) : NoDup (range_map m).*1.
Proof. rewrite (range_map_perm V m). apply NoDup_fst_map_to_list. Qed.

Lemma rebuildVolume_state m (s : St W) :
  (rebuildVolume m s).2 = (forRange rebuildBody (range_map m) tt s).2.
Proof.
  unfold rebuildVolume, bind, ret.
  by destruct (forRange rebuildBody (range_map m) tt s) as [[[?|?]|?] ?].
Qed.

(** The state a pass ends in: that of [getNeedRebuildVolume] when it
    returns an error, else that of the loop over its candidates. *)
Lemma resourceReconcile_state (s : St W) m err s1 :
  getNeedRebuildVolume s = (Val (m, err), s1) ->
  (resourceReconcile s).2
  = match err with
    | Some _ => s1
    | None => (forRange rebuildBody (range_map m) tt s1).2
    end.
Proof.
  intros E. unfold resourceReconcile, bind at 1. rewrite E.
  destruct err as [e|]; [done|].
  rewrite <- rebuildVolume_state. unfold bind, ret.
  by destruct (rebuildVolume m s1) as [[[?|]|?] ?].
Qed.

(** C1, as the code has it.  A LogicVolume with owner references is left
    alone by a full pass over a list of LogicVolumes with pairwise distinct
    names (the name is the key of the resource): it is not recorded as a
    rebuild candidate, and no delete and no patch of the pass carries its
    name.  Every claim that the pass fetches, deletes or creates is the
    claim of a listed LogicVolume without owner references: the claim of
    the owned volume is touched only when such a volume names the same
    claim, and never when none does. *)
Theorem owned_logic_volume_untouched (s : St W) lvList w1 lv :
  ListLogicVolume (world s) = (Ok lvList, w1) ->
  NoDup (lv_Name <$> lvList) ->
  lv ∈ lvList ->
  lv_OwnerReferences lv ≠ [] ->
  (∃ m err s1, getNeedRebuildVolume s = (Val (m, err), s1)
               ∧ m !! lv_Name lv = None)
  ∧ (∀ c, c ∈ newCalls s (resourceReconcile s).2 ->
       lv_Name lv ∉ NodePlan2.logicVolumeNames c)
  ∧ (∀ c o, c ∈ newCalls s (resourceReconcile s).2 ->
       claimOf c = Some o ->
       ∃ lv', lv' ∈ lvList ∧ lv_OwnerReferences lv' = []
              ∧ lv_Name lv' ≠ lv_Name lv ∧ candidateKey lv' = o)
  ∧ ((∀ lv', lv' ∈ lvList -> lv_OwnerReferences lv' = [] ->
        candidateKey lv' ≠ candidateKey lv) ->
     ∀ c, c ∈ newCalls s (resourceReconcile s).2 ->
       claimOf c ≠ Some (candidateKey lv)).
Proof.
  intros HL Hnd Hin Hown.
  destruct (getNeedRebuildVolume_spec s lvList w1 HL)
    as (m & err & s1 & hdr & t & done & ns & pvs
        & E & Hself & Ht & Hhdr & Hp & Hdone & Hm & _ & _).
  assert (Hprov : ∀ name o, m !! name = Some o ->
            ∃ lv', lv' ∈ lvList ∧ lv_OwnerReferences lv' = []
                   ∧ lv_Name lv' = name ∧ candidateKey lv' = o).
  { intros name o Hlk. rewrite Hm in Hlk.
    apply record_fold_lookup in Hlk as [Hlk|(lv' & Hin' & Hc & Hn & Hk)].
    - by rewrite lookup_empty in Hlk.
    - exists lv'. split_and!; try done.
      + destruct Hdone as [k ->]. apply elem_of_app. by left.
      + by apply candidate_unowned in Hc. }
  assert (Hother : ∀ lv', lv' ∈ lvList -> lv_OwnerReferences lv' = [] ->
            lv_Name lv' ≠ lv_Name lv).
  { intros lv' Hin' Hun Hn. apply Hown.
    by rewrite <- (names_unique lvList lv' lv Hnd Hin' Hin Hn). }
  assert (Hlvcalls : ∀ c, c ∈ hdr ++ t ->
            (lv_Name lv ∉ NodePlan2.logicVolumeNames c) ∧ claimOf c = None).
  { intros c [Hc|Hc]%elem_of_app.
    - rewrite Forall_forall in Hhdr. specialize (Hhdr c Hc).
      destruct c; try done; split; try done; apply not_elem_of_nil.
    - destruct Hp as [k Hk].
      assert (Hc' : c ∈ allLvCalls ns pvs (cacheNoDeleteLv (self s)) lvList)
        by (rewrite Hk; apply elem_of_app; by left).
      apply allLvCalls_elem in Hc' as (lv' & Hin' & Hc').
      apply lvCalls_elem in Hc' as (Ho & _ & Hc').
      apply owned_false in Ho. pose proof (Hother lv' Hin' Ho) as Hne.
      destruct Hc' as [[-> _]| ->]; cbn; (split; [|done]);
        rewrite ?elem_of_cons, elem_of_nil; intros Hx;
        decompose [or] Hx; congruence. }
  assert (Hcalls : ∀ c, c ∈ newCalls s (resourceReconcile s).2 ->
            (lv_Name lv ∉ NodePlan2.logicVolumeNames c)
            ∧ ∀ o, claimOf c = Some o ->
                ∃ lv', lv' ∈ lvList ∧ lv_OwnerReferences lv' = []
                       ∧ lv_Name lv' ≠ lv_Name lv ∧ candidateKey lv' = o).
  { intros c Hc.
    rewrite (resourceReconcile_state s m err s1 E) in Hc.
    destruct err as [e|].
    { rewrite (newCalls_app s s1 _ Ht) in Hc.
      destruct (Hlvcalls c Hc) as [? Hno]. split; [done|].
      intros o Ho. by rewrite Hno in Ho. }
    destruct (rebuildLoop_calls (range_map m) s1) as (t2 & Ht2 & HF2).
    rewrite Ht, <- app_assoc in Ht2.
    rewrite (newCalls_app s _ _ Ht2) in Hc.
    apply elem_of_app in Hc as [Hc|Hc].
    { destruct (Hlvcalls c Hc) as [? Hno]. split; [done|].
      intros o Ho. by rewrite Hno in Ho. }
    rewrite Forall_forall in HF2.
    destruct (HF2 c Hc) as (o & Ho & Hnone & Hclaim).
    split.
    { destruct c; try done; apply not_elem_of_nil. }
    intros o' Ho'. rewrite (Hclaim o' Ho').
    apply list_elem_of_fmap in Ho as ([key o2] & -> & Hkv).
    apply range_map_elem in Hkv.
    destruct (Hprov _ _ Hkv) as (lv' & Hin' & Hun & Hn & Hk).
    exists lv'. split_and!; try done. rewrite Hn.
    intros Heq. rewrite <- Hn in Heq. by destruct (Hother lv' Hin' Hun). }
  split_and!.
  - exists m, err, s1. split; [done|].
    destruct (m !! lv_Name lv) as [o|] eqn:Hlk; [|done].
    destruct (Hprov _ _ Hlk) as (lv' & Hin' & Hun & Hn & _).
    by destruct (Hother lv' Hin' Hun).
  - intros c Hc. by destruct (Hcalls c Hc).
  - intros c o Hc Ho. destruct (Hcalls c Hc) as [_ H']. by apply H'.
  - intros Hfree c Hc Ho. destruct (Hcalls c Hc) as [_ H'].
    destruct (H' _ Ho) as (lv' & Hin' & Hun & _ & Hk).
    by apply (Hfree lv' Hin' Hun).
Qed.


Lemma resourceReconcile_list_error (s : St W) e w1 :
  ListLogicVolume (world s) = (Err e, w1) ->
  resourceReconcile s
  = (Val (Some e), MkSys (self s) w1 (trace s ++ [CallListLogicVolume])).
Proof.
  intros HL.
  unfold resourceReconcile, getNeedRebuildVolume, r_ListLogicVolume, bind, call.
  by rewrite HL.
Qed.

(** Every patch of a pass is made for a listed LogicVolume, from that
    volume to its copy without the rebuild finalizer. *)
Lemma patch_calls_of_pass (s : St W) obj base :
  CallPatchLogicVolume obj base ∈ newCalls s (resourceReconcile s).2 ->
  obj = stripFinalizer base ∧ hasFinalizer base = true.
Proof.
  destruct (ListLogicVolume (world s)) as [[lvList|e] w1] eqn:HL.
  2:{ rewrite (resourceReconcile_list_error s e w1 HL). cbn [snd].
      erewrite newCalls_app by reflexivity.
      rewrite !elem_of_cons, elem_of_nil. by intros [?|[]]. }
  destruct (getNeedRebuildVolume_spec s lvList w1 HL)
    as (m & err & s1 & hdr & t & done & ns & pvs
        & E & Hself & Ht & Hhdr & Hp & Hdone & Hm & _ & _).
  rewrite (resourceReconcile_state s m err s1 E).
  assert (Hlv : CallPatchLogicVolume obj base ∈ hdr ++ t ->
            obj = stripFinalizer base ∧ hasFinalizer base = true).
  { intros [Hc|Hc]%elem_of_app.
    - rewrite Forall_forall in Hhdr. by destruct (Hhdr _ Hc).
    - destruct Hp as [k Hk].
      assert (Hc' : CallPatchLogicVolume obj base
                      ∈ allLvCalls ns pvs (cacheNoDeleteLv (self s)) lvList)
        by (rewrite Hk; apply elem_of_app; by left).
      apply allLvCalls_elem in Hc' as (lv' & Hin' & Hc').
      apply lvCalls_elem in Hc' as (_ & Hf & [[[=] _]|[= -> ->]]). done. }
  destruct err as [e|].
  { by rewrite (newCalls_app s s1 _ Ht). }
  destruct (rebuildLoop_calls (range_map m) s1) as (t2 & Ht2 & HF2).
  rewrite Ht, <- app_assoc in Ht2.
  rewrite (newCalls_app s _ _ Ht2).
  intros [Hc|Hc]%elem_of_app; [by apply Hlv|].
  rewrite Forall_forall in HF2.
  by destruct (HF2 _ Hc) as (o & _ & [=] & _).
Qed.

(** C9.  A patch issued by a pass differs from the object it is computed
    against in the finalizers only, and there only by the rebuild finalizer:
    the other tokens stay, in their order. *)
Theorem patch_removes_only_rebuild_finalizer (s : St W) obj base :
  CallPatchLogicVolume obj base ∈ newCalls s (resourceReconcile s).2 ->
  obj = lv_set_Finalizers base (lv_Finalizers obj)
  ∧ (lv_Finalizers obj
     = filter (fun f => f ≠ utils.LogicVolumeFinalizer) (lv_Finalizers base))
  ∧ utils.LogicVolumeFinalizer ∈ lv_Finalizers base
  ∧ (utils.LogicVolumeFinalizer ∉ lv_Finalizers obj)
  ∧ (∀ f, f ≠ utils.LogicVolumeFinalizer ->
          (f ∈ lv_Finalizers obj <-> f ∈ lv_Finalizers base)).
Proof.
  intros [-> Hf]%patch_calls_of_pass.
  unfold stripFinalizer, utils.SliceRemoveString. cbn [lv_Finalizers lv_set_Finalizers].
  split_and!; try done.
  - unfold hasFinalizer, utils.ContainsString in Hf. by apply bool_decide_eq_true in Hf.
  - rewrite list_elem_of_filter. by intros [? _].
  - intros f Hne. rewrite list_elem_of_filter. tauto.
Qed.














End NodeClaims.

(** ** Volume rebuild: the claims on a concrete cluster *)

Section RebuildRuns.
Import Fake NodeReconciler NodePlan RebuildScenario.

Lemma owned_logic_volume_untouched_witness :
  ListLogicVolume (world start) = (Ok (lvs cluster), cluster)
  ∧ NoDup (lv_Name <$> lvs cluster)
  ∧ lvOwned ∈ lvs cluster
  ∧ lv_OwnerReferences lvOwned ≠ []
  ∧ (∀ lv', lv' ∈ lvs cluster -> lv_OwnerReferences lv' = [] ->
       candidateKey lv' ≠ candidateKey lvOwned)
  ∧ (∃ m err s1, getNeedRebuildVolume start = (Val (m, err), s1)
                 ∧ m !! lv_Name lvOwned = None)
  ∧ (∀ c, c ∈ newCalls start (resourceReconcile start).2 ->
       lv_Name lvOwned ∉ NodePlan2.logicVolumeNames c)
  ∧ (∀ c, c ∈ newCalls start (resourceReconcile start).2 ->
       claimOf c ≠ Some (candidateKey lvOwned)).
Proof.
  assert (H1 : ListLogicVolume (world start) = (Ok (lvs cluster), cluster))
    by reflexivity.
  assert (H2 : NoDup (lv_Name <$> lvs cluster))
    by compute_done.
  assert (H3 : lvOwned ∈ lvs cluster)
    by compute_done.
  assert (H4 : lv_OwnerReferences lvOwned ≠ []) by discriminate.
  assert (H5 : ∀ lv', lv' ∈ lvs cluster -> lv_OwnerReferences lv' = [] ->
                 candidateKey lv' ≠ candidateKey lvOwned).
  { assert (HF : Forall (fun lv' => candidateKey lv' ≠ candidateKey lvOwned
                                    ∨ lv_OwnerReferences lv' ≠ []) (lvs cluster))
      by compute_done.
    intros lv' Hin Hun. rewrite Forall_forall in HF.
    by destruct (HF lv' Hin). }
  refine (conj H1 (conj H2 (conj H3 (conj H4 (conj H5 _))))).
  destruct (owned_logic_volume_untouched start (lvs cluster) cluster lvOwned
              H1 H2 H3 H4) as (Hsel & Hnames & _ & Hfree).
  exact (conj Hsel (conj Hnames (Hfree H5))).
Defined.

Lemma patch_removes_only_rebuild_finalizer_witness :
  CallPatchLogicVolume (stripFinalizer lvLost) lvLost
    ∈ newCalls start (resourceReconcile start).2
  ∧ (stripFinalizer lvLost
     = lv_set_Finalizers lvLost (lv_Finalizers (stripFinalizer lvLost))
     ∧ (lv_Finalizers (stripFinalizer lvLost)
        = filter (fun f => f ≠ utils.LogicVolumeFinalizer) (lv_Finalizers lvLost))
     ∧ utils.LogicVolumeFinalizer ∈ lv_Finalizers lvLost
     ∧ (utils.LogicVolumeFinalizer ∉ lv_Finalizers (stripFinalizer lvLost))
     ∧ (∀ f, f ≠ utils.LogicVolumeFinalizer ->
          (f ∈ lv_Finalizers (stripFinalizer lvLost) <-> f ∈ lv_Finalizers lvLost))).
Proof.
  assert (H1 : CallPatchLogicVolume (stripFinalizer lvLost) lvLost
                 ∈ newCalls start (resourceReconcile start).2)
    by compute_done.
  split; [assumption|].
  exact (patch_removes_only_rebuild_finalizer start _ _ H1).
Defined.



(** C1 as stated fails on the code: [lv-owned] has owner references and
    its claim is [default/claim-lost], which is also the claim of the
    unowned candidate [lv-lost]; the pass returns no error, and the claim
    derived from [lv-owned] is deleted and created anew. *)
Lemma owned_volume_claim_rebuilt_counterexample :
  SharedClaimScenario.lvOwned ∈ lvs SharedClaimScenario.cluster
  ∧ NoDup (lv_Name <$> lvs SharedClaimScenario.cluster)
  ∧ lv_OwnerReferences SharedClaimScenario.lvOwned ≠ []
  ∧ candidateKey SharedClaimScenario.lvOwned = keyLost
  ∧ (resourceReconcile SharedClaimScenario.start).1 = Val None
  ∧ ¬ (∀ c, c ∈ newCalls SharedClaimScenario.start SharedClaimScenario.afterPass ->
            isCreateCall c = true ∨ (∃ pvc, c = CallDeletePersistentVolumeClaim pvc) ->
            claimOf c ≠ Some (candidateKey SharedClaimScenario.lvOwned))
  ∧ CallDeletePersistentVolumeClaim (newPvcOf keyLost SharedClaimScenario.claimFree)
      ∈ newCalls SharedClaimScenario.start SharedClaimScenario.afterPass
  ∧ CallCreatePersistentVolumeClaim (newPvcOf keyLost SharedClaimScenario.claimFree)
      ∈ newCalls SharedClaimScenario.start SharedClaimScenario.afterPass
  ∧ pvcs (world SharedClaimScenario.afterPass)
    = [newPvcOf keyLost SharedClaimScenario.claimFree].
Proof.
  split_and!; try done; try compute_done.
  intros Hall.
  apply (Hall (CallCreatePersistentVolumeClaim
                 (newPvcOf keyLost SharedClaimScenario.claimFree)));
    [compute_done|by left|done].
Qed.



(** Whatever the order in which the two candidates are visited, the first
    one exhausts its create retry and the other one is left out. *)
Lemma some_candidate_is_left_out_in_any_order (R : MapRange) :
  (@rebuildVolume Cluster _ _ R candidates afterSelection).1
  = Val (Some AlreadyExists)
  ∧ ∃ key o,
      candidates !! key = Some o
      ∧ ¬ (∃ c, c ∈ newCalls afterSelection
                      (@rebuildVolume Cluster _ _ R candidates afterSelection).2
                ∧ claimOf c = Some o).
Proof.
  pose proof (@range_map_perm R _ candidates) as Hperm.
  assert (Hl : map_to_list candidates
               = [("lv-lost2", keyLost2); ("lv-lost", keyLost)]) by compute_done.
  rewrite Hl in Hperm. symmetry in Hperm.
  apply Permutation_length_2_inv in Hperm as [Hr|Hr];
    unfold rebuildVolume; rewrite Hr.
  - split; [compute_done|]. exists "lv-lost", keyLost. split; [done|].
    intros (c & Hin & Hc).
    assert (HF : Forall (fun c => claimOf c ≠ Some keyLost)
                  (newCalls afterSelection
                     (bind (forRange rebuildBody
                              [("lv-lost2", keyLost2); ("lv-lost", keyLost)] tt)
                        (fun f => match f with
                                  | Return err => ret err
                                  | Next _ => ret None
                                  end)
                        afterSelection).2)) by compute_done.
    rewrite Forall_forall in HF. by apply (HF c Hin).
  - split; [compute_done|]. exists "lv-lost2", keyLost2. split; [done|].
    intros (c & Hin & Hc).
    assert (HF : Forall (fun c => claimOf c ≠ Some keyLost2)
                  (newCalls afterSelection
                     (bind (forRange rebuildBody
                              [("lv-lost", keyLost); ("lv-lost2", keyLost2)] tt)
                        (fun f => match f with
                                  | Return err => ret err
                                  | Next _ => ret None
                                  end)
                        afterSelection).2)) by compute_done.
    rewrite Forall_forall in HF. by apply (HF c Hin).
Qed.



End RebuildRuns.

(** ** Throttle controller: the single-pod path *)

Section PodProofs.
Import PodReconciler ThrottlePlan.
Context {W : Type} `{!Client W} `{!Host W} `{!utils.Constants} `{!MapRange}.

(** C10.  For a pod that carries a deletion timestamp, [Reconcile] returns
    success after the one call that fetches the pod: the world is what that
    call left and no other call is made, so there is no host write and no
    change to a cluster object.  Update events for such a pod do pass the
    event filter when the pod is on the node and of the scheduler. *)
Theorem deleted_pod_reconcile_is_noop (s : St W) req pod w1 :
  GetPod req (world s) = (Ok pod, w1) ->
  pod_DeletionTimestamp pod ≠ None ->
  Reconcile req s
  = (Val (Result0, None), MkSys (self s) w1 (trace s ++ [CallGetPod req]))
  ∧ (∀ nodeName objectOld,
       pod_Spec_NodeName pod = nodeName ->
       pod_Spec_SchedulerName pod = utils.CarinaSchedule ->
       podFilter_Update nodeName objectOld pod = true).
Proof.
  intros HG Hdel. split.
  - unfold Reconcile, bind, r_GetPod, call. rewrite HG.
    by rewrite bool_decide_eq_true_2 by done.
  - intros nodeName objectOld Hn Hs.
    unfold podFilter_Update, podFilter_filter.
    by rewrite !bool_decide_eq_true_2 by done.
Qed.

(** What the polling loop of [Reconcile] does for a pod that is not
    running: as soon as a fetch succeeds, [Reconcile] returns, whatever
    phase the fetched pod is in; the limits are not configured. *)
Lemma reconcile_returns_on_successful_poll (s : St W) req pod w1 pod' w2 :
  GetPod req (world s) = (Ok pod, w1) ->
  pod_DeletionTimestamp pod = None ->
  pod_Status_Phase pod ≠ PodRunning ->
  GetPod req (Sleep 30 w1) = (Ok pod', w2) ->
  Reconcile req s
  = (Val (Result0, None),
     MkSys (self s) w2 (trace s ++ [CallGetPod req; CallSleep 30; CallGetPod req])).
Proof.
  intros HG Hdel Hph HG2.
  unfold Reconcile, bind at 1, r_GetPod at 1, call at 1. rewrite HG.
  rewrite bool_decide_eq_false_2 by (by rewrite Hdel; intros ?).
  cbn [waitRunning]. rewrite bool_decide_eq_false_2 by done.
  unfold bind, time_Sleep, r_GetPod, call, ret. cbn [world self trace].
  rewrite HG2. by rewrite <- !app_assoc.
Qed.

(** The loop polls again only after a fetch that fails; when all the
    fetches of the budget fail, the pod as first fetched is configured. *)
Lemma waitRunning_failed_polls n req pod (s : St W) w' :
  pod_Status_Phase pod ≠ PodRunning ->
  failedPolls req n (world s) = Some w' ->
  waitRunning n req pod s
  = (Val (Next pod), MkSys (self s) w' (trace s ++ pollCalls req n)).
Proof.
  intros Hph. revert s. induction n as [|n IH]; intros s Hp; cbn in Hp.
  { injection Hp as <-. cbn. rewrite app_nil_r. by destruct s. }
  cbn [waitRunning pollCalls]. rewrite bool_decide_eq_false_2 by done.
  unfold bind, time_Sleep, r_GetPod, call. cbn [world self trace].
  destruct (GetPod req (Sleep 30 (world s))) as [[pod'|e] w1]; [done|].
  rewrite IH by done. cbn [self trace]. by rewrite <- !app_assoc.
Qed.

Lemma reconcile_configures_after_failed_polls (s : St W) req pod w1 w' :
  GetPod req (world s) = (Ok pod, w1) ->
  pod_DeletionTimestamp pod = None ->
  pod_Status_Phase pod ≠ PodRunning ->
  failedPolls req 5 w1 = Some w' ->
  (Reconcile req s).2
  = (SinglePodCGroupConfig pod
       (MkSys (self s) w' (trace s ++ CallGetPod req :: pollCalls req 5))).2.
Proof.
  intros HG Hdel Hph Hp.
  unfold Reconcile, bind at 1, r_GetPod at 1, call at 1. rewrite HG.
  rewrite bool_decide_eq_false_2 by (by rewrite Hdel; intros ?).
  unfold bind at 1.
  rewrite (waitRunning_failed_polls 5 req pod _ w' Hph) by done.
  cbn [self trace]. rewrite <- app_assoc. cbn [app].
  unfold bind.
  by destruct (SinglePodCGroupConfig pod _) as [[[e|]|msg] s'].
Qed.

(** A line without a space makes the scan of a pseudo-file panic. *)
Lemma scanLines_panics (line : string) rest old (s : St W) :
  Split (TrimSpace line) " "%char !! 1%nat = None ->
  scanLines (line :: rest) old s
  = (Panic "index out of range [1] with length 1", s).
Proof.
  intros Hs. cbn [scanLines]. rewrite Hs.
  by destruct (Split (TrimSpace line) " " !! 0%nat).
Qed.

End PodProofs.

Section ThrottleRuns.
Import Fake PodReconciler ThrottlePlan ThrottleScenario.

Lemma deleted_pod_reconcile_is_noop_witness :
  GetPod webKey (world deleting) = (Ok deletedPod, world deleting)
  ∧ pod_DeletionTimestamp deletedPod ≠ None
  ∧ (Reconcile webKey deleting
     = (Val (Result0, None),
        MkSys (self deleting) (world deleting) (trace deleting ++ [CallGetPod webKey]))
     ∧ (∀ nodeName objectOld,
          pod_Spec_NodeName deletedPod = nodeName ->
          pod_Spec_SchedulerName deletedPod = utils.CarinaSchedule ->
          podFilter_Update nodeName objectOld deletedPod = true)).
Proof.
  assert (H1 : GetPod webKey (world deleting) = (Ok deletedPod, world deleting))
    by reflexivity.
  assert (H2 : pod_DeletionTimestamp deletedPod ≠ None) by discriminate.
  repeat (split; [assumption|]).
  exact (deleted_pod_reconcile_is_noop deleting webKey deletedPod (world deleting) H1 H2).
Defined.

(** C6 on the code.  The pod is not running when [Reconcile] fetches it;
    after one sleep of thirty seconds the pod is fetched again, the fetch
    succeeds, and [Reconcile] returns at once: the limits of the pod are
    not configured, no host write is made.  For the same pod in the running
    phase the override is written. *)
Theorem pending_pod_is_not_configured :
  Reconcile webKey pending
  = (Val (Result0, None),
     MkSys (self pending) (Sleep 30 (world pending))
       [CallGetPod webKey; CallSleep 30; CallGetPod webKey])
  ∧ Forall (fun c => ¬ isExecuteCall c) (trace (Reconcile webKey pending).2)
  ∧ (Reconcile webKey running).1 = Val (Result0, None)
  ∧ CallExecuteCommand "8:16" "104857600" readBpsPath
      ∈ trace (Reconcile webKey running).2.
Proof.
  split_and!.
  - compute_done.
  - vm_compute. repeat constructor; by intros [].
  - compute_done.
  - compute_done.
Qed.

(** C7 on the code.  The read-rate pseudo-file holds the line [8:16]: the
    read of the host state panics, and with it the full pass.  When none of
    the four files can be opened the pass goes on without any limit kind:
    the override of the running pod is not written. *)
Theorem malformed_throttle_file_panics :
  (readCGroupBlkioFile malformed).1 = Panic "index out of range [1] with length 1"
  ∧ (AllPodCGroupConfig malformed).1 = Panic "index out of range [1] with length 1"
  ∧ (readCGroupBlkioFile missing).1 = Val []
  ∧ (AllPodCGroupConfig missing).1 = Val None
  ∧ Forall (fun c => ¬ isExecuteCall c) (trace (AllPodCGroupConfig missing).2)
  ∧ CallExecuteCommand "8:16" "104857600" readBpsPath
      ∈ trace (AllPodCGroupConfig running).2.
Proof.
  split_and!; try compute_done; try compute_done.
  vm_compute. repeat constructor; by intros [].
Qed.

End ThrottleRuns.

(** ** Throttle controller: the full resync *)

Section EmitsProofs.
Context {R W : Type}.

Lemma emits_ret {A} (P : Call -> Prop) (a : A) : emits (R:=R) (W:=W) P (ret a).
Proof. intros s. exists []. by rewrite app_nil_r. Qed.

Lemma emits_panic {A} (P : Call -> Prop) msg :
  emits (R:=R) (W:=W) (A:=A) P (panic msg).
Proof. intros s. exists []. by rewrite app_nil_r. Qed.

Lemma emits_gets {A} (P : Call -> Prop) (f : Sys R W -> A) : emits P (gets f).
Proof. intros s. exists []. by rewrite app_nil_r. Qed.

Lemma emits_call {A} (P : Call -> Prop) c (op : W -> A * W) :
  P c -> emits (R:=R) P (call c op).
Proof.
  intros Hc s. exists [c]. unfold call. destruct (op (world s)).
  split; [done|]. by constructor.
Qed.

Lemma emits_bind {A B} (P : Call -> Prop) (m : M (Sys R W) A)
    (k : A -> M (Sys R W) B) :
  emits P m -> (∀ a, emits P (k a)) -> emits P (bind m k).
Proof.
  intros Hm Hk s. destruct (Hm s) as (t1 & Ht1 & HF1). unfold bind.
  destruct (m s) as [[a|msg] s1]; cbn [snd] in *.
  - destruct (Hk a s1) as (t2 & Ht2 & HF2).
    exists (t1 ++ t2). rewrite Ht2, Ht1, <- app_assoc. split; [done|].
    by apply Forall_app.
  - by exists t1.
Qed.

Lemma emits_forRange {A L Ret} (P : Call -> Prop)
    (body : A -> L -> M (Sys R W) (Flow L Ret)) xs :
  (∀ x l, emits P (body x l)) -> ∀ l, emits P (forRange body xs l).
Proof.
  intros Hb. induction xs as [|x xs IH]; intros l; cbn [forRange].
  - apply emits_ret.
  - apply emits_bind; [apply Hb|]. intros [l'|r]; [apply IH|apply emits_ret].
Qed.

End EmitsProofs.

Section ResyncProofs.
Import PodReconciler ThrottlePlan.
Context {W : Type} `{!Client W} `{!Host W} `{!utils.Constants} `{!MapRange}.

(** *** What the references do to the desired limits *)

Lemma fillAll_fields p k c :
  name (fillAll p k c) = name c ∧ cpath (fillAll p k c) = cpath c
  ∧ oldBlkio (fillAll p k c) = oldBlkio c.
Proof.
  unfold fillAll.
  destruct (pod_Annotations p !! annotationKey c); [done|].
  by destruct (bool_decide (is_Some (oldBlkio c !! k))).
Qed.

Lemma filled_fields refs c :
  name (filled refs c) = name c ∧ cpath (filled refs c) = cpath c
  ∧ oldBlkio (filled refs c) = oldBlkio c.
Proof.
  unfold filled. revert c. induction refs as [|[p k] refs IH]; intros c; [done|].
  cbn [foldl fst snd]. destruct (IH (fillAll p k c)) as (-> & -> & ->).
  apply fillAll_fields.
Qed.

Lemma filled_snoc refs p k c :
  filled (refs ++ [(p, k)]) c = fillAll p k (filled refs c).
Proof. unfold filled. by rewrite foldl_app. Qed.

Lemma fillAll_lookup_ne p k1 c (k : string) :
  k1 ≠ k -> newBlkio (fillAll p k1 c) !! k = newBlkio c !! k.
Proof.
  intros Hne. unfold fillAll.
  destruct (pod_Annotations p !! annotationKey c).
  - cbn. by rewrite lookup_insert_ne.
  - destruct (bool_decide (is_Some (oldBlkio c !! k1))); [|done].
    cbn. by rewrite lookup_insert_ne.
Qed.

(** A device that no reference names keeps the desired value it had. *)
Lemma filled_unreferenced refs c (k : string) :
  k ∉ refs.*2 -> newBlkio (filled refs c) !! k = newBlkio c !! k.
Proof.
  unfold filled. revert c. induction refs as [|[p k1] refs IH]; intros c Hk; [done|].
  cbn [fmap list_fmap snd] in Hk. apply not_elem_of_cons in Hk as [Hne Hk].
  cbn [foldl fst snd]. rewrite IH by done. by apply fillAll_lookup_ne.
Qed.

(** A device of the previous state that is referenced, and only by pods
    without the override of the limit kind, gets the desired value [0]. *)
Lemma filled_cleared refs c (k : string) :
  k ∈ refs.*2 ->
  (∀ p, (p, k) ∈ refs -> pod_Annotations p !! annotationKey c = None) ->
  is_Some (oldBlkio c !! k) ->
  newBlkio (filled refs c) !! k = Some "0".
Proof.
  intros Hin Hann Hold.
  assert (G : ∀ c', name c' = name c -> oldBlkio c' = oldBlkio c ->
            newBlkio (filled refs c') !! k
            = if decide (k ∈ refs.*2) then Some "0" else newBlkio c' !! k).
  { clear Hin. induction refs as [|[p k1] refs IH]; intros c' Hn Ho.
    { cbn. by rewrite decide_False by apply not_elem_of_nil. }
    unfold filled. cbn [foldl fst snd]. fold (filled refs (fillAll p k1 c')).
    destruct (fillAll_fields p k1 c') as (Hn1 & _ & Ho1).
    rewrite IH; [|intros p' Hp'; apply Hann; by right|congruence|congruence].
    cbn [fmap list_fmap snd].
    destruct (decide (k ∈ refs.*2)) as [Hr|Hr].
    - rewrite decide_True; [done|by right].
    - destruct (decide (k1 = k)) as [->|Hne].
      + rewrite decide_True by left.
        unfold fillAll, annotationKey. rewrite Hn, Ho.
        fold (annotationKey c). rewrite (Hann p) by left.
        rewrite bool_decide_eq_true_2 by done. cbn. by rewrite lookup_insert_eq.
      + rewrite decide_False by (by intros [?|?]%elem_of_cons).
        by apply fillAll_lookup_ne. }
  rewrite G by done. by rewrite decide_True.
Qed.


(** *** The loops over the pods and their volumes *)

Lemma volumes_loop p vols refs cb0 (s : St W) :
  forRange (volumeBody fillAll p) vols (filled refs <$> cb0) s
  = match forRange (refBody p) vols refs s with
    | (Val f, s') => (Val (Next (filled (flowLocals f) <$> cb0)), s')
    | (Panic msg, s') => (Panic msg, s')
    end.
Proof.
  revert refs s. induction vols as [|v vols IH]; intros refs s; [done|].
  cbn [forRange]. unfold volumeBody at 1, refBody at 1, bind.
  destruct (blkioKeyOf p v s) as [[[k|]|msg] s1]; [| |done].
  - unfold ret.
    assert (fillAll p k <$> (filled refs <$> cb0)
            = filled (refs ++ [(p, k)]) <$> cb0) as ->; [|apply IH].
    rewrite <- list_fmap_compose. apply list_fmap_ext.
    intros; cbn; by rewrite filled_snoc.
  - unfold ret. apply IH.
Qed.

Lemma pods_loop podList refs cb0 (s : St W) :
  forRange podBody podList (filled refs <$> cb0) s
  = match forRange refsOfPod podList refs s with
    | (Val f, s') => (Val (Next (filled (flowLocals f) <$> cb0)), s')
    | (Panic msg, s') => (Panic msg, s')
    end.
Proof.
  revert refs s. induction podList as [|p podList IH]; intros refs s; [done|].
  cbn [forRange]. unfold bind, podBody at 1, refsOfPod at 1.
  rewrite volumes_loop.
  destruct (forRange (refBody p) (pod_Spec_Volumes p) refs s)
    as [[[refs1|[]]|msg] s1]; [|done].
  cbn [flowLocals]. rewrite IH.
  by destruct (forRange refsOfPod podList refs1 s1) as [[[?|[]]|?] ?].
Qed.

(** *** The writes *)

Lemma dropUnchanged_fold (l : list (string * string)) (new : gmap string string)
    (k : string) :
  NoDup l.*1 ->
  foldl (fun new kv =>
           match new !! kv.1 with
           | Some nv => if bool_decide (kv.2 = nv) then delete kv.1 new else new
           | None => new
           end) new l !! k
  = match new !! k with
    | Some nv => if decide ((k, nv) ∈ l) then None else Some nv
    | None => None
    end.
Proof.
  revert new. induction l as [|[k1 v1] l IH]; intros new Hnd.
  { cbn. destruct (new !! k); [|done]. by rewrite decide_False by apply not_elem_of_nil. }
  cbn [fmap list_fmap fst] in Hnd. apply NoDup_cons in Hnd as [Hk1 Hnd].
  cbn [foldl fst snd]. rewrite IH by done.
  destruct (decide (k1 = k)) as [->|Hne].
  - destruct (new !! k) as [nv|] eqn:Hnew; [|by rewrite Hnew].
    case_bool_decide as Hv.
    + subst nv. rewrite lookup_delete_eq. by rewrite decide_True by left.
    + rewrite Hnew.
      assert (Hnot : (k, nv) ∉ l).
      { intros Hin. apply Hk1. by apply (list_elem_of_fmap_2 fst) in Hin. }
      rewrite decide_False by done.
      rewrite decide_False; [done|].
      intros [[= ?]|?]%elem_of_cons; [by subst|done].
  - assert (Hsame : match new !! k1 with
                    | Some nv => if bool_decide (v1 = nv) then delete k1 new else new
                    | None => new
                    end !! k = new !! k).
    { destruct (new !! k1); [|done]. case_bool_decide; [|done].
      by rewrite lookup_delete_ne. }
    rewrite Hsame. destruct (new !! k) as [nv|]; [|done].
    destruct (decide ((k, nv) ∈ l)) as [Hin|Hin].
    + rewrite decide_True; [done|by right].
    + rewrite decide_False; [done|].
      intros [[= ? ?]|?]%elem_of_cons; [by subst|done].
Qed.

(** An entry is written unless it repeats the previous value. *)
Lemma dropUnchanged_lookup c (k : string) :
  dropUnchanged c !! k
  = match newBlkio c !! k with
    | Some nv => if decide (oldBlkio c !! k = Some nv) then None else Some nv
    | None => None
    end.
Proof.
  unfold dropUnchanged. rewrite dropUnchanged_fold.
  2:{ rewrite (range_map_perm _ (oldBlkio c)). apply NoDup_fst_map_to_list. }
  destruct (newBlkio c !! k) as [nv|]; [|done].
  destruct (decide ((k, nv) ∈ range_map (oldBlkio c))) as [Hin|Hin];
    rewrite (range_map_perm _ (oldBlkio c)), elem_of_map_to_list in Hin.
  - by rewrite decide_True.
  - by rewrite decide_False.
Qed.

Lemma writeEntries_spec path (l : list (string * string)) (s : St W) :
  ∃ s', forRange (writeEntry path) l tt s = (Val (Next tt), s')
        ∧ self s' = self s
        ∧ trace s' = trace s ++ ((fun kv => CallExecuteCommand kv.1 kv.2 path) <$> l).
Proof.
  revert s. induction l as [|[k v] l IH]; intros s.
  { exists s. cbn. by rewrite app_nil_r. }
  cbn [forRange]. unfold bind at 1, writeEntry at 1, bind, exec_ExecuteCommand, call, ret.
  cbn [fst snd].
  destruct (ExecuteCommand "bash" ["-c"; echoCommand k v path] (world s)) as [err w1].
  set (s1 := MkSys _ _ _). destruct (IH s1) as (s' & E & Hself & Ht).
  exists s'. rewrite E. split; [done|]. split; [done|].
  rewrite Ht. subst s1. cbn. by rewrite <- app_assoc.
Qed.

Lemma writeCgroupBlkioFile_spec cp (s : St W) :
  ∃ s', writeCgroupBlkioFile cp s = (Val tt, s')
        ∧ self s' = self s
        ∧ trace s' = trace s ++ concat (execCalls <$> cp).
Proof.
  unfold writeCgroupBlkioFile.
  assert (G : ∀ s : St W, ∃ s', forRange writeBody cp tt s = (Val (Next tt), s')
            ∧ self s' = self s
            ∧ trace s' = trace s ++ concat (execCalls <$> cp)).
  { clear s. induction cp as [|c cp IH]; intros s.
    { exists s. cbn. by rewrite app_nil_r. }
    cbn [forRange]. unfold bind at 1, writeBody at 1, bind at 1.
    destruct (writeEntries_spec (cpath c) (range_map (dropUnchanged c)) s)
      as (s1 & E1 & Hself1 & Ht1).
    rewrite E1. unfold ret at 1. cbn beta iota.
    destruct (IH s1) as (s' & E & Hself & Ht).
    exists s'. rewrite E. split; [done|]. split; [congruence|].
    rewrite Ht, Ht1. cbn [fmap list_fmap concat]. by rewrite <- app_assoc. }
  destruct (G s) as (s' & E & Hself & Ht).
  exists s'. unfold bind, ret. by rewrite E.
Qed.


Lemma concat_fmap_elem {A} (f : A -> list Call) (l : list A) (x : Call) :
  x ∈ concat (f <$> l) <-> ∃ a, a ∈ l ∧ x ∈ f a.
Proof.
  induction l as [|a l IH]; cbn [fmap list_fmap concat].
  - split; [by intros ?%elem_of_nil|by intros (? & ?%elem_of_nil & _)].
  - rewrite elem_of_app, IH. split.
    + intros [?|(a' & ? & ?)]; [exists a; split; [left|done]|].
      exists a'. split; [by right|done].
    + intros (a' & [->|?]%elem_of_cons & ?); [by left|]. right. by exists a'.
Qed.

Lemma occurrences_NoDup (c : Call) (t : list Call) :
  NoDup t -> occurrences c t = if decide (c ∈ t) then 1%nat else 0%nat.
Proof.
  intros Hnd. destruct (decide (c ∈ t)) as [Hin|Hin]; [|by apply occurrences_zero].
  induction Hnd as [|x t Hx Hnd IH]; [by apply elem_of_nil in Hin|].
  unfold occurrences in *. rewrite filter_cons.
  destruct (decide (x = c)) as [->|Hne].
  - cbn [length]. f_equal. by apply (occurrences_zero c t).
  - apply IH. by apply elem_of_cons in Hin as [->|?].
Qed.

Lemma range_map_NoDup_entries {V} (m : gmap string V) : NoDup (range_map m).
Proof. rewrite (range_map_perm V m). apply NoDup_map_to_list. Qed.

Lemma execCalls_NoDup c : NoDup (execCalls c).
Proof.
  unfold execCalls. apply NoDup_fmap_2; [|apply range_map_NoDup_entries].
  intros [k1 v1] [k2 v2] [= -> ->]. done.
Qed.

Lemma execCalls_elem c k v path :
  CallExecuteCommand k v path ∈ execCalls c
  <-> path = cpath c ∧ dropUnchanged c !! k = Some v.
Proof.
  unfold execCalls. rewrite list_elem_of_fmap. split.
  - intros ([k' v'] & [= -> -> ->] & Hin).
    rewrite (range_map_perm _ (dropUnchanged c)), elem_of_map_to_list in Hin. done.
  - intros [-> Hl]. exists (k, v). split; [done|].
    by rewrite (range_map_perm _ (dropUnchanged c)), elem_of_map_to_list.
Qed.

(** With one [cgroupblkio] per path, the writes to a path are those of its
    [cgroupblkio]. *)
Lemma occurrences_writes cp c k v :
  NoDup (cpath <$> cp) -> c ∈ cp ->
  occurrences (CallExecuteCommand k v (cpath c)) (concat (execCalls <$> cp))
  = if decide (dropUnchanged c !! k = Some v) then 1%nat else 0%nat.
Proof.
  intros Hnd Hin.
  induction cp as [|x cp IH]; [by apply elem_of_nil in Hin|].
  cbn [fmap list_fmap] in Hnd. apply NoDup_cons in Hnd as [Hx Hnd].
  cbn [fmap list_fmap concat]. rewrite occurrences_app.
  destruct (decide (cpath x = cpath c)) as [Hp|Hp].
  - assert (x = c) as ->.
    { apply elem_of_cons in Hin as [->|Hin]; [done|].
      exfalso. apply Hx. rewrite Hp. by apply list_elem_of_fmap_2. }
    rewrite (occurrences_zero _ (concat _)).
    2:{ rewrite concat_fmap_elem. intros (c' & Hc' & [Hpath _]%execCalls_elem).
        apply Hx. rewrite Hpath. by apply list_elem_of_fmap_2. }
    rewrite occurrences_NoDup by apply execCalls_NoDup.
    rewrite Nat.add_0_r.
    destruct (decide (dropUnchanged c !! k = Some v)) as [Hd|Hd].
    + rewrite decide_True; [done|]. by apply execCalls_elem.
    + rewrite decide_False; [done|]. by intros [_ ?]%execCalls_elem.
  - rewrite (occurrences_zero _ (execCalls x)).
    2:{ intros [Hpath _]%execCalls_elem. by apply Hp. }
    apply elem_of_cons in Hin as [->|Hin]; [done|]. by apply IH.
Qed.

(** *** The read of the host state *)

Lemma scanLines_state lines old (s : St W) : (scanLines lines old s).2 = s.
Proof.
  revert old. induction lines as [|line rest IH]; intros old; [done|].
  cbn [scanLines].
  destruct (Split (TrimSpace line) " " !! 0%nat), (Split (TrimSpace line) " " !! 1%nat);
    first [done|apply IH].
Qed.

Lemma readBody_emits v cb : emits (fun c => ¬ isExecuteCall c) (readBody (W:=W) v cb).
Proof.
  unfold readBody. apply emits_bind; [by apply emits_call; intros []|].
  intros [lines|e]; [|apply emits_ret].
  apply emits_bind; [|intros; apply emits_ret].
  intros s. exists []. by rewrite scanLines_state, app_nil_r.
Qed.

Lemma readLoop_result kinds cb (s : St W) cb' s' :
  forRange readBody kinds cb s = (Val (Next cb'), s') ->
  ∃ extra, cb' = cb ++ extra
           ∧ Forall (fun c => newBlkio c = ∅) extra
           ∧ (cpath <$> extra) `sublist_of` (filepath_Join BlkIOCGroupPath <$> kinds).
Proof.
  revert cb s. induction kinds as [|v kinds IH]; intros cb s.
  { intros [= <- <-]. exists []. by rewrite app_nil_r. }
  cbn [forRange]. unfold bind at 1, readBody at 1, bind at 1, os_Open, call.
  destruct (Open (filepath_Join BlkIOCGroupPath v) (world s)) as [[lines|e] w1].
  - unfold bind. destruct (scanLines lines _ _) as [[old|msg] s1]; [|done].
    unfold ret at 1. intros (extra & -> & HF & Hsub)%IH.
    exists (set_oldBlkio (Mkcgroupblkio v (filepath_Join BlkIOCGroupPath v) ∅ ∅) old
            :: extra).
    rewrite <- app_assoc. split; [done|]. split; [by constructor|].
    cbn [fmap list_fmap]. by apply sublist_skip.
  - unfold ret at 1. intros (extra & -> & HF & Hsub)%IH.
    exists extra. split; [done|]. split; [done|].
    cbn [fmap list_fmap]. by apply sublist_cons.
Qed.

Lemma readCGroupBlkioFile_spec (s : St W) cb0 s' :
  readCGroupBlkioFile s = (Val cb0, s') ->
  Forall (fun c => newBlkio c = ∅) cb0
  ∧ NoDup (cpath <$> cb0)
  ∧ ∃ t, trace s' = trace s ++ t ∧ Forall (fun c => ¬ isExecuteCall c) t.
Proof.
  unfold readCGroupBlkioFile, bind, ret. intros E.
  destruct (emits_forRange _ readBody limitKinds (fun v cb => readBody_emits v cb) [] s)
    as (t & Ht & HF).
  destruct (forRange readBody limitKinds [] s) as [[[cb'|[]]|msg] s1] eqn:E1; [|done].
  injection E as <- <-. cbn [flowLocals].
  assert (Ht' : trace s1 = trace s ++ t).
  { transitivity (trace (forRange readBody limitKinds [] s).2);
      [by rewrite E1|exact Ht]. }
  apply readLoop_result in E1 as (extra & -> & Hnew & Hsub).
  split; [done|]. split; [|by exists t].
  cbn [app]. eapply sublist_NoDup; [|exact Hsub]. compute_done.
Qed.

(** *** Resolving the volumes makes no host write *)

Lemma blkioKeyOf_emits p v :
  emits (fun c => ¬ isExecuteCall c) (blkioKeyOf (W:=W) p v).
Proof.
  unfold blkioKeyOf. destruct (vol_PersistentVolumeClaim v); [|apply emits_ret].
  apply emits_bind; [by apply emits_call; intros []|].
  intros [[|pv [|? ?]]|e]; try apply emits_ret.
  destruct (pv_Spec_CSI pv); [|apply emits_panic].
  case_bool_decide; apply emits_ret.
Qed.

Lemma refsLoop_emits podList refs :
  emits (fun c => ¬ isExecuteCall c) (forRange (refsOfPod (W:=W)) podList refs).
Proof.
  apply emits_forRange. intros p refs'. unfold refsOfPod.
  apply emits_forRange. intros v refs''. unfold refBody.
  apply emits_bind; [apply blkioKeyOf_emits|]. intros [k|]; apply emits_ret.
Qed.


Lemma paths_unique (cp : list cgroupblkio) a b :
  NoDup (cpath <$> cp) -> a ∈ cp -> b ∈ cp -> cpath a = cpath b -> a = b.
Proof.
  induction cp as [|x l IH]; cbn [fmap list_fmap]; [by intros _ ?%elem_of_nil|].
  intros [Hx Hl]%NoDup_cons [->|Ha]%elem_of_cons [->|Hb]%elem_of_cons Hn; auto.
  - exfalso. apply Hx. rewrite Hn. by apply list_elem_of_fmap_2.
  - exfalso. apply Hx. rewrite <- Hn. by apply list_elem_of_fmap_2.
Qed.

(** The full resync, from the list of the pods to the writes. *)
Lemma AllPodCGroupConfig_spec (s s1 s2 s3 : St W) podList cb0 refs :
  r_ListPod (utils.CarinaSchedule +:+ "-" +:+ NodeName (self s)) s
  = (Val (Ok podList), s1) ->
  readCGroupBlkioFile s1 = (Val cb0, s2) ->
  referencedDevices podList s2 = (Val refs, s3) ->
  ∃ s4 pre,
    AllPodCGroupConfig s = (Val None, s4)
    ∧ newCalls s s4 = pre ++ concat (execCalls <$> (filled refs <$> cb0))
    ∧ Forall (fun c => ¬ isExecuteCall c) pre.
Proof.
  intros H1 H2 H3.
  assert (Ht1 : trace s1 = trace s ++ [CallListPod
                 (utils.CarinaSchedule +:+ "-" +:+ NodeName (self s))]).
  { unfold r_ListPod, call in H1. destruct (ListPod _ (world s)).
    by injection H1 as _ <-. }
  destruct (readCGroupBlkioFile_spec s1 cb0 s2 H2) as (_ & _ & t2 & Ht2 & HF2).
  unfold referencedDevices, bind, ret in H3.
  destruct (refsLoop_emits podList [] s2) as (t3 & Ht3 & HF3).
  pose proof (pods_loop podList [] cb0 s2) as Hloop.
  destruct (forRange refsOfPod podList [] s2) as [[f|msg] s3'] eqn:E3; [|done].
  injection H3 as <- <-. cbn [snd] in Ht3.
  assert (Hid : filled [] <$> cb0 = cb0) by (by rewrite <- (list_fmap_id cb0) at 2).
  rewrite Hid in Hloop.
  destruct (writeCgroupBlkioFile_spec (filled (flowLocals f) <$> cb0) s3')
    as (s4 & E4 & _ & Ht4).
  exists s4, ([CallListPod (utils.CarinaSchedule +:+ "-" +:+ NodeName (self s))]
              ++ t2 ++ t3).
  split_and!.
  - unfold AllPodCGroupConfig, bind at 1, gets at 1. unfold bind at 1. rewrite H1.
    unfold bind at 1. rewrite H2. unfold bind at 1. rewrite Hloop.
    cbn [flowLocals]. unfold bind, ret. by rewrite E4.
  - apply newCalls_app. rewrite Ht4, Ht3, Ht2, Ht1. by rewrite <- !app_assoc.
  - apply Forall_app. split; [constructor; [by intros []|constructor]|].
    by apply Forall_app.
Qed.

(** C3, as the code has it.  In a full resync, for each limit kind whose
    pseudo-file was read:
    - a device key that no listed pod references is never written, whether
      or not it is in the previous state;
    - a device key of the previous state that is referenced by listed pods
      none of which carries the override of the limit kind is written with
      value [0] exactly once, and with no other value, unless the previous
      value is [0] already, in which case it is not written. *)
Theorem full_resync_clears_referenced_devices (s s1 s2 s3 : St W) podList cb0 refs :
  r_ListPod (utils.CarinaSchedule +:+ "-" +:+ NodeName (self s)) s
  = (Val (Ok podList), s1) ->
  readCGroupBlkioFile s1 = (Val cb0, s2) ->
  referencedDevices podList s2 = (Val refs, s3) ->
  ∃ s4,
    AllPodCGroupConfig s = (Val None, s4)
    ∧ (∀ k : string,
         (k ∉ refs.*2 ->
          ∀ v path, CallExecuteCommand k v path ∉ newCalls s s4)
         ∧ (∀ c prev,
              c ∈ cb0 -> k ∈ refs.*2 ->
              (∀ p, (p, k) ∈ refs -> pod_Annotations p !! annotationKey c = None) ->
              oldBlkio c !! k = Some prev ->
              occurrences (CallExecuteCommand k "0" (cpath c)) (newCalls s s4)
              = (if decide (prev = "0") then 0%nat else 1%nat)
              ∧ (∀ v, v ≠ "0" ->
                   CallExecuteCommand k v (cpath c) ∉ newCalls s s4))).
Proof.
  intros H1 H2 H3.
  destruct (AllPodCGroupConfig_spec s s1 s2 s3 podList cb0 refs H1 H2 H3)
    as (s4 & pre & E & Hcalls & Hpre).
  destruct (readCGroupBlkioFile_spec s1 cb0 s2 H2) as (Hnew & Hnd & _).
  exists s4. split; [done|]. rewrite Hcalls.
  assert (Hnot : ∀ k v path, CallExecuteCommand k v path ∉ pre).
  { intros k v path Hin. rewrite Forall_forall in Hpre. by apply (Hpre _ Hin). }
  assert (Hnd' : NoDup (cpath <$> (filled refs <$> cb0))).
  { rewrite <- list_fmap_compose.
    rewrite (list_fmap_ext (cpath ∘ filled refs) cpath cb0); [done|].
    intros i c _. cbn. by destruct (filled_fields refs c) as (_ & -> & _). }
  intros k. split.
  - intros Hk v path [Hin|Hin]%elem_of_app; [by apply (Hnot k v path)|].
    apply concat_fmap_elem in Hin as (c' & Hc' & [_ Hd]%execCalls_elem).
    apply list_elem_of_fmap in Hc' as (c & -> & Hc).
    rewrite dropUnchanged_lookup, filled_unreferenced in Hd by done.
    rewrite Forall_forall in Hnew. by rewrite (Hnew c Hc), lookup_empty in Hd.
  - intros c prev Hc Hk Hann Hold.
    assert (Hc' : filled refs c ∈ filled refs <$> cb0) by (by apply list_elem_of_fmap_2).
    destruct (filled_fields refs c) as (_ & Hpath & Holdf).
    assert (Hdrop : dropUnchanged (filled refs c) !! k
                    = if decide (prev = "0") then None else Some "0").
    { rewrite dropUnchanged_lookup, filled_cleared, Holdf, Hold by done.
      destruct (decide (prev = "0")) as [->|Hne].
      - by rewrite decide_True.
      - rewrite decide_False; [done|]. by intros [= ?]. }
    split.
    + rewrite occurrences_app, (occurrences_zero _ pre) by apply Hnot.
      rewrite <- Hpath, occurrences_writes, Hdrop by done.
      by destruct (decide (prev = "0")).
    + intros v Hv [Hin|Hin]%elem_of_app; [by apply (Hnot k v (cpath c))|].
      apply concat_fmap_elem in Hin as (c'' & Hc'' & [Hp Hd]%execCalls_elem).
      assert (c'' = filled refs c) as ->.
      { apply (paths_unique (filled refs <$> cb0)); try done. congruence. }
      rewrite Hdrop in Hd. destruct (decide (prev = "0")); [done|].
      injection Hd as <-. done.
Qed.

End ResyncProofs.

Section ResyncRuns.
Import Fake PodReconciler ThrottlePlan ThrottleScenario.

Lemma full_resync_clears_referenced_devices_witness :
  r_ListPod (utils.CarinaSchedule +:+ "-" +:+ NodeName (self limited)) limited
  = (Val (Ok [plainPod]), limitedListed)
  ∧ readCGroupBlkioFile limitedListed = (Val limitedLimits, limitedRead)
  ∧ referencedDevices [plainPod] limitedRead
    = (Val [(plainPod, "8:16")], limitedResolved)
  ∧ ∃ s4,
      AllPodCGroupConfig limited = (Val None, s4)
      ∧ (∀ k : string,
           (k ∉ [(plainPod, "8:16")].*2 ->
            ∀ v path, CallExecuteCommand k v path ∉ newCalls limited s4)
           ∧ (∀ c prev,
                c ∈ limitedLimits -> k ∈ [(plainPod, "8:16")].*2 ->
                (∀ p, (p, k) ∈ [(plainPod, "8:16")] ->
                      pod_Annotations p !! annotationKey c = None) ->
                oldBlkio c !! k = Some prev ->
                occurrences (CallExecuteCommand k "0" (cpath c)) (newCalls limited s4)
                = (if decide (prev = "0") then 0%nat else 1%nat)
                ∧ (∀ v, v ≠ "0" ->
                     CallExecuteCommand k v (cpath c) ∉ newCalls limited s4))).
Proof.
  assert (H1 : r_ListPod (utils.CarinaSchedule +:+ "-" +:+ NodeName (self limited))
                 limited = (Val (Ok [plainPod]), limitedListed))
    by compute_done.
  assert (H2 : readCGroupBlkioFile limitedListed = (Val limitedLimits, limitedRead))
    by compute_done.
  assert (H3 : referencedDevices [plainPod] limitedRead
               = (Val [(plainPod, "8:16")], limitedResolved))
    by compute_done.
  repeat (split; [assumption|]).
  exact (full_resync_clears_referenced_devices limited limitedListed limitedRead
           limitedResolved [plainPod] limitedLimits [(plainPod, "8:16")] H1 H2 H3).
Defined.

(** C3 as stated fails on the code: device [8:16] is in the previous state
    of the read-rate limit and no pod is listed, so no pod carries an
    override for it; the pass makes no host write at all, where the claim
    has [8:16 0] written once.  On [limited], where a listed pod without
    override uses the device, [8:16 0] is written once. *)
Lemma stale_limit_counterexample :
  (r_ListPod localIndex stale).1 = Val (Ok [])
  ∧ previousState (r_ListPod localIndex stale).2 !! 0%nat
    = Some (readBpsPath, [("8:16", "104857600")])
  ∧ (AllPodCGroupConfig stale).1 = Val None
  ∧ occurrences (CallExecuteCommand "8:16" "0" readBpsPath)
      (trace (AllPodCGroupConfig stale).2) ≠ 1%nat
  ∧ Forall (fun c => ¬ isExecuteCall c) (trace (AllPodCGroupConfig stale).2)
  ∧ occurrences (CallExecuteCommand "8:16" "0" readBpsPath)
      (trace (AllPodCGroupConfig limited).2) = 1%nat.
Proof.
  split_and!; try compute_done.
  vm_compute. repeat constructor; by intros [].
Qed.

End ResyncRuns.

(** ** Capacity aggregator *)

Section CapacityProofs.
Import PersistentVolumeReconciler.
Context {W : Type} `{!Client W} `{!utils.Constants} `{!MapRange} `{!Environment}.

Lemma cacheRefreshed_fold (nodeDevice : list (gmap string string))
    (cache : gmap string (gmap string string)) :
  NoDup (nodeNameOf <$> nodeDevice) ->
  (∀ v, v ∈ nodeDevice -> cache !! nodeNameOf v = None) ->
  let cache' := foldl (fun cache value => <[nodeNameOf value := value]> cache)
                      cache nodeDevice in
  size cache' = (size cache + length nodeDevice)%nat
  ∧ (∀ v, v ∈ nodeDevice -> cache' !! nodeNameOf v = Some v)
  ∧ (∀ n, n ∉ nodeNameOf <$> nodeDevice -> cache' !! n = cache !! n).
Proof.
  revert cache. induction nodeDevice as [|x l IH]; intros cache Hnd Hfresh.
  { cbn. split_and!; [lia|by intros ? ?%elem_of_nil|done]. }
  cbn [fmap list_fmap] in Hnd. apply NoDup_cons in Hnd as [Hx Hnd].
  cbn [foldl length].
  destruct (IH (<[nodeNameOf x := x]> cache) Hnd) as (Hsize & Hin & Hout).
  { intros v Hv. rewrite lookup_insert_ne; [apply Hfresh; by right|].
    intros Heq. apply Hx. rewrite Heq. by apply list_elem_of_fmap_2. }
  split_and!.
  - rewrite Hsize, map_size_insert_None by (apply Hfresh; left). lia.
  - intros v [->|Hv]%elem_of_cons; [|by apply Hin].
    rewrite Hout by done. apply lookup_insert_eq.
  - intros n Hn. cbn [fmap list_fmap] in Hn. apply not_elem_of_cons in Hn as [Hne Hn].
    rewrite Hout by done. by rewrite lookup_insert_ne.
Qed.

(** Order-insensitive comparison: a cache refreshed to a snapshot is hit
    by every reordering of that snapshot. *)
Lemma cacheHit_after_refresh (nodeDevice nodeDevice' : list (gmap string string)) :
  NoDup (nodeNameOf <$> nodeDevice) ->
  nodeDevice' ≡ₚ nodeDevice ->
  cacheHit (cacheRefreshed nodeDevice) nodeDevice' = true.
Proof.
  intros Hnd Hperm.
  destruct (cacheRefreshed_fold nodeDevice ∅ Hnd) as (Hsize & Hin & _).
  { intros. apply lookup_empty. }
  fold (cacheRefreshed nodeDevice) in Hsize, Hin.
  unfold cacheHit. rewrite map_size_empty in Hsize.
  rewrite bool_decide_eq_false_2 by (rewrite Hsize, Hperm; cbn; lia).
  apply forallb_forall. intros v Hv%list_elem_of_In. rewrite Hperm in Hv.
  rewrite (Hin v Hv). unfold utils.MapEqualMap. by apply bool_decide_eq_true.
Qed.

(** The pass that finds the artifact and updates it: one write, and the
    cache is refreshed to the new snapshot. *)
Lemma update_pass_refreshes_cache (s : St W) nl w1 byteJson cm w2 w3 :
  ListNode (world s) = (Ok nl, w1) ->
  cacheHit (cacheConfigMap (self s)) (nodeDeviceOf nl) = false ->
  json_Marshal (nodeDeviceOf nl) = Ok byteJson ->
  GetConfigMap storageConfigMapKey w1 = (Ok cm, w2) ->
  UpdateConfigMap (MkConfigMap (cm_Namespace cm) (cm_Name cm) {["node" := byteJson]}) w2
  = (None, w3) ->
  ∃ s', updateNodeConfigMap s = (Val None, s')
        ∧ cacheConfigMap (self s') = cacheRefreshed (nodeDeviceOf nl)
        ∧ newCalls s s'
          = [CallListNode; CallGetConfigMap storageConfigMapKey;
             CallUpdateConfigMap
               (MkConfigMap (cm_Namespace cm) (cm_Name cm) {["node" := byteJson]})].
Proof.
  intros HL Hmiss HJ HG HU.
  unfold updateNodeConfigMap, bind, r_ListNode, gets, call. rewrite HL.
  cbn [self world trace]. rewrite Hmiss, HJ.
  unfold r_GetConfigMap, call. cbn [self world trace]. rewrite HG.
  unfold r_UpdateConfigMap, call. cbn [self world trace]. rewrite HU.
  unfold modify, ret, set_cacheConfigMap. cbn [self world trace].
  eexists. split; [reflexivity|]. split; [done|].
  apply newCalls_app. cbn [trace]. by rewrite <- !app_assoc.
Qed.

(** The pass that does not find the artifact and creates it: one write,
    and the cache is left as it was. *)
Lemma create_pass_keeps_cache (s : St W) nl w1 byteJson e w2 w3 :
  ListNode (world s) = (Ok nl, w1) ->
  cacheHit (cacheConfigMap (self s)) (nodeDeviceOf nl) = false ->
  json_Marshal (nodeDeviceOf nl) = Ok byteJson ->
  GetConfigMap storageConfigMapKey w1 = (Err e, w2) ->
  IsNotFound e = true ->
  CreateConfigMap (MkConfigMap RuntimeNamespace "carina-node-storage"
                     {["node" := byteJson]}) w2 = (None, w3) ->
  ∃ s', updateNodeConfigMap s = (Val None, s')
        ∧ self s' = self s
        ∧ newCalls s s'
          = [CallListNode; CallGetConfigMap storageConfigMapKey;
             CallCreateConfigMap
               (MkConfigMap RuntimeNamespace "carina-node-storage"
                  {["node" := byteJson]})].
Proof.
  intros HL Hmiss HJ HG HN HC.
  unfold updateNodeConfigMap, bind, r_ListNode, gets, call. rewrite HL.
  cbn [self world trace]. rewrite Hmiss, HJ.
  unfold r_GetConfigMap, call. cbn [self world trace]. rewrite HG, HN.
  unfold r_CreateConfigMap, call. cbn [self world trace]. rewrite HC.
  unfold ret. eexists. split; [reflexivity|]. split; [done|].
  apply newCalls_app. cbn [trace]. by rewrite <- !app_assoc.
Qed.

(** A pass that hits the cache lists the nodes and writes nothing. *)
Lemma hit_pass_writes_nothing (s : St W) nl w1 :
  ListNode (world s) = (Ok nl, w1) ->
  cacheHit (cacheConfigMap (self s)) (nodeDeviceOf nl) = true ->
  updateNodeConfigMap s
  = (Val None, MkSys (self s) w1 (trace s ++ [CallListNode])).
Proof.
  intros HL Hhit.
  unfold updateNodeConfigMap, bind, r_ListNode, gets, call. rewrite HL.
  cbn [self world trace]. by rewrite Hhit.
Qed.

Lemma nodeRecord_app nodeDevice node :
  nodeRecord nodeDevice node = nodeDevice ++ nodeRecord [] node.
Proof. unfold nodeRecord. case_bool_decide; [done|by rewrite app_nil_r]. Qed.

Lemma nodeDeviceOf_cons node nl :
  nodeDeviceOf (node :: nl) = nodeRecord [] node ++ nodeDeviceOf nl.
Proof.
  unfold nodeDeviceOf. cbn [foldl]. generalize (nodeRecord [] node).
  induction nl as [|x l IH]; intros acc; cbn [foldl].
  - by rewrite app_nil_r.
  - rewrite IH, (IH (nodeRecord [] x)), (nodeRecord_app acc x). by rewrite <- app_assoc.
Qed.

(** The records do not depend on the order in which the nodes are listed. *)
Lemma nodeDeviceOf_perm nl nl' :
  nl ≡ₚ nl' -> nodeDeviceOf nl ≡ₚ nodeDeviceOf nl'.
Proof.
  induction 1 as [|x l l' _ IH|x y l|l1 l2 l3 _ IH1 _ IH2].
  - done.
  - rewrite !nodeDeviceOf_cons. by rewrite IH.
  - rewrite !nodeDeviceOf_cons. apply Permutation_app_swap_app.
  - by rewrite IH1.
Qed.

Lemma nodeRecord_name node r :
  r ∈ nodeRecord [] node -> nodeNameOf r = node_Name node.
Proof.
  unfold nodeRecord. case_bool_decide; [|by intros ?%elem_of_nil].
  cbn [app]. intros [->|?%elem_of_nil]%elem_of_cons; [|done].
  unfold nodeNameOf. by rewrite lookup_insert_eq.
Qed.

Lemma nodeDeviceOf_names nl n :
  n ∈ nodeNameOf <$> nodeDeviceOf nl -> n ∈ node_Name <$> nl.
Proof.
  induction nl as [|x l IH]; [done|].
  rewrite nodeDeviceOf_cons, fmap_app, elem_of_app. cbn [fmap list_fmap].
  intros [(r & -> & Hr)%list_elem_of_fmap|Hin].
  - rewrite (nodeRecord_name x r Hr). left.
  - right. by apply IH.
Qed.

Lemma nodeDeviceOf_NoDup nl :
  NoDup (node_Name <$> nl) -> NoDup (nodeNameOf <$> nodeDeviceOf nl).
Proof.
  induction nl as [|x l IH]; [intros _; constructor|].
  cbn [fmap list_fmap]. intros [Hx Hl]%NoDup_cons.
  rewrite nodeDeviceOf_cons, fmap_app. apply NoDup_app. split_and!.
  - unfold nodeRecord. case_bool_decide; cbn; [|constructor].
    apply NoDup_singleton.
  - intros n (r & -> & Hr)%list_elem_of_fmap Hin%nodeDeviceOf_names.
    by rewrite (nodeRecord_name x r Hr) in Hin.
  - by apply IH.
Qed.

(** After a pass that refreshed the cache for the nodes [nl], a pass that
    lists the same nodes in any order hits the cache and writes nothing. *)
Lemma reordered_snapshot_hits (s : St W) nl nl' w1 :
  cacheConfigMap (self s) = cacheRefreshed (nodeDeviceOf nl) ->
  NoDup (node_Name <$> nl) ->
  nl' ≡ₚ nl ->
  ListNode (world s) = (Ok nl', w1) ->
  updateNodeConfigMap s
  = (Val None, MkSys (self s) w1 (trace s ++ [CallListNode])).
Proof.
  intros Hc Hnd Hperm HL. apply hit_pass_writes_nothing with nl'; [done|].
  rewrite Hc. apply cacheHit_after_refresh.
  - by apply nodeDeviceOf_NoDup.
  - by apply nodeDeviceOf_perm.
Qed.

End CapacityProofs.

Section CapacityRuns.
Import Fake PersistentVolumeReconciler CapacityScenario.

(** C8 on the code.  The artifact does not exist yet.  The first pass
    creates it and leaves the cache empty; the second pass computes the
    same two records (the nodes are listed in the other order), misses the
    cache and writes the artifact again, by an update: two writes in two
    passes.  Only that update refreshes the cache, and the third pass
    writes nothing. *)
Theorem first_write_by_create_is_repeated :
  (updateNodeConfigMap start).1 = Val None
  ∧ writes (newCalls start afterPass1) = 1%nat
  ∧ cacheConfigMap (self afterPass1) = ∅
  ∧ nodeDeviceOf (nodes (world (reordered afterPass1)))
    = reverse (nodeDeviceOf (nodes (world start)))
  ∧ (updateNodeConfigMap (reordered afterPass1)).1 = Val None
  ∧ writes (newCalls afterPass1 afterPass2) = 1%nat
  ∧ writes (newCalls start afterPass2) = 2%nat
  ∧ cacheConfigMap (self afterPass2)
    = cacheRefreshed (nodeDeviceOf (nodes (world start)))
  ∧ (updateNodeConfigMap (reordered afterPass2)).1 = Val None
  ∧ writes (newCalls afterPass2 afterPass3) = 0%nat.
Proof.
  split_and!; compute_done.
Qed.

End CapacityRuns.

(** * Further properties *)

(** ** Volume rebuild: which volumes are selected *)

Section SelectionProofs.
Import NodeReconciler NodePlan NodePlan2.
Context {W : Type} `{!Client W} `{!Host W} `{!utils.Constants} `{!MapRange}.

Lemma nodeStatus_fold_other (nl : list Node) (m : gmap string string) (n : string) :
  n ∉ node_Name <$> nl ->
  foldl (fun nodeStatus n =>
           if bool_decide (node_DeletionTimestamp n ≠ None)
              || bool_decide (node_Status_Phase n = NodeTerminated)
           then <[node_Name n := "abnormal"]> nodeStatus
           else <[node_Name n := "normal"]> nodeStatus) m nl !! n
  = m !! n.
Proof.
  revert m. induction nl as [|x l IH]; intros m Hn; [done|].
  cbn [fmap list_fmap] in Hn. apply not_elem_of_cons in Hn as [Hne Hn].
  cbn [foldl]. rewrite IH by done.
  destruct (_ || _); by rewrite lookup_insert_ne.
Qed.

(** The health recorded for a listed node, node names being unique. *)
Lemma nodeStatusOf_lookup (nl : list Node) (node : Node) :
  NoDup (node_Name <$> nl) -> node ∈ nl ->
  nodeStatusOf nl !! node_Name node
  = Some (if abnormal node then "abnormal" else "normal").
Proof.
  unfold nodeStatusOf. generalize (∅ : gmap string string).
  induction nl as [|x l IH]; intros m Hnd Hin; [by apply elem_of_nil in Hin|].
  cbn [fmap list_fmap] in Hnd. apply NoDup_cons in Hnd as [Hx Hnd].
  cbn [foldl]. apply elem_of_cons in Hin as [->|Hin].
  - rewrite nodeStatus_fold_other by done. unfold abnormal.
    destruct (_ || _); by rewrite lookup_insert_eq.
  - by apply IH.
Qed.

Lemma record_fold_other ns pvs cache done (m : gmap string ObjectKey) (n : string) :
  n ∉ lv_Name <$> done -> foldl (record ns pvs cache) m done !! n = m !! n.
Proof.
  revert m. induction done as [|x l IH]; intros m Hn; [done|].
  cbn [fmap list_fmap] in Hn. apply not_elem_of_cons in Hn as [Hne Hn].
  cbn [foldl]. rewrite IH by done. unfold record.
  destruct (candidate ns pvs cache x); [|done]. by rewrite lookup_insert_ne.
Qed.

Lemma record_fold_candidate ns pvs cache lvList (m : gmap string ObjectKey) lv :
  NoDup (lv_Name <$> lvList) -> lv ∈ lvList ->
  candidate ns pvs cache lv = true ->
  foldl (record ns pvs cache) m lvList !! lv_Name lv = Some (candidateKey lv).
Proof.
  revert m. induction lvList as [|x l IH]; intros m Hnd Hin Hc;
    [by apply elem_of_nil in Hin|].
  cbn [fmap list_fmap] in Hnd. apply NoDup_cons in Hnd as [Hx Hnd].
  cbn [foldl]. apply elem_of_cons in Hin as [->|Hin].
  - rewrite record_fold_other by done. unfold record. rewrite Hc.
    apply lookup_insert_eq.
  - by apply IH.
Qed.

(** A listed volume for which the loop body plans no call and which is
    no candidate is left alone by [getNeedRebuildVolume]. *)
Lemma skipped_volume_untouched (s : St W) lvList w1 nl w2 pvl w3 lv :
  ListLogicVolume (world s) = (Ok lvList, w1) ->
  ListNode w1 = (Ok nl, w2) ->
  ListPersistentVolume None w2 = (Ok pvl, w3) ->
  NoDup (lv_Name <$> lvList) ->
  lv ∈ lvList ->
  lvCalls (nodeStatusOf nl) (pvNames pvl) (cacheNoDeleteLv (self s)) lv = [] ->
  candidate (nodeStatusOf nl) (pvNames pvl) (cacheNoDeleteLv (self s)) lv = false ->
  ∃ m err s',
    getNeedRebuildVolume s = (Val (m, err), s')
    ∧ m !! lv_Name lv = None
    ∧ (∀ c, c ∈ newCalls s s' -> lv_Name lv ∉ logicVolumeNames c).
Proof.
  intros HL HN HP Hnd Hin Hcalls Hcand.
  destruct (getNeedRebuildVolume_spec s lvList w1 HL)
    as (m & err & s1 & hdr & t & done & ns & pvs
        & E & Hself & Ht & Hhdr & Hp & Hdone & Hm & _ & Hlists).
  assert (Hne : lvList ≠ []) by (intros ->; by apply elem_of_nil in Hin).
  destruct (Hlists nl w2 pvl w3 Hne HN HP) as (-> & -> & ->).
  exists m, err, s1. split; [done|]. split.
  - destruct (m !! lv_Name lv) as [o|] eqn:Hlk; [|done].
    rewrite Hm in Hlk.
    apply record_fold_lookup in Hlk as [Hlk|(lv' & Hin' & Hc & Hn & _)];
      [by rewrite lookup_empty in Hlk|].
    assert (lv' ∈ lvList) as Hin''
      by (destruct Hdone as [k ->]; apply elem_of_app; by left).
    rewrite (names_unique lvList lv' lv Hnd Hin'' Hin Hn) in Hc. congruence.
  - intros c Hc. rewrite (newCalls_app s s1 _ Ht) in Hc.
    apply elem_of_app in Hc as [Hc|Hc].
    + rewrite !elem_of_cons, elem_of_nil in Hc.
      destruct Hc as [->|[->|[->|[]]]]; apply not_elem_of_nil.
    + destruct Hp as [k Hk].
      assert (Hc' : c ∈ allLvCalls (nodeStatusOf nl) (pvNames pvl)
                      (cacheNoDeleteLv (self s)) lvList)
        by (rewrite Hk; apply elem_of_app; by left).
      apply allLvCalls_elem in Hc' as (lv' & Hin' & Hc').
      pose proof Hc' as Hc''.
      assert (Hne' : lv_Name lv' ≠ lv_Name lv).
      { intros Hn. rewrite (names_unique lvList lv' lv Hnd Hin' Hin Hn) in Hc''.
        rewrite Hcalls in Hc''. by apply elem_of_nil in Hc''. }
      apply lvCalls_elem in Hc' as (_ & _ & [[-> _]| ->]); cbn;
        rewrite ?elem_of_cons, elem_of_nil; intros Hx;
        decompose [or] Hx; congruence.
Qed.

Lemma settled_plan ns pvs cache lv :
  is_Some (pvs !! lv_Name lv) -> settled ns cache lv = true ->
  lvCalls ns pvs cache lv = [] ∧ candidate ns pvs cache lv = false.
Proof.
  intros Hpv Hs. unfold lvCalls, candidate, orphaned. rewrite Hs.
  rewrite (bool_decide_eq_true_2 (is_Some (pvs !! lv_Name lv))) by done.
  rewrite andb_false_r. destruct (owned lv); [done|].
  by rewrite andb_false_r.
Qed.

(** X1.  A LogicVolume with status [Success] whose node is listed as
    healthy (no deletion timestamp, phase not terminated) and whose
    PersistentVolume exists is never selected for rebuild, whatever the
    negative cache holds and whether or not it carries the finalizer: it is
    not recorded, and no delete or patch of the pass carries its name. *)
Theorem healthy_volume_not_rebuilt (s : St W) lvList w1 nl w2 pvl w3 lv node :
  ListLogicVolume (world s) = (Ok lvList, w1) ->
  ListNode w1 = (Ok nl, w2) ->
  ListPersistentVolume None w2 = (Ok pvl, w3) ->
  NoDup (lv_Name <$> lvList) ->
  NoDup (node_Name <$> nl) ->
  lv ∈ lvList ->
  node ∈ nl ->
  node_Name node = lv_Spec_NodeName lv ->
  node_DeletionTimestamp node = None ->
  node_Status_Phase node ≠ NodeTerminated ->
  lv_Status_Status lv = "Success" ->
  lv_Name lv ∈ pv_Name <$> pvl ->
  ∃ m err s',
    getNeedRebuildVolume s = (Val (m, err), s')
    ∧ m !! lv_Name lv = None
    ∧ (∀ c, c ∈ newCalls s s' -> lv_Name lv ∉ logicVolumeNames c).
Proof.
  intros HL HN HP Hnd Hndn Hin Hnode Hname Hdel Hph Hst Hpv.
  apply (skipped_volume_untouched s lvList w1 nl w2 pvl w3 lv); try done;
    apply settled_plan; try (by apply pvNames_lookup).
  all: unfold settled; rewrite (bool_decide_eq_true_2 _ Hst); cbn [andb];
    apply orb_true_iff; right; apply bool_decide_eq_true;
    rewrite <- Hname, (nodeStatusOf_lookup nl node Hndn Hnode); unfold abnormal;
    rewrite Hdel, (bool_decide_eq_false_2 (None ≠ None)) by (by intros ?);
    by rewrite bool_decide_eq_false_2.
Qed.

(** X2.  A LogicVolume with status [Success] whose name is in the negative
    cache and whose PersistentVolume exists is not selected for rebuild,
    even when its node is gone. *)
Theorem cached_volume_not_rebuilt (s : St W) lvList w1 nl w2 pvl w3 lv :
  ListLogicVolume (world s) = (Ok lvList, w1) ->
  ListNode w1 = (Ok nl, w2) ->
  ListPersistentVolume None w2 = (Ok pvl, w3) ->
  NoDup (lv_Name <$> lvList) ->
  lv ∈ lvList ->
  is_Some (cacheNoDeleteLv (self s) !! lv_Name lv) ->
  lv_Status_Status lv = "Success" ->
  lv_Name lv ∈ pv_Name <$> pvl ->
  ∃ m err s',
    getNeedRebuildVolume s = (Val (m, err), s')
    ∧ m !! lv_Name lv = None
    ∧ (∀ c, c ∈ newCalls s s' -> lv_Name lv ∉ logicVolumeNames c).
Proof.
  intros HL HN HP Hnd Hin Hcache Hst Hpv.
  apply (skipped_volume_untouched s lvList w1 nl w2 pvl w3 lv); try done;
    apply settled_plan; try (by apply pvNames_lookup).
  all: unfold settled; rewrite (bool_decide_eq_true_2 _ Hst); cbn [andb];
    apply orb_true_iff; left; by apply bool_decide_eq_true.
Qed.

(** X3.  A LogicVolume without owner references whose status is not
    [Success], and that is not orphaned (its status is empty or its
    PersistentVolume exists), is a rebuild candidate in every pass that
    returns no error, healthy node and negative cache notwithstanding: it
    is recorded under its name with the namespace and name of its claim,
    and its rebuild finalizer, when present, is patched away. *)
Theorem unfinished_volume_always_selected (s : St W) lvList w1 nl w2 pvl w3 lv m s' :
  ListLogicVolume (world s) = (Ok lvList, w1) ->
  ListNode w1 = (Ok nl, w2) ->
  ListPersistentVolume None w2 = (Ok pvl, w3) ->
  NoDup (lv_Name <$> lvList) ->
  lv ∈ lvList ->
  lv_OwnerReferences lv = [] ->
  lv_Status_Status lv ≠ "Success" ->
  lv_Status_Status lv = "" ∨ lv_Name lv ∈ pv_Name <$> pvl ->
  getNeedRebuildVolume s = (Val (m, None), s') ->
  m !! lv_Name lv = Some (MkObjectKey (lv_Spec_NameSpace lv) (lv_Spec_Pvc lv))
  ∧ (utils.LogicVolumeFinalizer ∈ lv_Finalizers lv ->
     CallPatchLogicVolume (stripFinalizer lv) lv ∈ newCalls s s')
  ∧ (∀ lv', lv_Name lv' = lv_Name lv ->
       CallDeleteLogicVolume lv' ∉ newCalls s s').
Proof.
  intros HL HN HP Hnd Hin Hun Hst Hnot E.
  destruct (getNeedRebuildVolume_spec s lvList w1 HL)
    as (m' & err & s1 & hdr & t & done & ns & pvs
        & E' & Hself & Ht & Hhdr & Hp & Hdone & Hm & Hfull & Hlists).
  rewrite E in E'. injection E' as <- <- <-.
  assert (Hne : lvList ≠ []) by (intros ->; by apply elem_of_nil in Hin).
  destruct (Hlists nl w2 pvl w3 Hne HN HP) as (-> & -> & ->).
  destruct (Hfull eq_refl) as [-> ->].
  set (cache := cacheNoDeleteLv (self s)) in *.
  assert (Hown : owned lv = false) by (by apply owned_false).
  assert (Hor : orphaned (pvNames pvl) lv = false).
  { unfold orphaned. destruct Hnot as [He|Hpv].
    - by rewrite bool_decide_eq_false_2 by (by rewrite He; intros ?).
    - rewrite (bool_decide_eq_true_2 (is_Some _)) by (by apply pvNames_lookup).
      apply andb_false_r. }
  assert (Hse : settled (nodeStatusOf nl) cache lv = false).
  { unfold settled. by rewrite bool_decide_eq_false_2. }
  assert (Hc : candidate (nodeStatusOf nl) (pvNames pvl) cache lv = true).
  { unfold candidate. by rewrite Hown, Hor, Hse. }
  rewrite (newCalls_app s s' _ Ht).
  split_and!.
  - rewrite Hm. by apply record_fold_candidate.
  - intros Hfin.
    assert (Hf : hasFinalizer lv = true)
      by (unfold hasFinalizer, utils.ContainsString; by apply bool_decide_eq_true).
    apply elem_of_app. right.
    destruct (allLvCalls_block (nodeStatusOf nl) (pvNames pvl) cache lvList lv Hin)
      as (t1 & t2 & ->).
    unfold lvCalls. rewrite Hown, Hor, Hse, Hf.
    apply elem_of_app. right. left.
  - intros lv0 Hn0 [Hc'|Hc']%elem_of_app.
    + rewrite !elem_of_cons, elem_of_nil in Hc'.
      destruct Hc' as [?|[?|[?|[]]]]; done.
    + apply allLvCalls_elem in Hc' as (lv' & Hin' & Hc').
      apply lvCalls_elem in Hc' as (_ & _ & [[[= ->] Hor']|[=]]).
      rewrite (names_unique lvList lv' lv Hnd Hin' Hin Hn0) in Hor'. congruence.
Qed.

(** X4.  When one of the three list calls fails, the pass returns that
    error after list calls only: nothing is deleted, patched, fetched or
    created. *)
Theorem list_failure_aborts_pass (s : St W) e :
  (∃ w1, ListLogicVolume (world s) = (Err e, w1))
  ∨ (∃ lvList w1 w2,
       ListLogicVolume (world s) = (Ok lvList, w1) ∧ lvList ≠ []
       ∧ ListNode w1 = (Err e, w2))
  ∨ (∃ lvList w1 nl w2 w3,
       ListLogicVolume (world s) = (Ok lvList, w1) ∧ lvList ≠ []
       ∧ ListNode w1 = (Ok nl, w2)
       ∧ ListPersistentVolume None w2 = (Err e, w3)) ->
  (resourceReconcile s).1 = Val (Some e)
  ∧ Forall isListCall (newCalls s (resourceReconcile s).2)
  ∧ self (resourceReconcile s).2 = self s.
Proof.
  intros [(w1 & HL)|[(lvList & w1 & w2 & HL & Hne & HN)
                    |(lvList & w1 & nl & w2 & w3 & HL & Hne & HN & HP)]].
  - rewrite (resourceReconcile_list_error s e w1 HL). cbn [fst snd self].
    split; [done|]. split; [|done].
    erewrite newCalls_app by reflexivity. by repeat constructor.
  - unfold resourceReconcile, getNeedRebuildVolume, r_ListLogicVolume, r_ListNode,
      bind, call, ret.
    rewrite HL. rewrite bool_decide_eq_false_2
      by (by destruct lvList; [|intros ?]).
    cbn [world self trace]. rewrite HN. cbn [fst snd self].
    split; [done|]. split; [|done].
    erewrite newCalls_app by (cbn [trace]; by rewrite <- app_assoc).
    by repeat constructor.
  - unfold resourceReconcile, getNeedRebuildVolume, pvMap, r_ListLogicVolume,
      r_ListNode, r_ListPersistentVolume, bind, call, ret.
    rewrite HL. rewrite bool_decide_eq_false_2
      by (by destruct lvList; [|intros ?]).
    cbn [world self trace]. rewrite HN. cbn [world self trace]. rewrite HP.
    cbn [fst snd self].
    split; [done|]. split; [|done].
    erewrite newCalls_app by (cbn [trace]; by rewrite <- !app_assoc).
    by repeat constructor.
Qed.

(** X5.  With no LogicVolume in the cluster, a full pass makes the one
    call that lists them and returns without error; nodes, volumes and
    claims are not looked at. *)
Theorem empty_cluster_pass (s : St W) w1 :
  ListLogicVolume (world s) = (Ok [], w1) ->
  resourceReconcile s
  = (Val None, MkSys (self s) w1 (trace s ++ [CallListLogicVolume])).
Proof.
  intros HL.
  unfold resourceReconcile, getNeedRebuildVolume, r_ListLogicVolume, bind at 1 2, call.
  rewrite HL. rewrite bool_decide_eq_true_2 by done. unfold ret at 1.
  cbn beta iota. unfold rebuildVolume.
  assert (range_map (∅ : gmap string ObjectKey) = []) as ->.
  { apply Permutation_nil_r. rewrite (range_map_perm _ ∅). by rewrite map_to_list_empty. }
  done.
Qed.

End SelectionProofs.

(** ** Volume rebuild: what the loop over the candidates leaves behind *)

Section CompletionProofs.
Import NodeReconciler NodePlan NodePlan2.
Context {W : Type} `{!Client W} `{!Host W} `{!utils.Constants} `{!MapRange}.

Lemma create_retry_first pvc n (s : St W) :
  ∃ t, trace (utils.UntilMaxRetry (r_CreatePersistentVolumeClaim pvc) (S n) 10 s).2
       = trace s ++ CallCreatePersistentVolumeClaim pvc :: t.
Proof.
  cbn [utils.UntilMaxRetry].
  unfold bind at 1, r_CreatePersistentVolumeClaim at 1, call at 1.
  destruct (CreatePersistentVolumeClaim pvc (world s)) as [[e|] w1]; [|by exists []].
  destruct n as [|n]; [by exists []|].
  unfold bind at 1, time_Sleep at 1, call at 1. cbn [world self trace].
  set (s2 := MkSys _ _ _).
  destruct (create_retry_spec pvc (S n) s2) as (err & s3 & t & E & _ & Ht & _).
  rewrite E. cbn [snd]. exists (CallSleep 10 :: t).
  rewrite Ht. subst s2. cbn [trace]. by rewrite <- !app_assoc.
Qed.

Lemma retryCalls_elem pvc n c :
  c ∈ retryCalls pvc 10 n ->
  c = CallCreatePersistentVolumeClaim pvc ∨ c = CallSleep 10.
Proof.
  induction n as [|n IH]; [by intros ?%elem_of_nil|].
  cbn [retryCalls]. intros [->|Hin]%elem_of_cons; [by left|].
  destruct n; [by apply elem_of_nil in Hin|].
  apply elem_of_cons in Hin as [->|Hin]; [by right|by apply IH].
Qed.

(** One iteration that falls through to the next: either the fetch failed
    and the name is in the negative cache, or a create was issued. *)
Lemma rebuildBody_next key o (s s1 : St W) :
  rebuildBody (key, o) tt s = (Val (Next tt), s1) ->
  (∀ k, is_Some (cacheNoDeleteLv (self s) !! k) ->
        is_Some (cacheNoDeleteLv (self s1) !! k))
  ∧ ∃ t, trace s1 = trace s ++ t
         ∧ (is_Some (cacheNoDeleteLv (self s1) !! key)
            ∨ ∃ pvc, CallCreatePersistentVolumeClaim (newPvcOf o pvc) ∈ t).
Proof.
  unfold rebuildBody, bind at 1, r_GetPersistentVolumeClaim at 1, call at 1.
  destruct (GetPersistentVolumeClaim o (world s)) as [[pvc|e] w1] eqn:HG.
  2:{ unfold bind, modify, ret. intros [= <-]. cbn. split.
      - intros k Hk. destruct (decide (key = k)) as [->|Hne].
        + rewrite lookup_insert_eq. by eexists.
        + by rewrite lookup_insert_ne.
      - eexists. split; [done|]. left. rewrite lookup_insert_eq. by eexists. }
  unfold bind at 1, r_DeletePersistentVolumeClaim at 1, call at 1.
  cbn [world self trace].
  destruct (DeletePersistentVolumeClaim (newPvcOf o pvc) w1) as [derr w2].
  set (s2 := MkSys _ _ _).
  destruct (create_retry_spec (newPvcOf o pvc) 12 s2)
    as (err & s3 & t & E & Hself & Ht & _).
  destruct (create_retry_first (newPvcOf o pvc) 11 s2) as (t0 & Ht0).
  rewrite E in Ht0. cbn [snd] in Ht0.
  unfold bind. rewrite E.
  destruct err as [e|].
  { destruct (pvcs_StorageClassName (pvc_Spec (newPvcOf o pvc))),
             (pvcs_VolumeMode (pvc_Spec (newPvcOf o pvc))); by intros [=]. }
  unfold ret. intros [= <-]. rewrite Hself. split; [done|].
  exists (CallGetPersistentVolumeClaim o
          :: CallDeletePersistentVolumeClaim (newPvcOf o pvc)
          :: CallCreatePersistentVolumeClaim (newPvcOf o pvc) :: t0).
  split.
  - rewrite Ht0. subst s2. cbn [trace]. by rewrite <- !app_assoc.
  - right. exists pvc. rewrite !elem_of_cons. auto.
Qed.

Lemma rebuildLoop_return items (s s' : St W) r :
  forRange rebuildBody items tt s = (Val (Return r), s') -> is_Some r.
Proof.
  revert s. induction items as [|[key o] rest IH]; intros s; [done|].
  cbn [forRange]. unfold bind at 1.
  destruct (rebuildBody_spec key o s) as (out & s1 & t & E & _ & Hcase).
  rewrite E. destruct out as [[[]|r']|msg]; [apply IH| |done].
  unfold ret. intros [= -> <-].
  destruct (GetPersistentVolumeClaim o (world s)).1.
  - by destruct Hcase as (_ & t' & _ & _ & ? & _).
  - by destruct Hcase as [[=] _].
Qed.

Lemma rebuildLoop_next items (s s' : St W) :
  forRange rebuildBody items tt s = (Val (Next tt), s') ->
  (∀ k, is_Some (cacheNoDeleteLv (self s) !! k) ->
        is_Some (cacheNoDeleteLv (self s') !! k))
  ∧ ∃ t, trace s' = trace s ++ t
         ∧ ∀ key o, (key, o) ∈ items ->
             is_Some (cacheNoDeleteLv (self s') !! key)
             ∨ ∃ pvc, CallCreatePersistentVolumeClaim (newPvcOf o pvc) ∈ t.
Proof.
  revert s. induction items as [|[key o] rest IH]; intros s.
  { intros [= <-]. split; [done|]. exists []. rewrite app_nil_r.
    split; [done|]. by intros ? ? ?%elem_of_nil. }
  cbn [forRange]. unfold bind at 1.
  destruct (rebuildBody (key, o) tt s) as [[[[]|r]|msg] s1] eqn:E; [|done..].
  intros Hrest.
  destruct (rebuildBody_next key o s s1 E) as (Hmono1 & t1 & Ht1 & Hk1).
  destruct (IH s1 Hrest) as (Hmono2 & t2 & Ht2 & Hk2).
  split; [intros k Hk; by apply Hmono2, Hmono1|].
  exists (t1 ++ t2). split; [by rewrite Ht2, Ht1, <- app_assoc|].
  intros key' o' [[= -> ->]|Hin]%elem_of_cons.
  - destruct Hk1 as [Hc|(pvc & Hc)]; [left; by apply Hmono2|].
    right. exists pvc. apply elem_of_app. by left.
  - destruct (Hk2 key' o' Hin) as [Hc|(pvc & Hc)]; [by left|].
    right. exists pvc. apply elem_of_app. by right.
Qed.

(** X6.  When [rebuildVolume] returns without error, every candidate is
    accounted for: either its name is in the negative cache (its claim
    could not be fetched) or a create of its claim was issued.  Names
    never leave the negative cache. *)
Theorem completed_rebuild_covers_candidates (vom : gmap string ObjectKey)
    (s s' : St W) :
  rebuildVolume vom s = (Val None, s') ->
  (∀ key o, vom !! key = Some o ->
     is_Some (cacheNoDeleteLv (self s') !! key)
     ∨ ∃ pvc, CallCreatePersistentVolumeClaim (newPvcOf o pvc) ∈ newCalls s s')
  ∧ (∀ k, is_Some (cacheNoDeleteLv (self s) !! k) ->
          is_Some (cacheNoDeleteLv (self s') !! k)).
Proof.
  unfold rebuildVolume, bind, ret.
  destruct (forRange rebuildBody (range_map vom) tt s) as [[[[]|r]|msg] s1] eqn:E;
    [| |done].
  - intros [= <-].
    destruct (rebuildLoop_next _ s s1 E) as (Hmono & t & Ht & Hk).
    split; [|done]. intros key o Hlk. rewrite (newCalls_app s s1 t Ht).
    apply Hk. by apply range_map_elem.
  - intros [= -> <-]. by destruct (rebuildLoop_return _ s s1 None E).
Qed.

Lemma rebuildBody_block key o (s : St W) :
  ∃ b, trace (rebuildBody (key, o) tt s).2 = trace s ++ b ∧ blockFor o b.
Proof.
  destruct (rebuildBody_spec key o s) as (out & s' & t & E & Ht & Hcase).
  exists t. rewrite E. split; [done|].
  destruct (GetPersistentVolumeClaim o (world s)).1 as [pvc|e].
  - destruct Hcase as (_ & t' & -> & Hp & _). right. by exists pvc, t'.
  - destruct Hcase as (_ & -> & _). by left.
Qed.

Lemma rebuildLoop_blocks items (s : St W) :
  ∃ bs, trace (forRange rebuildBody items tt s).2 = trace s ++ concat bs
        ∧ Forall (fun b => ∃ o, o ∈ items.*2 ∧ blockFor o b) bs.
Proof.
  revert s. induction items as [|[key o] rest IH]; intros s.
  { exists []. cbn. by rewrite app_nil_r. }
  destruct (rebuildBody_block key o s) as (b & Hb & Hblock).
  assert (Hhead : ∃ o', o' ∈ ((key, o) :: rest).*2 ∧ blockFor o' b)
    by (exists o; split; [left|done]).
  cbn [forRange]. unfold bind at 1.
  destruct (rebuildBody (key, o) tt s) as [[[[]|r]|msg] s1] eqn:E; cbn [snd] in Hb.
  - destruct (IH s1) as (bs & Hbs & HF).
    exists (b :: bs). cbn [concat]. rewrite Hbs, Hb, <- app_assoc.
    split; [done|]. constructor; [done|].
    eapply Forall_impl; [exact HF|]. intros b' (o' & ? & ?).
    exists o'. split; [by right|done].
  - exists [b]. unfold ret. cbn. rewrite app_nil_r. split; [done|]. by constructor.
  - exists [b]. cbn. rewrite app_nil_r. split; [done|]. by constructor.
Qed.

Lemma blocks_create_after_delete (P : ObjectKey -> Prop) bs t1 pvc t2 :
  Forall (fun b => ∃ o, P o ∧ blockFor o b) bs ->
  concat bs = t1 ++ CallCreatePersistentVolumeClaim pvc :: t2 ->
  CallDeletePersistentVolumeClaim pvc ∈ t1
  ∧ ∃ o pvc0, P o ∧ pvc = newPvcOf o pvc0.
Proof.
  intros HF. revert t1. induction HF as [|b bs (o & Ho & Hb) HF IH]; intros t1.
  { by destruct t1. }
  cbn [concat]. intros Heq. apply app_eq_app in Heq as (l & [[Hb1 Hb2]|[Hb1 Hb2]]).
  - destruct l as [|c l'].
    + cbn in Hb2. symmetry in Hb2. destruct (IH [] Hb2) as [Hin _].
      by apply elem_of_nil in Hin.
    + injection Hb2 as <- _. subst b.
      destruct Hb as [Hb|(pvc0 & t & Hb & Hp)].
      * destruct t1 as [|? [|? ?]]; by injection Hb.
      * destruct t1 as [|c1 [|c2 t1']]; try by injection Hb.
        injection Hb as -> -> Ht.
        assert (Hin : CallCreatePersistentVolumeClaim pvc
                        ∈ retryCalls (newPvcOf o pvc0) 10 12).
        { subst t. destruct Hp as [k ->]. rewrite <- app_assoc.
          apply elem_of_app. right. left. }
        apply retryCalls_elem in Hin as [[= ->]|[=]].
        split; [right; left|]. by exists o, pvc0.
  - subst t1. destruct (IH l Hb2) as [Hin Hex].
    split; [apply elem_of_app; by right|done].
Qed.

(** X7.  Every claim that [rebuildVolume] creates is a clean request for
    a candidate: no volume name, no status, no finalizer, no deletion
    mark, the namespace and name of a candidate's claim; and the delete
    of that same claim was issued before the create. *)
Theorem created_claims_are_clean (vom : gmap string ObjectKey) (s : St W)
    t1 pvc t2 :
  newCalls s (rebuildVolume vom s).2
  = t1 ++ CallCreatePersistentVolumeClaim pvc :: t2 ->
  CallDeletePersistentVolumeClaim pvc ∈ t1
  ∧ pvcs_VolumeName (pvc_Spec pvc) = ""
  ∧ pvc_Status_Phase pvc = ""
  ∧ pvc_Finalizers pvc = []
  ∧ pvc_DeletionTimestamp pvc = None
  ∧ ∃ key, vom !! key = Some (MkObjectKey (pvc_Namespace pvc) (pvc_Name pvc)).
Proof.
  rewrite rebuildVolume_state.
  destruct (rebuildLoop_blocks (range_map vom) s) as (bs & Hbs & HF).
  rewrite (newCalls_app s _ _ Hbs). intros Heq.
  destruct (blocks_create_after_delete _ bs t1 pvc t2 HF Heq)
    as (Hdel & o & pvc0 & Ho & ->).
  split; [done|]. split_and!; try done.
  apply list_elem_of_fmap in Ho as ([key o'] & -> & Hin).
  exists key. rewrite newPvcOf_claim. by apply range_map_elem.
Qed.

End CompletionProofs.

(** ** Volume rebuild: the second cluster *)

Section RebuildScenario2Proofs.
Import Fake NodeReconciler NodePlan NodePlan2 RebuildScenario2.

Lemma healthy_volume_not_rebuilt_witness :
  ListLogicVolume (world start) = (Ok (lvs cluster), cluster)
  ∧ ListNode cluster = (Ok (nodes cluster), cluster)
  ∧ ListPersistentVolume None cluster = (Ok (pvs cluster), cluster)
  ∧ NoDup (lv_Name <$> lvs cluster)
  ∧ NoDup (node_Name <$> nodes cluster)
  ∧ lvHealthy ∈ lvs cluster
  ∧ node1 ∈ nodes cluster
  ∧ node_Name node1 = lv_Spec_NodeName lvHealthy
  ∧ node_DeletionTimestamp node1 = None
  ∧ node_Status_Phase node1 ≠ NodeTerminated
  ∧ lv_Status_Status lvHealthy = "Success"
  ∧ lv_Name lvHealthy ∈ pv_Name <$> pvs cluster
  ∧ ∃ m err s',
      getNeedRebuildVolume start = (Val (m, err), s')
      ∧ m !! lv_Name lvHealthy = None
      ∧ (∀ c, c ∈ newCalls start s' -> lv_Name lvHealthy ∉ logicVolumeNames c).
Proof.
  assert (H1 : ListLogicVolume (world start) = (Ok (lvs cluster), cluster))
    by reflexivity.
  assert (H2 : ListNode cluster = (Ok (nodes cluster), cluster)) by reflexivity.
  assert (H3 : ListPersistentVolume None cluster = (Ok (pvs cluster), cluster))
    by reflexivity.
  assert (H4 : NoDup (lv_Name <$> lvs cluster)) by compute_done.
  assert (H5 : NoDup (node_Name <$> nodes cluster)) by compute_done.
  assert (H6 : lvHealthy ∈ lvs cluster) by compute_done.
  assert (H7 : node1 ∈ nodes cluster) by compute_done.
  assert (H8 : node_Name node1 = lv_Spec_NodeName lvHealthy) by reflexivity.
  assert (H9 : node_DeletionTimestamp node1 = None) by reflexivity.
  assert (H10 : node_Status_Phase node1 ≠ NodeTerminated) by discriminate.
  assert (H11 : lv_Status_Status lvHealthy = "Success") by reflexivity.
  assert (H12 : lv_Name lvHealthy ∈ pv_Name <$> pvs cluster) by compute_done.
  repeat (split; [assumption|]).
  exact (healthy_volume_not_rebuilt start (lvs cluster) cluster (nodes cluster)
           cluster (pvs cluster) cluster lvHealthy node1
           H1 H2 H3 H4 H5 H6 H7 H8 H9 H10 H11 H12).
Defined.

Lemma cached_volume_not_rebuilt_witness :
  ListLogicVolume (world start) = (Ok (lvs cluster), cluster)
  ∧ ListNode cluster = (Ok (nodes cluster), cluster)
  ∧ ListPersistentVolume None cluster = (Ok (pvs cluster), cluster)
  ∧ NoDup (lv_Name <$> lvs cluster)
  ∧ lvCached ∈ lvs cluster
  ∧ is_Some (cacheNoDeleteLv (self start) !! lv_Name lvCached)
  ∧ lv_Status_Status lvCached = "Success"
  ∧ lv_Name lvCached ∈ pv_Name <$> pvs cluster
  ∧ ∃ m err s',
      getNeedRebuildVolume start = (Val (m, err), s')
      ∧ m !! lv_Name lvCached = None
      ∧ (∀ c, c ∈ newCalls start s' -> lv_Name lvCached ∉ logicVolumeNames c).
Proof.
  assert (H1 : ListLogicVolume (world start) = (Ok (lvs cluster), cluster))
    by reflexivity.
  assert (H2 : ListNode cluster = (Ok (nodes cluster), cluster)) by reflexivity.
  assert (H3 : ListPersistentVolume None cluster = (Ok (pvs cluster), cluster))
    by reflexivity.
  assert (H4 : NoDup (lv_Name <$> lvs cluster)) by compute_done.
  assert (H5 : lvCached ∈ lvs cluster) by compute_done.
  assert (H6 : is_Some (cacheNoDeleteLv (self start) !! lv_Name lvCached))
    by (by eexists).
  assert (H7 : lv_Status_Status lvCached = "Success") by reflexivity.
  assert (H8 : lv_Name lvCached ∈ pv_Name <$> pvs cluster) by compute_done.
  repeat (split; [assumption|]).
  exact (cached_volume_not_rebuilt start (lvs cluster) cluster (nodes cluster)
           cluster (pvs cluster) cluster lvCached H1 H2 H3 H4 H5 H6 H7 H8).
Defined.

Lemma unfinished_volume_always_selected_witness :
  ListLogicVolume (world start) = (Ok (lvs cluster), cluster)
  ∧ ListNode cluster = (Ok (nodes cluster), cluster)
  ∧ ListPersistentVolume None cluster = (Ok (pvs cluster), cluster)
  ∧ NoDup (lv_Name <$> lvs cluster)
  ∧ lvPending ∈ lvs cluster
  ∧ lv_OwnerReferences lvPending = []
  ∧ lv_Status_Status lvPending ≠ "Success"
  ∧ (lv_Status_Status lvPending = ""
     ∨ lv_Name lvPending ∈ pv_Name <$> pvs cluster)
  ∧ getNeedRebuildVolume start = (Val (candidates, None), afterSelection)
  ∧ (candidates !! lv_Name lvPending
     = Some (MkObjectKey (lv_Spec_NameSpace lvPending) (lv_Spec_Pvc lvPending))
     ∧ (utils.LogicVolumeFinalizer ∈ lv_Finalizers lvPending ->
        CallPatchLogicVolume (stripFinalizer lvPending) lvPending
          ∈ newCalls start afterSelection)
     ∧ (∀ lv', lv_Name lv' = lv_Name lvPending ->
          CallDeleteLogicVolume lv' ∉ newCalls start afterSelection)).
Proof.
  assert (H1 : ListLogicVolume (world start) = (Ok (lvs cluster), cluster))
    by reflexivity.
  assert (H2 : ListNode cluster = (Ok (nodes cluster), cluster)) by reflexivity.
  assert (H3 : ListPersistentVolume None cluster = (Ok (pvs cluster), cluster))
    by reflexivity.
  assert (H4 : NoDup (lv_Name <$> lvs cluster)) by compute_done.
  assert (H5 : lvPending ∈ lvs cluster) by compute_done.
  assert (H6 : lv_OwnerReferences lvPending = []) by reflexivity.
  assert (H7 : lv_Status_Status lvPending ≠ "Success") by discriminate.
  assert (H8 : lv_Status_Status lvPending = ""
               ∨ lv_Name lvPending ∈ pv_Name <$> pvs cluster)
    by (left; reflexivity).
  assert (H9 : getNeedRebuildVolume start = (Val (candidates, None), afterSelection))
    by compute_done.
  repeat (split; [assumption|]).
  exact (unfinished_volume_always_selected start (lvs cluster) cluster
           (nodes cluster) cluster (pvs cluster) cluster lvPending candidates
           afterSelection H1 H2 H3 H4 H5 H6 H7 H8 H9).
Defined.

Lemma empty_cluster_pass_witness :
  ListLogicVolume (world idle) = (Ok [], Fake.empty)
  ∧ resourceReconcile idle
    = (Val None, MkSys (self idle) Fake.empty (trace idle ++ [CallListLogicVolume])).
Proof.
  assert (H1 : ListLogicVolume (world idle) = (Ok [], Fake.empty)) by reflexivity.
  split; [assumption|].
  exact (empty_cluster_pass idle Fake.empty H1).
Defined.

Lemma completed_rebuild_covers_candidates_witness :
  rebuildVolume candidates afterSelection = (Val None, afterRebuild)
  ∧ (∀ key o, candidates !! key = Some o ->
       is_Some (cacheNoDeleteLv (self afterRebuild) !! key)
       ∨ ∃ pvc, CallCreatePersistentVolumeClaim (newPvcOf o pvc)
                  ∈ newCalls afterSelection afterRebuild)
  ∧ (∀ k, is_Some (cacheNoDeleteLv (self afterSelection) !! k) ->
          is_Some (cacheNoDeleteLv (self afterRebuild) !! k)).
Proof.
  assert (H1 : rebuildVolume candidates afterSelection = (Val None, afterRebuild))
    by compute_done.
  split; [assumption|].
  exact (completed_rebuild_covers_candidates candidates afterSelection
           afterRebuild H1).
Defined.

Lemma created_claims_are_clean_witness :
  newCalls classless (rebuildVolume classlessCandidates classless).2
  = [CallGetPersistentVolumeClaim keyClassless;
     CallDeletePersistentVolumeClaim (newPvcOf keyClassless claimClassless)]
    ++ CallCreatePersistentVolumeClaim (newPvcOf keyClassless claimClassless)
    :: drop 3 (newCalls classless (rebuildVolume classlessCandidates classless).2)
  ∧ (CallDeletePersistentVolumeClaim (newPvcOf keyClassless claimClassless)
       ∈ [CallGetPersistentVolumeClaim keyClassless;
          CallDeletePersistentVolumeClaim (newPvcOf keyClassless claimClassless)]
     ∧ pvcs_VolumeName (pvc_Spec (newPvcOf keyClassless claimClassless)) = ""
     ∧ pvc_Status_Phase (newPvcOf keyClassless claimClassless) = ""
     ∧ pvc_Finalizers (newPvcOf keyClassless claimClassless) = []
     ∧ pvc_DeletionTimestamp (newPvcOf keyClassless claimClassless) = None
     ∧ ∃ key, classlessCandidates !! key
              = Some (MkObjectKey
                        (pvc_Namespace (newPvcOf keyClassless claimClassless))
                        (pvc_Name (newPvcOf keyClassless claimClassless)))).
Proof.
  assert (H1 : newCalls classless (rebuildVolume classlessCandidates classless).2
    = [CallGetPersistentVolumeClaim keyClassless;
       CallDeletePersistentVolumeClaim (newPvcOf keyClassless claimClassless)]
      ++ CallCreatePersistentVolumeClaim (newPvcOf keyClassless claimClassless)
      :: drop 3 (newCalls classless (rebuildVolume classlessCandidates classless).2))
    by compute_done.
  split; [assumption|].
  exact (created_claims_are_clean classlessCandidates classless _ _ _ H1).
Defined.

End RebuildScenario2Proofs.

Section BrokenNodeProofs.
Import Fake NodeReconciler Broken.

Lemma list_failure_aborts_pass_witness :
  (∃ w1, ListLogicVolume (world Broken.node) = (Err Broken.Unavailable, w1))
  ∧ (resourceReconcile Broken.node).1 = Val (Some Broken.Unavailable)
  ∧ Forall isListCall (newCalls Broken.node (resourceReconcile Broken.node).2)
  ∧ self (resourceReconcile Broken.node).2 = self Broken.node.
Proof.
  assert (H1 : ∃ w1, ListLogicVolume (world Broken.node)
                     = (Err Broken.Unavailable, w1))
    by (by exists tt).
  split; [assumption|].
  exact (list_failure_aborts_pass Broken.node Broken.Unavailable (or_introl H1)).
Defined.

End BrokenNodeProofs.

(** ** Throttle controller: what [Reconcile] returns *)

Section ReconcileProofs.
Import PodReconciler ThrottlePlan ThrottlePlan2.
Context {W : Type} `{!Client W} `{!Host W} `{!utils.Constants} `{!MapRange}.

(** X8.  When the fetch of the pod fails, [Reconcile] ends after that one
    call: with success when the error says the pod is not found, with the
    error of the fetch otherwise. *)
Theorem failed_fetch_ends_reconcile (s : St W) req e w1 :
  GetPod req (world s) = (Err e, w1) ->
  Reconcile req s
  = (Val (Result0, if IsNotFound e then None else Some e),
     MkSys (self s) w1 (trace s ++ [CallGetPod req])).
Proof.
  intros HG. unfold Reconcile, bind, r_GetPod, call. rewrite HG.
  by destruct (IsNotFound e).
Qed.

Lemma SinglePodCGroupConfig_value pod (s s' : St W) err :
  SinglePodCGroupConfig pod s = (Val err, s') -> err = None.
Proof.
  unfold SinglePodCGroupConfig, bind, ret.
  destruct (forRange _ _ _ s) as [[f|msg] s1]; [|done].
  destruct (writeCgroupBlkioFile _ s1) as [[[]|msg] s2]; [|done].
  by intros [= <- _].
Qed.

Lemma waitRunning_return n req pod (s s' : St W) r :
  waitRunning n req pod s = (Val (Return r), s') -> r = (Result0, None).
Proof.
  revert s. induction n as [|n IH]; intros s; [done|].
  cbn [waitRunning]. case_bool_decide; [done|].
  unfold bind, time_Sleep, r_GetPod, call. cbn [world self trace].
  destruct (GetPod req (Sleep 30 (world s))) as [[pod'|e] w1].
  - unfold ret. by intros [= <- _].
  - apply IH.
Qed.

(** X9.  [Reconcile] never asks for a requeue, and the only error it
    returns is that of the first fetch of the pod: nothing that goes wrong
    while the device of a volume is resolved or a limit is written makes
    it return an error. *)
Theorem reconcile_reports_only_fetch_errors (s s' : St W) req res err :
  Reconcile req s = (Val (res, err), s') ->
  res = Result0
  ∧ (∀ e, err = Some e ->
       ∃ w1, GetPod req (world s) = (Err e, w1)
             ∧ IsNotFound e = false
             ∧ s' = MkSys (self s) w1 (trace s ++ [CallGetPod req])).
Proof.
  unfold Reconcile, bind at 1, r_GetPod at 1, call at 1.
  destruct (GetPod req (world s)) as [[pod|e0] w1] eqn:HG.
  - case_bool_decide.
    { unfold ret. intros [= <- <- _]. split; [done|]. by intros e [=]. }
    unfold bind at 1.
    destruct (waitRunning 5 req pod _) as [[[pod'|r]|msg] s1] eqn:E; [| |done].
    + unfold bind.
      destruct (SinglePodCGroupConfig pod' s1) as [[err'|msg] s2] eqn:E2; [|done].
      rewrite (SinglePodCGroupConfig_value _ _ _ _ E2). unfold ret.
      intros [= <- <- _]. split; [done|]. by intros e [=].
    + rewrite (waitRunning_return _ _ _ _ _ _ E). unfold ret.
      intros [= <- <- _]. split; [done|]. by intros e [=].
  - destruct (IsNotFound e0) eqn:HN; unfold ret; intros [= <- <- <-].
    + split; [done|]. by intros e [=].
    + split; [done|]. intros e [= <-]. by exists w1.
Qed.

Lemma waitRunning_successful_poll budget n req pod (s : St W) w' pod' w2 :
  pod_Status_Phase pod ≠ PodRunning ->
  (n < budget)%nat ->
  failedPolls req n (world s) = Some w' ->
  GetPod req (Sleep 30 w') = (Ok pod', w2) ->
  waitRunning budget req pod s
  = (Val (Return (Result0, None)),
     MkSys (self s) w2
       (trace s ++ pollCalls req n ++ [CallSleep 30; CallGetPod req])).
Proof.
  intros Hph. revert budget s. induction n as [|n IH]; intros budget s Hlt Hp HG.
  - destruct budget as [|budget]; [lia|]. cbn in Hp. injection Hp as <-.
    cbn [waitRunning pollCalls app]. rewrite bool_decide_eq_false_2 by done.
    unfold bind, time_Sleep, r_GetPod, call, ret. cbn [world self trace].
    rewrite HG. by rewrite <- !app_assoc.
  - destruct budget as [|budget]; [lia|]. cbn [failedPolls] in Hp.
    cbn [waitRunning pollCalls]. rewrite bool_decide_eq_false_2 by done.
    unfold bind, time_Sleep, r_GetPod, call. cbn [world self trace].
    destruct (GetPod req (Sleep 30 (world s))) as [[pod1|e] w1]; [done|].
    rewrite (IH budget (MkSys (self s) w1 ((trace s ++ [CallSleep 30])
                                            ++ [CallGetPod req]))
               ltac:(lia) Hp HG).
    cbn [self trace]. by rewrite <- !app_assoc.
Qed.

(** X10.  For a pod that is not running when first fetched, the polling
    loop goes on only while the fetches fail: after [n] failed polls
    ([n < 5]), a poll that fetches the pod makes [Reconcile] return
    success at once, whatever the phase of the pod now is.  No limit is
    configured: the calls of the run are the fetches and the sleeps of
    thirty seconds. *)
Theorem successful_poll_ends_reconcile (s : St W) req pod w1 n w' pod' w2 :
  GetPod req (world s) = (Ok pod, w1) ->
  pod_DeletionTimestamp pod = None ->
  pod_Status_Phase pod ≠ PodRunning ->
  (n < 5)%nat ->
  failedPolls req n w1 = Some w' ->
  GetPod req (Sleep 30 w') = (Ok pod', w2) ->
  Reconcile req s
  = (Val (Result0, None),
     MkSys (self s) w2
       (trace s ++ CallGetPod req :: pollCalls req n
                ++ [CallSleep 30; CallGetPod req])).
Proof.
  intros HG Hdel Hph Hn Hp HG2.
  unfold Reconcile, bind at 1, r_GetPod at 1, call at 1. rewrite HG.
  rewrite bool_decide_eq_false_2 by (by rewrite Hdel; intros ?).
  unfold bind.
  rewrite (waitRunning_successful_poll 5 n req pod
             (MkSys (self s) w1 (trace s ++ [CallGetPod req]))
             w' pod' w2 Hph Hn Hp HG2).
  unfold ret. cbn [self trace]. by rewrite <- !app_assoc.
Qed.

(** X11.  When the pod is not running at the first fetch and the five
    polls all fail to fetch it, [Reconcile] configures the limits of the
    pod as first fetched, after five sleeps of thirty seconds, and returns
    what the configuration returns. *)
Theorem unfetchable_pod_configured_as_first_fetched (s : St W) req pod w1 w' :
  GetPod req (world s) = (Ok pod, w1) ->
  pod_DeletionTimestamp pod = None ->
  pod_Status_Phase pod ≠ PodRunning ->
  failedPolls req 5 w1 = Some w' ->
  Reconcile req s
  = (resultOf (SinglePodCGroupConfig pod
                 (MkSys (self s) w'
                    (trace s ++ CallGetPod req :: pollCalls req 5))).1,
     (SinglePodCGroupConfig pod
        (MkSys (self s) w' (trace s ++ CallGetPod req :: pollCalls req 5))).2).
Proof.
  intros HG Hdel Hph Hp.
  unfold Reconcile, bind at 1, r_GetPod at 1, call at 1. rewrite HG.
  rewrite bool_decide_eq_false_2 by (by rewrite Hdel; intros ?).
  unfold bind at 1.
  rewrite (waitRunning_failed_polls 5 req pod _ w' Hph) by done.
  cbn [self trace]. rewrite <- app_assoc. cbn [app].
  unfold bind.
  destruct (SinglePodCGroupConfig pod _) as [[err|msg] s'] eqn:E; [|done].
  by rewrite (SinglePodCGroupConfig_value _ _ _ _ E).
Qed.

End ReconcileProofs.

(** ** Throttle controller: the calls it makes *)

Section CallProofs.
Import PodReconciler ThrottlePlan ThrottlePlan2.
Context {R W : Type}.

Lemma emitsWith_ret {A} (P : Call -> Prop) (Q : A -> Prop) (a : A) :
  Q a -> emitsWith (R:=R) (W:=W) P Q (ret a).
Proof.
  intros Ha s. exists []. rewrite app_nil_r. split_and!; [done|done|].
  by intros a' [= <-].
Qed.

Lemma emitsWith_panic {A} (P : Call -> Prop) (Q : A -> Prop) msg :
  emitsWith (R:=R) (W:=W) P Q (panic msg).
Proof. intros s. exists []. by rewrite app_nil_r. Qed.

Lemma emitsWith_call {A} (P : Call -> Prop) c (op : W -> A * W) :
  P c -> emitsWith (R:=R) P (fun _ => True) (call c op).
Proof.
  intros Hc s. exists [c]. unfold call. destruct (op (world s)).
  split_and!; [done|by constructor|done].
Qed.

Lemma emitsWith_bind {A B} (P : Call -> Prop) (Q : A -> Prop) (Q' : B -> Prop)
    (m : M (Sys R W) A) (k : A -> M (Sys R W) B) :
  emitsWith P Q m -> (∀ a, Q a -> emitsWith P Q' (k a)) ->
  emitsWith P Q' (bind m k).
Proof.
  intros Hm Hk s. destruct (Hm s) as (t1 & Ht1 & HF1 & HQ). unfold bind.
  destruct (m s) as [[a|msg] s1]; cbn [fst snd] in *.
  - destruct (Hk a (HQ a eq_refl) s1) as (t2 & Ht2 & HF2 & HQ').
    exists (t1 ++ t2). rewrite Ht2, Ht1, <- app_assoc. split; [done|].
    split; [by apply Forall_app|done].
  - exists t1. split_and!; done.
Qed.

Lemma emitsWith_forRange {A L Ret} (P : Call -> Prop) (I : L -> Prop)
    (body : A -> L -> M (Sys R W) (Flow L Ret)) xs :
  (∀ x l, x ∈ xs -> I l -> emitsWith P (nextWith I) (body x l)) ->
  ∀ l, I l -> emitsWith P (nextWith I) (forRange body xs l).
Proof.
  induction xs as [|x xs IH]; intros Hb l Hl; cbn [forRange].
  - by apply emitsWith_ret.
  - apply (emitsWith_bind P (nextWith I)); [apply Hb; [left|done]|].
    intros [l'|r] Hf; [|by apply emitsWith_ret].
    apply IH; [|done]. intros x' l'' Hx'. apply Hb. by right.
Qed.

Lemma emitsWith_weaken {A} (P P' : Call -> Prop) (Q Q' : A -> Prop)
    (m : M (Sys R W) A) :
  (∀ c, P c -> P' c) -> (∀ a, Q a -> Q' a) ->
  emitsWith P Q m -> emitsWith P' Q' m.
Proof.
  intros HP HQ Hm s. destruct (Hm s) as (t & Ht & HF & Ha).
  exists t. split_and!; [done|by eapply Forall_impl|]. intros a E. by apply HQ, Ha.
Qed.

Lemma emitsWith_emits {A} (P : Call -> Prop) (Q : A -> Prop) (m : M (Sys R W) A) :
  emitsWith P Q m -> emits P m.
Proof. intros Hm s. destruct (Hm s) as (t & Ht & HF & _). by exists t. Qed.

End CallProofs.

Section DisciplineProofs.
Import PodReconciler ThrottlePlan ThrottlePlan2.
Context {W : Type} `{!Client W} `{!Host W} `{!utils.Constants} `{!MapRange}.

Lemma fillSingle_fields pod k c :
  name (fillSingle pod k c) = name c ∧ cpath (fillSingle pod k c) = cpath c
  ∧ oldBlkio (fillSingle pod k c) = oldBlkio c.
Proof. unfold fillSingle. by destruct (pod_Annotations pod !! annotationKey c). Qed.

Lemma blkioKeyOf_lookups p v (Q : option string -> Prop) :
  (∀ k, Q k) -> emitsWith (R:=T) (W:=W) throttleCall Q (blkioKeyOf p v).
Proof.
  intros HQ. unfold blkioKeyOf.
  destruct (vol_PersistentVolumeClaim v); [|by apply emitsWith_ret].
  apply (emitsWith_bind _ (fun _ => True)); [by apply emitsWith_call|].
  intros [[|pv [|? ?]]|e] _; try (by apply emitsWith_ret).
  destruct (pv_Spec_CSI pv); [|apply emitsWith_panic].
  case_bool_decide; by apply emitsWith_ret.
Qed.

Lemma volumeBody_discipline fill p v cb :
  (∀ p k c, cpath (fill p k c) = cpath c) ->
  onLimitPaths cb ->
  emitsWith (R:=T) (W:=W) throttleCall (nextWith onLimitPaths)
    (volumeBody fill p v cb).
Proof.
  intros Hfill Hcb. unfold volumeBody.
  apply (emitsWith_bind _ (fun _ => True)); [by apply blkioKeyOf_lookups|].
  intros [k|] _; apply emitsWith_ret; cbn; [|done].
  unfold onLimitPaths. rewrite Forall_fmap.
  eapply Forall_impl; [exact Hcb|]. intros c Hc. cbn. by rewrite Hfill.
Qed.




Lemma writeCgroupBlkioFile_discipline cp (Q : unit -> Prop) :
  Q tt -> onLimitPaths cp ->
  emitsWith (R:=T) (W:=W) throttleCall Q (writeCgroupBlkioFile cp).
Proof.
  intros HQ Hcp s.
  destruct (writeCgroupBlkioFile_spec cp s) as (s' & E & _ & Ht).
  exists (concat (execCalls <$> cp)). rewrite E. split; [done|].
  split; [|by intros []].
  apply Forall_forall. intros c (a & Ha & Hc)%concat_fmap_elem.
  unfold execCalls in Hc. apply list_elem_of_fmap in Hc as ([k v] & -> & _).
  cbn. unfold onLimitPaths in Hcp. rewrite Forall_forall in Hcp. by apply Hcp.
Qed.

Lemma SinglePodCGroupConfig_discipline pod :
  emitsWith (R:=T) (W:=W) throttleCall (fun _ => True) (SinglePodCGroupConfig pod).
Proof.
  unfold SinglePodCGroupConfig.
  apply (emitsWith_bind _ (nextWith onLimitPaths)).
  - apply emitsWith_forRange.
    + intros v cb _ Hcb. apply volumeBody_discipline; [|done].
      intros p k c. apply fillSingle_fields.
    + unfold onLimitPaths. rewrite Forall_fmap. apply Forall_forall.
      intros v Hv. change (filepath_Join BlkIOCGroupPath v ∈ limitPaths).
      by apply list_elem_of_fmap_2.
  - intros [cb|[]] Hcb.
    apply (emitsWith_bind _ (fun _ => True));
      [by apply writeCgroupBlkioFile_discipline|].
    intros _ _. by apply emitsWith_ret.
Qed.



(** X13.  The full resync returns an error only when the list of the pods
    of the node fails, and then it has made no other call: nothing is read
    from or written to the host.  Otherwise it returns success, whatever
    happened to the lookups of the volumes and to the writes. *)
Theorem resync_reports_only_list_errors (s s' : St W) err :
  AllPodCGroupConfig s = (Val err, s') ->
  match err with
  | Some e =>
      ListPod (utils.CarinaSchedule +:+ "-" +:+ NodeName (self s)) (world s)
      = (Err e, world s')
      ∧ newCalls s s'
        = [CallListPod (utils.CarinaSchedule +:+ "-" +:+ NodeName (self s))]
  | None =>
      ∃ podList w1,
        ListPod (utils.CarinaSchedule +:+ "-" +:+ NodeName (self s)) (world s)
        = (Ok podList, w1)
  end.
Proof.
  unfold AllPodCGroupConfig, bind at 1, gets at 1, bind at 1, r_ListPod, call.
  destruct (ListPod _ (world s)) as [[podList|e] w1] eqn:HL.
  - unfold bind.
    destruct (readCGroupBlkioFile _) as [[cb0|msg] s1]; [|done].
    destruct (forRange podBody podList cb0 s1) as [[f|msg] s2]; [|done].
    destruct (writeCgroupBlkioFile _ s2) as [[[]|msg] s3]; [|done].
    unfold ret. intros [= <- _]. by exists podList, w1.
  - unfold ret. intros [= <- <-]. cbn [world]. split; [done|].
    by apply newCalls_app.
Qed.

End DisciplineProofs.

(** ** Throttle controller: the limits that are written *)

Section WriteProofs.
Import PodReconciler ThrottlePlan ThrottlePlan2.
Context {W : Type} `{!Client W} `{!Host W} `{!utils.Constants} `{!MapRange}.

Lemma filledSingle_fields pod keys c :
  name (filledSingle pod keys c) = name c
  ∧ cpath (filledSingle pod keys c) = cpath c
  ∧ oldBlkio (filledSingle pod keys c) = oldBlkio c.
Proof.
  unfold filledSingle. revert c. induction keys as [|k keys IH]; intros c; [done|].
  cbn [foldl]. destruct (IH (fillSingle pod k c)) as (-> & -> & ->).
  apply fillSingle_fields.
Qed.

Lemma filledSingle_snoc pod keys k c :
  filledSingle pod (keys ++ [k]) c = fillSingle pod k (filledSingle pod keys c).
Proof. unfold filledSingle. by rewrite foldl_app. Qed.

Lemma fillSingle_lookup pod k1 c (k : string) :
  newBlkio (fillSingle pod k1 c) !! k
  = if decide (k1 = k) then Some (desiredValue pod (name c)) else newBlkio c !! k.
Proof.
  unfold fillSingle, desiredValue, annotationKey.
  destruct (pod_Annotations pod !! _); cbn [newBlkio set_newBlkio default];
    (destruct (decide (k1 = k)) as [->|Hne];
     [by rewrite lookup_insert_eq|by rewrite lookup_insert_ne]).
Qed.

Lemma filledSingle_lookup pod keys c (k : string) :
  newBlkio (filledSingle pod keys c) !! k
  = if decide (k ∈ keys) then Some (desiredValue pod (name c)) else newBlkio c !! k.
Proof.
  induction keys as [|k1 keys IH] using rev_ind.
  { by rewrite decide_False by apply not_elem_of_nil. }
  rewrite filledSingle_snoc, fillSingle_lookup, IH.
  destruct (filledSingle_fields pod keys c) as (-> & _ & _).
  destruct (decide (k1 = k)) as [->|Hne].
  - rewrite decide_True; [done|]. apply elem_of_app. right. left.
  - destruct (decide (k ∈ keys)) as [Hin|Hin].
    + rewrite decide_True; [done|]. apply elem_of_app. by left.
    + rewrite decide_False; [done|].
      intros [?|[?|?%elem_of_nil]%elem_of_cons]%elem_of_app; done.
Qed.

Lemma single_volumes_loop pod vols refs cb0 (s : St W) :
  forRange (volumeBody fillSingle pod) vols (filledSingle pod refs.*2 <$> cb0) s
  = match forRange (refBody pod) vols refs s with
    | (Val f, s') => (Val (Next (filledSingle pod (flowLocals f).*2 <$> cb0)), s')
    | (Panic msg, s') => (Panic msg, s')
    end.
Proof.
  revert refs s. induction vols as [|v vols IH]; intros refs s; [done|].
  cbn [forRange]. unfold volumeBody at 1, refBody at 1, bind.
  destruct (blkioKeyOf pod v s) as [[[k|]|msg] s1]; [| |done].
  - unfold ret.
    assert (fillSingle pod k <$> (filledSingle pod refs.*2 <$> cb0)
            = filledSingle pod (refs ++ [(pod, k)]).*2 <$> cb0) as ->; [|apply IH].
    rewrite <- list_fmap_compose. apply list_fmap_ext.
    intros i c _.
    change (fillSingle pod k (filledSingle pod refs.*2 c)
            = filledSingle pod (refs ++ [(pod, k)]).*2 c).
    rewrite fmap_app.
    change ((@fmap list _ _ _ snd [(pod, k)])) with [k].
    by rewrite filledSingle_snoc.
  - unfold ret. apply IH.
Qed.

Lemma refBody_lookups p v refs :
  emits (R:=T) (W:=W) isPvLookup (refBody p v refs).
Proof.
  unfold refBody. apply emits_bind.
  - unfold blkioKeyOf. destruct (vol_PersistentVolumeClaim v); [|apply emits_ret].
    apply emits_bind; [by apply emits_call|].
    intros [[|pv [|? ?]]|e]; try apply emits_ret.
    destruct (pv_Spec_CSI pv); [|apply emits_panic].
    case_bool_decide; apply emits_ret.
  - intros [k|]; apply emits_ret.
Qed.

Lemma dropUnchanged_fresh c (k : string) :
  oldBlkio c = ∅ -> dropUnchanged c !! k = newBlkio c !! k.
Proof.
  intros Hold. rewrite dropUnchanged_lookup, Hold.
  destruct (newBlkio c !! k); [|done]. by rewrite decide_False.
Qed.

(** The single-pod configuration, from the lookups to the writes. *)
Lemma SinglePodCGroupConfig_spec pod (s s1 : St W) refs :
  referencedDevices [pod] s = (Val refs, s1) ->
  ∃ s2 pre,
    SinglePodCGroupConfig pod s = (Val None, s2)
    ∧ newCalls s s2
      = pre ++ concat (execCalls <$> (filledSingle pod refs.*2 <$> freshLimits))
    ∧ Forall isPvLookup pre.
Proof.
  unfold referencedDevices. cbn [forRange]. unfold bind, refsOfPod, ret.
  intros H3.
  destruct (emits_forRange isPvLookup (refBody pod) (pod_Spec_Volumes pod)
              (refBody_lookups pod) [] s) as (pre & Hpre & HF).
  pose proof (single_volumes_loop pod (pod_Spec_Volumes pod) [] freshLimits s)
    as Hloop.
  destruct (forRange (refBody pod) (pod_Spec_Volumes pod) [] s)
    as [[[refs'|[]]|msg] s1'] eqn:E; [|done].
  injection H3 as <- <-. cbn [snd flowLocals] in *.
  assert (Hpre' : trace s1' = trace s ++ pre).
  { transitivity (trace (forRange (refBody pod) (pod_Spec_Volumes pod) [] s).2);
      [by rewrite E|exact Hpre]. }
  assert (Hid : filledSingle pod ([] : list (Pod * string)).*2 <$> freshLimits
                = freshLimits) by (by rewrite <- (list_fmap_id freshLimits) at 2).
  rewrite Hid in Hloop.
  destruct (writeCgroupBlkioFile_spec (filledSingle pod refs'.*2 <$> freshLimits) s1')
    as (s2 & E2 & _ & Ht2).
  exists s2, pre. split_and!; [|apply newCalls_app; by rewrite Ht2, Hpre', app_assoc|done].
  unfold SinglePodCGroupConfig, bind at 1. fold freshLimits. rewrite Hloop.
  cbn [flowLocals]. unfold bind, ret. by rewrite E2.
Qed.

Lemma freshLimits_paths pod keys :
  NoDup (cpath <$> (filledSingle pod keys <$> freshLimits)).
Proof.
  rewrite <- list_fmap_compose.
  rewrite (list_fmap_ext (cpath ∘ filledSingle pod keys) cpath freshLimits).
  - compute_done.
  - intros i c _. cbn. by destruct (filledSingle_fields pod keys c) as (_ & -> & _).
Qed.

(** The writes of the single-pod configuration. *)
Lemma SinglePodCGroupConfig_writes (s s1 : St W) pod refs :
  referencedDevices [pod] s = (Val refs, s1) ->
  ∃ s2,
    SinglePodCGroupConfig pod s = (Val None, s2)
    ∧ Forall (fun c => isPvLookup c ∨ isExecuteCall c) (newCalls s s2)
    ∧ (∀ kind k,
         kind ∈ limitKinds ->
         (k ∈ refs.*2 ->
          occurrences (CallExecuteCommand k (desiredValue pod kind)
                         (filepath_Join BlkIOCGroupPath kind)) (newCalls s s2)
          = 1%nat
          ∧ (∀ v, v ≠ desiredValue pod kind ->
               CallExecuteCommand k v (filepath_Join BlkIOCGroupPath kind)
                 ∉ newCalls s s2))
         ∧ (k ∉ refs.*2 ->
            ∀ v path, CallExecuteCommand k v path ∉ newCalls s s2)).
Proof.
  intros H1.
  destruct (SinglePodCGroupConfig_spec pod s s1 refs H1)
    as (s2 & pre & E & Hcalls & Hpre).
  exists s2. split; [done|]. rewrite Hcalls.
  assert (Hnot : ∀ k v path, CallExecuteCommand k v path ∉ pre).
  { intros k v path Hin. rewrite Forall_forall in Hpre. by apply (Hpre _ Hin). }
  pose proof (freshLimits_paths pod refs.*2) as Hnd.
  assert (Hlook : ∀ c' (k : string),
            c' ∈ filledSingle pod refs.*2 <$> freshLimits ->
            dropUnchanged c' !! k
            = if decide (k ∈ refs.*2) then Some (desiredValue pod (name c'))
              else None).
  { intros c' k (c & -> & Hc)%list_elem_of_fmap.
    apply list_elem_of_fmap in Hc as (kind & -> & _).
    destruct (filledSingle_fields pod refs.*2
                (Mkcgroupblkio kind (filepath_Join BlkIOCGroupPath kind) ∅ ∅))
      as (Hname & _ & Hold).
    rewrite dropUnchanged_fresh by (by rewrite Hold).
    by rewrite filledSingle_lookup, Hname. }
  split.
  { apply Forall_app. split.
    - eapply Forall_impl; [exact Hpre|]. by left.
    - apply Forall_forall. intros c (a & Ha & Hc)%concat_fmap_elem.
      unfold execCalls in Hc. apply list_elem_of_fmap in Hc as ([k v] & -> & _).
      by right. }
  intros kind k Hkind.
  set (c0 := Mkcgroupblkio kind (filepath_Join BlkIOCGroupPath kind) ∅ ∅).
  assert (Hc0 : filledSingle pod refs.*2 c0
                ∈ filledSingle pod refs.*2 <$> freshLimits).
  { apply list_elem_of_fmap_2. unfold freshLimits.
    by apply (list_elem_of_fmap_2
                (fun v => Mkcgroupblkio v (filepath_Join BlkIOCGroupPath v) ∅ ∅)). }
  destruct (filledSingle_fields pod refs.*2 c0) as (Hname & Hpath & _).
  cbn [name cpath c0] in Hname, Hpath.
  split.
  - intros Hk. split.
    + rewrite occurrences_app, (occurrences_zero _ pre) by apply Hnot.
      rewrite <- Hpath, occurrences_writes by done.
      rewrite (Hlook _ k Hc0), Hname.
      rewrite (decide_True (P := k ∈ refs.*2)) by done.
      by rewrite decide_True.
    + intros v Hv [Hin|Hin]%elem_of_app; [by apply (Hnot k v _) in Hin|].
      apply concat_fmap_elem in Hin as (c'' & Hc'' & [Hp Hd]%execCalls_elem).
      assert (c'' = filledSingle pod refs.*2 c0) as ->.
      { apply (paths_unique (filledSingle pod refs.*2 <$> freshLimits));
          try done. congruence. }
      rewrite (Hlook _ k Hc0), Hname in Hd.
      rewrite (decide_True (P := k ∈ refs.*2)) in Hd by done.
      by injection Hd as <-.
  - intros Hk v path [Hin|Hin]%elem_of_app; [by apply (Hnot k v path)|].
    apply concat_fmap_elem in Hin as (c'' & Hc'' & [_ Hd]%execCalls_elem).
    by rewrite (Hlook _ k Hc''), decide_False in Hd.
Qed.

(** X14.  [SinglePodCGroupConfig] does not read the host: it starts from
    an empty previous state.  So for every device that the volumes of the
    pod resolve to and every one of the four limit kinds, it writes the
    device exactly once to the pseudo-file of the kind, with the override
    of the pod for the kind or with [0] when the pod has none, whether or
    not that is the limit in force; a device the pod does not use is not
    written.  It always returns success. *)
Theorem single_pod_config_writes_every_kind (s s1 : St W) pod refs :
  referencedDevices [pod] s = (Val refs, s1) ->
  ∃ s2,
    SinglePodCGroupConfig pod s = (Val None, s2)
    ∧ Forall (fun c => isPvLookup c ∨ isExecuteCall c) (newCalls s s2)
    ∧ (∀ kind k,
         kind ∈ limitKinds ->
         (k ∈ refs.*2 ->
          occurrences (CallExecuteCommand k (desiredValue pod kind)
                         (filepath_Join BlkIOCGroupPath kind)) (newCalls s s2)
          = 1%nat
          ∧ (∀ v, v ≠ desiredValue pod kind ->
               CallExecuteCommand k v (filepath_Join BlkIOCGroupPath kind)
                 ∉ newCalls s s2))
         ∧ (k ∉ refs.*2 ->
            ∀ v path, CallExecuteCommand k v path ∉ newCalls s s2)).
Proof. apply SinglePodCGroupConfig_writes. Qed.

(** X15.  A pod that is running when fetched is configured at once:
    [Reconcile] makes the fetch, does not sleep or fetch again, resolves
    the volumes of the pod and, for every device they resolve to and every
    one of the four limit kinds, writes the device once with the override
    of the pod or with [0]; it returns success. *)
Theorem running_pod_configured_at_once (s s1 : St W) req pod w1 refs :
  GetPod req (world s) = (Ok pod, w1) ->
  pod_DeletionTimestamp pod = None ->
  pod_Status_Phase pod = PodRunning ->
  referencedDevices [pod] (MkSys (self s) w1 (trace s ++ [CallGetPod req]))
  = (Val refs, s1) ->
  ∃ s2 t,
    Reconcile req s = (Val (Result0, None), s2)
    ∧ newCalls s s2 = CallGetPod req :: t
    ∧ Forall (fun c => isPvLookup c ∨ isExecuteCall c) t
    ∧ (∀ kind k,
         kind ∈ limitKinds -> k ∈ refs.*2 ->
         occurrences (CallExecuteCommand k (desiredValue pod kind)
                        (filepath_Join BlkIOCGroupPath kind)) t
         = 1%nat).
Proof.
  intros HG Hdel Hph Hrefs.
  set (mid := MkSys (self s) w1 (trace s ++ [CallGetPod req])) in *.
  destruct (SinglePodCGroupConfig_writes mid s1 pod refs Hrefs)
    as (s2 & E & HF & Hw).
  destruct (SinglePodCGroupConfig_spec pod mid s1 refs Hrefs)
    as (s2' & pre & E' & Hcalls & _).
  rewrite E in E'. injection E' as <-.
  exists s2, (newCalls mid s2). split_and!.
  - unfold Reconcile, bind at 1, r_GetPod at 1, call at 1. rewrite HG.
    rewrite bool_decide_eq_false_2 by (by rewrite Hdel; intros ?).
    cbn [waitRunning]. rewrite bool_decide_eq_true_2 by done.
    unfold bind, ret. fold mid. by rewrite E.
  - destruct (emitsWith_emits _ _ _ (SinglePodCGroupConfig_discipline pod) mid)
      as (t & Ht & _).
    rewrite E in Ht. cbn [snd] in Ht.
    rewrite (newCalls_app mid s2 t Ht).
    apply newCalls_app. rewrite Ht. subst mid. cbn [trace].
    by rewrite <- app_assoc.
  - done.
  - intros kind k Hkind Hk. by destruct (Hw kind k Hkind) as [[? _] _].
Qed.

Lemma filled_override r1 p k r2 c v :
  k ∉ r2.*2 ->
  pod_Annotations p !! annotationKey c = Some v ->
  newBlkio (filled (r1 ++ (p, k) :: r2) c) !! k = Some v.
Proof.
  intros Hk Hann. unfold filled. rewrite foldl_app. cbn [foldl fst snd].
  fold (filled r1 c). fold (filled r2 (fillAll p k (filled r1 c))).
  rewrite filled_unreferenced by done.
  unfold fillAll.
  assert (annotationKey (filled r1 c) = annotationKey c) as ->.
  { unfold annotationKey. by destruct (filled_fields r1 c) as (-> & _ & _). }
  rewrite Hann. cbn. apply lookup_insert_eq.
Qed.

Lemma filled_untouched refs c (k : string) :
  (∀ p, (p, k) ∈ refs -> pod_Annotations p !! annotationKey c = None) ->
  oldBlkio c !! k = None ->
  newBlkio (filled refs c) !! k = newBlkio c !! k.
Proof.
  intros Hann Hold.
  induction refs as [|[p k1] refs IH] using rev_ind; [done|].
  rewrite filled_snoc.
  assert (IH' : newBlkio (filled refs c) !! k = newBlkio c !! k).
  { apply IH. intros p' Hp'. apply Hann. apply elem_of_app. by left. }
  destruct (decide (k1 = k)) as [->|Hne].
  - unfold fillAll.
    assert (annotationKey (filled refs c) = annotationKey c) as ->.
    { unfold annotationKey. by destruct (filled_fields refs c) as (-> & _ & _). }
    rewrite Hann by (apply elem_of_app; right; left).
    destruct (filled_fields refs c) as (_ & _ & ->).
    rewrite bool_decide_eq_false_2; [done|].
    rewrite Hold. by intros [? [=]].
  - by rewrite fillAll_lookup_ne.
Qed.

(** X16.  In a full resync, the override of the pod that references a
    device last decides the limit of the device: it is written exactly
    once, and no other value is written for the device to that
    pseudo-file, whatever the pods that reference the device earlier ask
    for.  When the override repeats the value read from the pseudo-file,
    nothing is written for the device. *)
Theorem full_resync_applies_last_override (s s1 s2 s3 : St W) podList cb0
    r1 p k r2 c v :
  r_ListPod (utils.CarinaSchedule +:+ "-" +:+ NodeName (self s)) s
  = (Val (Ok podList), s1) ->
  readCGroupBlkioFile s1 = (Val cb0, s2) ->
  referencedDevices podList s2 = (Val (r1 ++ (p, k) :: r2), s3) ->
  c ∈ cb0 ->
  k ∉ r2.*2 ->
  pod_Annotations p !! annotationKey c = Some v ->
  ∃ s4,
    AllPodCGroupConfig s = (Val None, s4)
    ∧ occurrences (CallExecuteCommand k v (cpath c)) (newCalls s s4)
      = (if decide (oldBlkio c !! k = Some v) then 0%nat else 1%nat)
    ∧ (∀ v', v' ≠ v -> CallExecuteCommand k v' (cpath c) ∉ newCalls s s4).
Proof.
  intros H1 H2 H3 Hc Hk Hann.
  set (refs := r1 ++ (p, k) :: r2) in *.
  destruct (AllPodCGroupConfig_spec s s1 s2 s3 podList cb0 refs H1 H2 H3)
    as (s4 & pre & E & Hcalls & Hpre).
  destruct (readCGroupBlkioFile_spec s1 cb0 s2 H2) as (Hnew & Hnd & _).
  exists s4. split; [done|]. rewrite Hcalls.
  assert (Hnot : ∀ k v path, CallExecuteCommand k v path ∉ pre).
  { intros k0 v0 path Hin. rewrite Forall_forall in Hpre. by apply (Hpre _ Hin). }
  assert (Hnd' : NoDup (cpath <$> (filled refs <$> cb0))).
  { rewrite <- list_fmap_compose.
    rewrite (list_fmap_ext (cpath ∘ filled refs) cpath cb0); [done|].
    intros i c' _. cbn. by destruct (filled_fields refs c') as (_ & -> & _). }
  assert (Hc' : filled refs c ∈ filled refs <$> cb0) by (by apply list_elem_of_fmap_2).
  destruct (filled_fields refs c) as (_ & Hpath & Holdf).
  assert (Hdrop : dropUnchanged (filled refs c) !! k
                  = if decide (oldBlkio c !! k = Some v) then None else Some v).
  { rewrite dropUnchanged_lookup, Holdf. subst refs.
    by rewrite (filled_override r1 p k r2 c v Hk Hann). }
  split.
  - rewrite occurrences_app, (occurrences_zero _ pre) by apply Hnot.
    rewrite <- Hpath, occurrences_writes, Hdrop by done.
    destruct (decide (oldBlkio c !! k = Some v)).
    + by rewrite decide_False.
    + by rewrite decide_True.
  - intros v' Hv [Hin|Hin]%elem_of_app; [by apply (Hnot k v' (cpath c))|].
    apply concat_fmap_elem in Hin as (c'' & Hc'' & [Hp Hd]%execCalls_elem).
    assert (c'' = filled refs c) as ->.
    { apply (paths_unique (filled refs <$> cb0)); try done. congruence. }
    rewrite Hdrop in Hd. destruct (decide (oldBlkio c !! k = Some v)); [done|].
    by injection Hd as <-.
Qed.

(** X17.  In a full resync, a device that has no limit of a kind in the
    previous state and that is referenced only by pods without the
    override of that kind is left alone: nothing is written for it to the
    pseudo-file of the kind. *)
Theorem full_resync_leaves_unlimited_device (s s1 s2 s3 : St W) podList cb0
    refs c (k : string) :
  r_ListPod (utils.CarinaSchedule +:+ "-" +:+ NodeName (self s)) s
  = (Val (Ok podList), s1) ->
  readCGroupBlkioFile s1 = (Val cb0, s2) ->
  referencedDevices podList s2 = (Val refs, s3) ->
  c ∈ cb0 ->
  (∀ p, (p, k) ∈ refs -> pod_Annotations p !! annotationKey c = None) ->
  oldBlkio c !! k = None ->
  ∃ s4,
    AllPodCGroupConfig s = (Val None, s4)
    ∧ (∀ v, CallExecuteCommand k v (cpath c) ∉ newCalls s s4).
Proof.
  intros H1 H2 H3 Hc Hann Hold.
  destruct (AllPodCGroupConfig_spec s s1 s2 s3 podList cb0 refs H1 H2 H3)
    as (s4 & pre & E & Hcalls & Hpre).
  destruct (readCGroupBlkioFile_spec s1 cb0 s2 H2) as (Hnew & Hnd & _).
  exists s4. split; [done|]. rewrite Hcalls.
  assert (Hnd' : NoDup (cpath <$> (filled refs <$> cb0))).
  { rewrite <- list_fmap_compose.
    rewrite (list_fmap_ext (cpath ∘ filled refs) cpath cb0); [done|].
    intros i c' _. cbn. by destruct (filled_fields refs c') as (_ & -> & _). }
  assert (Hc' : filled refs c ∈ filled refs <$> cb0) by (by apply list_elem_of_fmap_2).
  destruct (filled_fields refs c) as (_ & Hpath & Holdf).
  intros v [Hin|Hin]%elem_of_app.
  { rewrite Forall_forall in Hpre. by apply (Hpre _ Hin). }
  apply concat_fmap_elem in Hin as (c'' & Hc'' & [Hp Hd]%execCalls_elem).
  assert (c'' = filled refs c) as ->.
  { apply (paths_unique (filled refs <$> cb0)); try done. congruence. }
  rewrite dropUnchanged_lookup, filled_untouched in Hd by done.
  rewrite Forall_forall in Hnew. by rewrite (Hnew c Hc), lookup_empty in Hd.
Qed.

End WriteProofs.

(** ** Throttle controller: the pseudo-file format and the indexes *)

Section FormatProofs.
Import PodReconciler ThrottlePlan ThrottlePlan2.
Context {W : Type} `{!Client W} `{!Host W} `{!utils.Constants} `{!MapRange}.








Lemma append_assoc (a b c : string) : (a +:+ b) +:+ c = a +:+ (b +:+ c).
Proof.
  induction a as [|x a IH]; [done|].
  change (String x ((a +:+ b) +:+ c) = String x (a +:+ (b +:+ c))).
  by rewrite IH.
Qed.

Lemma append_longer (a : string) x b : a ≠ a +:+ String x b.
Proof.
  induction a as [|y a IH]; [done|].
  change (String y a ≠ String y (a +:+ String x b)).
  intros [= E]. by apply IH.
Qed.

(** X19.  The event filter and the list of the full resync agree on the
    pods of the scheduler: such a pod passes the filter of a node exactly
    when its combined index is the one [AllPodCGroupConfig] lists for that
    node.  A nil pod does not pass. *)
Theorem filter_agrees_with_resync_index (nodeName : string) (p : Pod) :
  podFilter_filter nodeName None = false
  ∧ (podFilter_filter nodeName (Some p) = true
     <-> pod_Spec_SchedulerName p = utils.CarinaSchedule
         ∧ combinedIndex p = [utils.CarinaSchedule +:+ "-" +:+ nodeName]).
Proof.
  split; [done|]. unfold podFilter_filter, combinedIndex. split.
  - destruct (bool_decide (pod_Spec_NodeName p = nodeName)) eqn:E1; [|done].
    destruct (bool_decide (pod_Spec_SchedulerName p = utils.CarinaSchedule)) eqn:E2;
      [|done].
    apply bool_decide_eq_true in E1, E2. intros _. by rewrite E1, E2.
  - intros [Hs [= Hi]]. rewrite Hs in Hi.
    apply String.app_inj in Hi. injection Hi as Hn.
    by rewrite !bool_decide_eq_true_2.
Qed.

(** X20.  The combined index joins the scheduler name and the node name
    with a dash, so its value does not determine the two: when the name of
    the scheduler has a dash in it, a pod of another scheduler on another
    node is indexed under the value that the full resync lists for the
    local node, although the event filter rejects the pod. *)
Theorem resync_index_collision (nodeName a b : string) (p : Pod) :
  utils.CarinaSchedule = a +:+ "-" +:+ b ->
  pod_Spec_SchedulerName p = a ->
  pod_Spec_NodeName p = b +:+ "-" +:+ nodeName ->
  combinedIndex p = [utils.CarinaSchedule +:+ "-" +:+ nodeName]
  ∧ podFilter_filter nodeName (Some p) = false.
Proof.
  intros Hc Hs Hn. split.
  - unfold combinedIndex. rewrite Hs, Hn, Hc. by rewrite !append_assoc.
  - unfold podFilter_filter.
    rewrite (bool_decide_eq_false_2 (pod_Spec_SchedulerName p = _)).
    + by rewrite andb_false_r.
    + rewrite Hs, Hc. apply append_longer.
Qed.

(** X21.  The PersistentVolume index guards the lookups of the device:
    when the list by index answers only objects that [pvIndex] puts under
    the value asked for, resolving a volume of a pod never panics on a
    PersistentVolume without CSI source, and the test on the driver never
    skips the volume: with exactly one object listed the device key of
    that object is returned, with none or several the volume is
    skipped. *)
Theorem indexed_lookup_never_panics (s : St W) (p : Pod) (volume : Volume)
    claimName items w1 :
  vol_PersistentVolumeClaim volume = Some claimName ->
  ListPersistentVolume (Some (pod_Namespace p +:+ "-" +:+ claimName)) (world s)
  = (Ok items, w1) ->
  Forall (fun pv => pod_Namespace p +:+ "-" +:+ claimName ∈ pvIndex pv) items ->
  blkioKeyOf p volume s
  = (Val match items with
         | [pvInfo] => deviceKey <$> pv_Spec_CSI pvInfo
         | _ => None
         end,
     MkSys (self s) w1
       (trace s ++ [CallListPersistentVolume
                      (Some (pod_Namespace p +:+ "-" +:+ claimName))]))
  ∧ (∀ pvInfo, items = [pvInfo] -> is_Some (pv_Spec_CSI pvInfo)).
Proof.
  intros Hv HL HF.
  assert (Hcsi : ∀ pvInfo, pvInfo ∈ items ->
            ∃ csi, pv_Spec_CSI pvInfo = Some csi
                   ∧ csi_Driver csi = utils.CSIPluginName).
  { intros pv Hin. rewrite Forall_forall in HF. specialize (HF pv Hin).
    unfold pvIndex in HF. destruct (pv_Spec_CSI pv) as [csi|];
      [|by apply elem_of_nil in HF].
    exists csi. split; [done|]. case_bool_decide as Hd; [by apply elem_of_nil in HF|].
    by destruct (decide (csi_Driver csi = utils.CSIPluginName)). }
  split.
  - unfold blkioKeyOf. rewrite Hv. unfold bind, r_ListPersistentVolume, call.
    rewrite HL. destruct items as [|pv [|pv' rest]]; [done| |done].
    destruct (Hcsi pv ltac:(left)) as (csi & -> & Hd).
    by rewrite bool_decide_eq_false_2 by (by intros ?).
  - intros pv ->. destruct (Hcsi pv ltac:(left)) as (csi & -> & _). by eexists.
Qed.

End FormatProofs.

(** ** Throttle controller: runs on concrete clusters *)

Section ThrottleRuns2.
Import Fake PodReconciler ThrottlePlan ThrottlePlan2 ThrottleScenario
  ThrottleScenario2.

Lemma failed_fetch_ends_reconcile_witness :
  GetPod webKey (world gone) = (Err NotFound, world gone)
  ∧ Reconcile webKey gone
    = (Val (Result0, if IsNotFound NotFound then None else Some NotFound),
       MkSys (self gone) (world gone) (trace gone ++ [CallGetPod webKey])).
Proof.
  assert (H1 : GetPod webKey (world gone) = (Err NotFound, world gone))
    by reflexivity.
  refine (conj H1 _).
  exact (failed_fetch_ends_reconcile gone webKey NotFound (world gone) H1).
Defined.

Lemma single_pod_config_writes_every_kind_witness :
  referencedDevices [webPod PodRunning] running
  = (Val [(webPod PodRunning, "8:16")], runningResolved)
  ∧ ∃ s2,
      SinglePodCGroupConfig (webPod PodRunning) running = (Val None, s2)
      ∧ Forall (fun c => isPvLookup c ∨ isExecuteCall c) (newCalls running s2)
      ∧ (∀ kind k,
           kind ∈ limitKinds ->
           (k ∈ [(webPod PodRunning, "8:16")].*2 ->
            occurrences (CallExecuteCommand k (desiredValue (webPod PodRunning) kind)
                           (filepath_Join BlkIOCGroupPath kind)) (newCalls running s2)
            = 1%nat
            ∧ (∀ v, v ≠ desiredValue (webPod PodRunning) kind ->
                 CallExecuteCommand k v (filepath_Join BlkIOCGroupPath kind)
                   ∉ newCalls running s2))
           ∧ (k ∉ [(webPod PodRunning, "8:16")].*2 ->
              ∀ v path, CallExecuteCommand k v path ∉ newCalls running s2)).
Proof.
  assert (H1 : referencedDevices [webPod PodRunning] running
               = (Val [(webPod PodRunning, "8:16")], runningResolved))
    by compute_done.
  refine (conj H1 _).
  exact (single_pod_config_writes_every_kind running runningResolved
           (webPod PodRunning) [(webPod PodRunning, "8:16")] H1).
Defined.

Lemma running_pod_configured_at_once_witness :
  GetPod webKey (world running) = (Ok (webPod PodRunning), world running)
  ∧ pod_DeletionTimestamp (webPod PodRunning) = None
  ∧ pod_Status_Phase (webPod PodRunning) = PodRunning
  ∧ referencedDevices [webPod PodRunning]
      (MkSys (self running) (world running) (trace running ++ [CallGetPod webKey]))
    = (Val [(webPod PodRunning, "8:16")], fetchedResolved)
  ∧ ∃ s2 t,
      Reconcile webKey running = (Val (Result0, None), s2)
      ∧ newCalls running s2 = CallGetPod webKey :: t
      ∧ Forall (fun c => isPvLookup c ∨ isExecuteCall c) t
      ∧ (∀ kind k,
           kind ∈ limitKinds -> k ∈ [(webPod PodRunning, "8:16")].*2 ->
           occurrences (CallExecuteCommand k (desiredValue (webPod PodRunning) kind)
                          (filepath_Join BlkIOCGroupPath kind)) t
           = 1%nat).
Proof.
  assert (H1 : GetPod webKey (world running)
               = (Ok (webPod PodRunning), world running)) by reflexivity.
  assert (H2 : pod_DeletionTimestamp (webPod PodRunning) = None) by reflexivity.
  assert (H3 : pod_Status_Phase (webPod PodRunning) = PodRunning) by reflexivity.
  assert (H4 : referencedDevices [webPod PodRunning]
                 (MkSys (self running) (world running)
                    (trace running ++ [CallGetPod webKey]))
               = (Val [(webPod PodRunning, "8:16")], fetchedResolved))
    by compute_done.
  refine (conj H1 (conj H2 (conj H3 (conj H4 _)))).
  exact (running_pod_configured_at_once running fetchedResolved webKey
           (webPod PodRunning) (world running) [(webPod PodRunning, "8:16")]
           H1 H2 H3 H4).
Defined.

Lemma full_resync_applies_last_override_witness :
  r_ListPod (utils.CarinaSchedule +:+ "-" +:+ NodeName (self current)) current
  = (Val (Ok [webPod PodRunning]), currentListed)
  ∧ readCGroupBlkioFile currentListed = (Val currentLimits, currentRead)
  ∧ referencedDevices [webPod PodRunning] currentRead
    = (Val ([] ++ (webPod PodRunning, "8:16") :: []), currentResolved)
  ∧ currentReadBps ∈ currentLimits
  ∧ ("8:16" ∉ ([] : list (Pod * string)).*2)
  ∧ pod_Annotations (webPod PodRunning) !! annotationKey currentReadBps
    = Some "104857600"
  ∧ ∃ s4,
      AllPodCGroupConfig current = (Val None, s4)
      ∧ occurrences (CallExecuteCommand "8:16" "104857600" (cpath currentReadBps))
          (newCalls current s4)
        = (if decide (oldBlkio currentReadBps !! "8:16" = Some "104857600")
           then 0%nat else 1%nat)
      ∧ (∀ v', v' ≠ "104857600" ->
           CallExecuteCommand "8:16" v' (cpath currentReadBps)
             ∉ newCalls current s4).
Proof.
  assert (H1 : r_ListPod (utils.CarinaSchedule +:+ "-" +:+ NodeName (self current))
                 current
               = (Val (Ok [webPod PodRunning]), currentListed)) by compute_done.
  assert (H2 : readCGroupBlkioFile currentListed = (Val currentLimits, currentRead))
    by compute_done.
  assert (H3 : referencedDevices [webPod PodRunning] currentRead
               = (Val ([] ++ (webPod PodRunning, "8:16") :: []), currentResolved))
    by compute_done.
  assert (H4 : currentReadBps ∈ currentLimits) by compute_done.
  assert (H5 : "8:16" ∉ ([] : list (Pod * string)).*2) by apply not_elem_of_nil.
  assert (H6 : pod_Annotations (webPod PodRunning) !! annotationKey currentReadBps
               = Some "104857600") by compute_done.
  refine (conj H1 (conj H2 (conj H3 (conj H4 (conj H5 (conj H6 _)))))).
  exact (full_resync_applies_last_override current currentListed currentRead
           currentResolved [webPod PodRunning] currentLimits []
           (webPod PodRunning) "8:16" [] currentReadBps "104857600"
           H1 H2 H3 H4 H5 H6).
Defined.

Lemma full_resync_leaves_unlimited_device_witness :
  r_ListPod (utils.CarinaSchedule +:+ "-" +:+ NodeName (self current)) current
  = (Val (Ok [webPod PodRunning]), currentListed)
  ∧ readCGroupBlkioFile currentListed = (Val currentLimits, currentRead)
  ∧ referencedDevices [webPod PodRunning] currentRead
    = (Val [(webPod PodRunning, "8:16")], currentResolved)
  ∧ currentWriteBps ∈ currentLimits
  ∧ (∀ p, (p, "8:16") ∈ [(webPod PodRunning, "8:16")] ->
          pod_Annotations p !! annotationKey currentWriteBps = None)
  ∧ oldBlkio currentWriteBps !! "8:16" = None
  ∧ ∃ s4,
      AllPodCGroupConfig current = (Val None, s4)
      ∧ (∀ v, CallExecuteCommand "8:16" v (cpath currentWriteBps)
                ∉ newCalls current s4).
Proof.
  assert (H1 : r_ListPod (utils.CarinaSchedule +:+ "-" +:+ NodeName (self current))
                 current
               = (Val (Ok [webPod PodRunning]), currentListed)) by compute_done.
  assert (H2 : readCGroupBlkioFile currentListed = (Val currentLimits, currentRead))
    by compute_done.
  assert (H3 : referencedDevices [webPod PodRunning] currentRead
               = (Val [(webPod PodRunning, "8:16")], currentResolved))
    by compute_done.
  assert (H4 : currentWriteBps ∈ currentLimits) by compute_done.
  assert (H5 : ∀ p, (p, "8:16") ∈ [(webPod PodRunning, "8:16")] ->
                 pod_Annotations p !! annotationKey currentWriteBps = None).
  { intros p [[= ->]|[]%elem_of_nil]%elem_of_cons. compute_done. }
  assert (H6 : oldBlkio currentWriteBps !! "8:16" = None) by reflexivity.
  refine (conj H1 (conj H2 (conj H3 (conj H4 (conj H5 (conj H6 _)))))).
  exact (full_resync_leaves_unlimited_device current currentListed currentRead
           currentResolved [webPod PodRunning] currentLimits
           [(webPod PodRunning, "8:16")] currentWriteBps "8:16"
           H1 H2 H3 H4 H5 H6).
Defined.


Lemma resync_index_collision_witness :
  utils.CarinaSchedule = "carina" +:+ "-" +:+ "scheduler"
  ∧ pod_Spec_SchedulerName foreignPod = "carina"
  ∧ pod_Spec_NodeName foreignPod = "scheduler" +:+ "-" +:+ "node-1"
  ∧ combinedIndex foreignPod = [utils.CarinaSchedule +:+ "-" +:+ "node-1"]
  ∧ podFilter_filter "node-1" (Some foreignPod) = false.
Proof.
  assert (H1 : utils.CarinaSchedule = "carina" +:+ "-" +:+ "scheduler")
    by reflexivity.
  assert (H2 : pod_Spec_SchedulerName foreignPod = "carina") by reflexivity.
  assert (H3 : pod_Spec_NodeName foreignPod = "scheduler" +:+ "-" +:+ "node-1")
    by reflexivity.
  refine (conj H1 (conj H2 (conj H3 _))).
  exact (resync_index_collision "node-1" "carina" "scheduler" foreignPod H1 H2 H3).
Defined.

Lemma indexed_lookup_never_panics_witness :
  vol_PersistentVolumeClaim dataVolume = Some "data"
  ∧ ListPersistentVolume
      (Some (pod_Namespace (webPod PodRunning) +:+ "-" +:+ "data")) (world running)
    = (Ok [pvData], world running)
  ∧ Forall (fun pv => pod_Namespace (webPod PodRunning) +:+ "-" +:+ "data"
                        ∈ pvIndex pv) [pvData]
  ∧ blkioKeyOf (webPod PodRunning) dataVolume running
    = (Val match [pvData] with
           | [pvInfo] => deviceKey <$> pv_Spec_CSI pvInfo
           | _ => None
           end,
       MkSys (self running) (world running)
         (trace running
          ++ [CallListPersistentVolume
                (Some (pod_Namespace (webPod PodRunning) +:+ "-" +:+ "data"))]))
  ∧ (∀ pvInfo, [pvData] = [pvInfo] -> is_Some (pv_Spec_CSI pvInfo)).
Proof.
  assert (H1 : vol_PersistentVolumeClaim dataVolume = Some "data") by reflexivity.
  assert (H2 : ListPersistentVolume
                 (Some (pod_Namespace (webPod PodRunning) +:+ "-" +:+ "data"))
                 (world running)
               = (Ok [pvData], world running)) by compute_done.
  assert (H3 : Forall (fun pv => pod_Namespace (webPod PodRunning) +:+ "-" +:+ "data"
                                   ∈ pvIndex pv) [pvData]) by compute_done.
  refine (conj H1 (conj H2 (conj H3 _))).
  exact (indexed_lookup_never_panics running (webPod PodRunning) dataVolume
           "data" [pvData] (world running) H1 H2 H3).
Defined.

End ThrottleRuns2.

Section BrokenThrottleRuns.
Import Fake PodReconciler ThrottlePlan ThrottlePlan2 Broken.

Lemma reconcile_reports_only_fetch_errors_witness :
  Reconcile ThrottleScenario.webKey Broken.pod
  = (Val (Result0, Some Unavailable),
     MkSys (self Broken.pod) tt [CallGetPod ThrottleScenario.webKey])
  ∧ Result0 = Result0
  ∧ (∀ e, Some Unavailable = Some e ->
       ∃ w1, GetPod ThrottleScenario.webKey (world Broken.pod) = (Err e, w1)
             ∧ IsNotFound e = false
             ∧ MkSys (self Broken.pod) tt [CallGetPod ThrottleScenario.webKey]
               = MkSys (self Broken.pod) w1
                   (trace Broken.pod ++ [CallGetPod ThrottleScenario.webKey])).
Proof.
  assert (H1 : Reconcile ThrottleScenario.webKey Broken.pod
               = (Val (Result0, Some Unavailable),
                  MkSys (self Broken.pod) tt [CallGetPod ThrottleScenario.webKey]))
    by reflexivity.
  refine (conj H1 _).
  exact (reconcile_reports_only_fetch_errors Broken.pod _
           ThrottleScenario.webKey Result0 (Some Unavailable) H1).
Defined.

Lemma resync_reports_only_list_errors_witness :
  AllPodCGroupConfig Broken.pod
  = (Val (Some Unavailable),
     MkSys (self Broken.pod) tt
       [CallListPod (utils.CarinaSchedule +:+ "-" +:+ NodeName (self Broken.pod))])
  ∧ ListPod (utils.CarinaSchedule +:+ "-" +:+ NodeName (self Broken.pod))
      (world Broken.pod)
    = (Err Unavailable, tt)
  ∧ newCalls Broken.pod
      (MkSys (self Broken.pod) tt
         [CallListPod (utils.CarinaSchedule +:+ "-" +:+ NodeName (self Broken.pod))])
    = [CallListPod (utils.CarinaSchedule +:+ "-" +:+ NodeName (self Broken.pod))].
Proof.
  assert (H1 : AllPodCGroupConfig Broken.pod
    = (Val (Some Unavailable),
       MkSys (self Broken.pod) tt
         [CallListPod (utils.CarinaSchedule +:+ "-" +:+ NodeName (self Broken.pod))]))
    by reflexivity.
  refine (conj H1 _).
  exact (resync_reports_only_list_errors Broken.pod _ (Some Unavailable) H1).
Defined.

End BrokenThrottleRuns.

Section FlakyThrottleRuns.
Import Fake PodReconciler ThrottlePlan ThrottlePlan2 Flaky.

Lemma successful_poll_ends_reconcile_witness :
  GetPod ThrottleScenario.webKey (world (during 2)) = (Ok thePod, MkWorld 1 2)
  ∧ pod_DeletionTimestamp thePod = None
  ∧ pod_Status_Phase thePod ≠ PodRunning
  ∧ (2 < 5)%nat
  ∧ failedPolls ThrottleScenario.webKey 2 (MkWorld 1 2) = Some (MkWorld 3 2)
  ∧ GetPod ThrottleScenario.webKey (Sleep 30 (MkWorld 3 2)) = (Ok thePod, MkWorld 4 2)
  ∧ Reconcile ThrottleScenario.webKey (during 2)
    = (Val (Result0, None),
       MkSys (self (during 2)) (MkWorld 4 2)
         (trace (during 2)
          ++ CallGetPod ThrottleScenario.webKey
             :: pollCalls ThrottleScenario.webKey 2
             ++ [CallSleep 30; CallGetPod ThrottleScenario.webKey])).
Proof.
  assert (H1 : GetPod ThrottleScenario.webKey (world (during 2))
               = (Ok thePod, MkWorld 1 2)) by reflexivity.
  assert (H2 : pod_DeletionTimestamp thePod = None) by reflexivity.
  assert (H3 : pod_Status_Phase thePod ≠ PodRunning) by discriminate.
  assert (H4 : (2 < 5)%nat) by lia.
  assert (H5 : failedPolls ThrottleScenario.webKey 2 (MkWorld 1 2)
               = Some (MkWorld 3 2)) by reflexivity.
  assert (H6 : GetPod ThrottleScenario.webKey (Sleep 30 (MkWorld 3 2))
               = (Ok thePod, MkWorld 4 2)) by reflexivity.
  refine (conj H1 (conj H2 (conj H3 (conj H4 (conj H5 (conj H6 _)))))).
  exact (successful_poll_ends_reconcile (during 2) ThrottleScenario.webKey thePod
           (MkWorld 1 2) 2 (MkWorld 3 2) thePod (MkWorld 4 2)
           H1 H2 H3 H4 H5 H6).
Defined.

Lemma unfetchable_pod_configured_as_first_fetched_witness :
  GetPod ThrottleScenario.webKey (world (during 5)) = (Ok thePod, MkWorld 1 5)
  ∧ pod_DeletionTimestamp thePod = None
  ∧ pod_Status_Phase thePod ≠ PodRunning
  ∧ failedPolls ThrottleScenario.webKey 5 (MkWorld 1 5) = Some (MkWorld 6 5)
  ∧ Reconcile ThrottleScenario.webKey (during 5)
    = (resultOf (SinglePodCGroupConfig thePod
                   (MkSys (self (during 5)) (MkWorld 6 5)
                      (trace (during 5)
                       ++ CallGetPod ThrottleScenario.webKey
                          :: pollCalls ThrottleScenario.webKey 5))).1,
       (SinglePodCGroupConfig thePod
          (MkSys (self (during 5)) (MkWorld 6 5)
             (trace (during 5)
              ++ CallGetPod ThrottleScenario.webKey
                 :: pollCalls ThrottleScenario.webKey 5))).2).
Proof.
  assert (H1 : GetPod ThrottleScenario.webKey (world (during 5))
               = (Ok thePod, MkWorld 1 5)) by reflexivity.
  assert (H2 : pod_DeletionTimestamp thePod = None) by reflexivity.
  assert (H3 : pod_Status_Phase thePod ≠ PodRunning) by discriminate.
  assert (H4 : failedPolls ThrottleScenario.webKey 5 (MkWorld 1 5)
               = Some (MkWorld 6 5)) by reflexivity.
  refine (conj H1 (conj H2 (conj H3 (conj H4 _)))).
  exact (unfetchable_pod_configured_as_first_fetched (during 5)
           ThrottleScenario.webKey thePod (MkWorld 1 5) (MkWorld 6 5)
           H1 H2 H3 H4).
Defined.

End FlakyThrottleRuns.

(** ** Capacity aggregator: the cache and the records *)

Section CapacityProofs2.
Import PersistentVolumeReconciler.
Context {W : Type} `{!Client W} `{!utils.Constants} `{!MapRange} `{!Environment}.

Local Ltac count_writes :=
  unfold CapacityScenario.writes;
  repeat first [rewrite filter_cons_True by done
               |rewrite filter_cons_False by done];
  rewrite ?filter_nil; cbn [length]; lia.

(** X22.  One pass of the aggregator never panics and makes at most one
    write (a create or an update of the ConfigMap).  It leaves the time of
    the last event alone, and it changes the cache only when it returns
    success after an update of the ConfigMap, to the records of the nodes
    it listed: a pass that returns an error, that hits the cache or that
    creates the ConfigMap leaves the cache as it was. *)
Theorem capacity_pass_invariant (s : St W) :
  ∃ err s',
    updateNodeConfigMap s = (Val err, s')
    ∧ (CapacityScenario.writes (newCalls s s') <= 1)%nat
    ∧ lastEventTime (self s') = lastEventTime (self s)
    ∧ (is_Some err -> self s' = self s)
    ∧ (cacheConfigMap (self s') ≠ cacheConfigMap (self s) ->
       err = None
       ∧ ∃ nl w1 cm,
           ListNode (world s) = (Ok nl, w1)
           ∧ CallUpdateConfigMap cm ∈ newCalls s s'
           ∧ cacheConfigMap (self s') = cacheRefreshed (nodeDeviceOf nl)).
Proof.
  unfold updateNodeConfigMap, bind at 1, r_ListNode at 1, call at 1.
  destruct (ListNode (world s)) as [[nl|e] w1] eqn:HL.
  2:{ eexists _, _. split; [reflexivity|].
      rewrite (newCalls_app s _ [CallListNode]) by done.
      cbn [self]. split_and!; [count_writes|done|done|done]. }
  unfold bind at 1, gets at 1. cbn [self world trace].
  destruct (cacheHit _ _) eqn:Hhit.
  { eexists _, _. split; [reflexivity|].
    rewrite (newCalls_app s _ [CallListNode]) by done.
    cbn [self]. split_and!; [count_writes|done|done|done]. }
  destruct (json_Marshal (nodeDeviceOf nl)) as [byteJson|e] eqn:HJ.
  2:{ eexists _, _. split; [reflexivity|].
      rewrite (newCalls_app s _ [CallListNode]) by done.
      cbn [self]. split_and!; [count_writes|done|done|done]. }
  unfold bind at 1, r_GetConfigMap at 1, call at 1. cbn [self world trace].
  destruct (GetConfigMap storageConfigMapKey w1) as [[cm|e] w2] eqn:HG.
  - unfold bind at 1, r_UpdateConfigMap at 1, call at 1. cbn [self world trace].
    destruct (UpdateConfigMap _ w2) as [[e|] w3] eqn:HU.
    + eexists _, _. split; [reflexivity|].
      erewrite (newCalls_app s _ [_; _; _])
        by (cbn [trace]; by rewrite <- !app_assoc).
      cbn [self]. split_and!; [count_writes|done|done|done].
    + unfold bind, modify, ret, set_cacheConfigMap. cbn [self world trace].
      eexists _, _. split; [reflexivity|].
      erewrite (newCalls_app s _ [_; _; _])
        by (cbn [trace]; by rewrite <- !app_assoc).
      cbn [self cacheConfigMap lastEventTime].
      split_and!; [count_writes|done|by intros [? [=]]|].
      intros _. split; [done|]. eexists nl, w1, _. split; [done|].
      split; [|done]. right. right. left.
  - destruct (IsNotFound e).
    + unfold bind at 1, r_CreateConfigMap at 1, call at 1. cbn [self world trace].
      destruct (CreateConfigMap _ w2) as [[e'|] w3] eqn:HC;
        (eexists _, _; split; [reflexivity|]);
        (erewrite (newCalls_app s _ [_; _; _])
           by (cbn [trace]; by rewrite <- !app_assoc));
        cbn [self]; (split_and!; [count_writes|done|done|done]).
    + eexists _, _. split; [reflexivity|].
      erewrite (newCalls_app s _ [_; _])
        by (cbn [trace]; by rewrite <- !app_assoc).
      cbn [self]. split_and!; [count_writes|done|done|done].
Qed.

(** X23.  After a pass that updated the ConfigMap for the nodes [nl]
    (with pairwise distinct names), a pass that finds the same nodes
    listed, in any order, and whatever else changed in the cluster,
    returns success after the list of the nodes alone: it does not fetch
    or write the ConfigMap. *)
Theorem refreshed_cache_suppresses_next_write (s s2 : St W) nl w1 byteJson cm
    w2 w3 nl' w4 :
  ListNode (world s) = (Ok nl, w1) ->
  cacheHit (cacheConfigMap (self s)) (nodeDeviceOf nl) = false ->
  json_Marshal (nodeDeviceOf nl) = Ok byteJson ->
  GetConfigMap storageConfigMapKey w1 = (Ok cm, w2) ->
  UpdateConfigMap (MkConfigMap (cm_Namespace cm) (cm_Name cm) {["node" := byteJson]}) w2
  = (None, w3) ->
  NoDup (node_Name <$> nl) ->
  self s2 = self (updateNodeConfigMap s).2 ->
  ListNode (world s2) = (Ok nl', w4) ->
  nl' ≡ₚ nl ->
  updateNodeConfigMap s2
  = (Val None, MkSys (self s2) w4 (trace s2 ++ [CallListNode])).
Proof.
  intros HL Hmiss HJ HG HU Hnd Hself HL' Hperm.
  destruct (update_pass_refreshes_cache s nl w1 byteJson cm w2 w3 HL Hmiss HJ HG HU)
    as (s' & E & Hcache & _).
  rewrite E in Hself. cbn [snd] in Hself.
  apply (reordered_snapshot_hits s2 nl nl' w4); try done.
  by rewrite Hself.
Qed.

Lemma cacheRefreshed_lookup (nodeDevice : list (gmap string string)) n v :
  NoDup (nodeNameOf <$> nodeDevice) ->
  cacheRefreshed nodeDevice !! n = Some v -> v ∈ nodeDevice.
Proof.
  intros Hnd Hlk.
  destruct (cacheRefreshed_fold nodeDevice ∅ Hnd) as (_ & Hin & Hout).
  { intros. apply lookup_empty. }
  fold (cacheRefreshed nodeDevice) in Hin, Hout.
  destruct (decide (n ∈ nodeNameOf <$> nodeDevice)) as [Hn|Hn].
  - apply list_elem_of_fmap in Hn as (v0 & -> & Hv0).
    rewrite (Hin v0 Hv0) in Hlk. by injection Hlk as <-.
  - rewrite (Hout n Hn), lookup_empty in Hlk. done.
Qed.

(** X24.  The comparison with the cache is exact up to the order of the
    records: for snapshots in which every node name occurs once, and with
    [utils.MapEqualMap] read as equality of two records, a cache refreshed
    to one snapshot is hit by another snapshot exactly when the two hold
    the same records.  So a change in any record, a node that is gone or
    a new node is never taken for a hit. *)
Theorem cacheHit_iff_same_records (nodeDevice nodeDevice' : list (gmap string string)) :
  NoDup (nodeNameOf <$> nodeDevice) ->
  NoDup (nodeNameOf <$> nodeDevice') ->
  cacheHit (cacheRefreshed nodeDevice) nodeDevice' = true
  <-> nodeDevice' ≡ₚ nodeDevice.
Proof.
  intros Hnd Hnd'. split; [|by apply cacheHit_after_refresh].
  destruct (cacheRefreshed_fold nodeDevice ∅ Hnd) as (Hsize & _ & _).
  { intros. apply lookup_empty. }
  fold (cacheRefreshed nodeDevice) in Hsize. rewrite map_size_empty in Hsize.
  unfold cacheHit. case_bool_decide as Hlen; [done|].
  intros Hall. rewrite forallb_forall in Hall.
  assert (Hsub : ∀ v, v ∈ nodeDevice' -> v ∈ nodeDevice).
  { intros v Hv%list_elem_of_In. specialize (Hall v Hv).
    destruct (cacheRefreshed nodeDevice !! nodeNameOf v) as [cached|] eqn:Hlk;
      [|done].
    unfold utils.MapEqualMap in Hall. apply bool_decide_eq_true in Hall as ->.
    by apply (cacheRefreshed_lookup nodeDevice (nodeNameOf cached)). }
  apply submseteq_length_Permutation.
  - apply NoDup_submseteq; [|done]. by apply (NoDup_fmap_1 nodeNameOf).
  - lia.
Qed.

Lemma quantities_fold_other (label : string) (l : list (string * Z))
    (tmp : gmap string string) (key : string) :
  (∀ k, k ∈ l.*1 -> HasPrefix k utils.DeviceCapacityKeyPrefix = true ->
        key ≠ label +:+ k) ->
  foldl (fun tmp kv =>
           if HasPrefix kv.1 utils.DeviceCapacityKeyPrefix
           then <[label +:+ kv.1 := pretty kv.2]> tmp
           else tmp) tmp l !! key
  = tmp !! key.
Proof.
  revert tmp. induction l as [|[k v] l IH]; intros tmp Hk; [done|].
  cbn [foldl fst snd]. rewrite IH.
  - destruct (HasPrefix k _) eqn:Hp; [|done].
    rewrite lookup_insert_ne; [done|]. intros Heq. by apply (Hk k); [left|..].
  - intros k' Hin. apply Hk. by right.
Qed.

Lemma quantities_fold_entry (label : string) (l : list (string * Z))
    (tmp : gmap string string) k v :
  NoDup l.*1 -> (k, v) ∈ l ->
  HasPrefix k utils.DeviceCapacityKeyPrefix = true ->
  foldl (fun tmp kv =>
           if HasPrefix kv.1 utils.DeviceCapacityKeyPrefix
           then <[label +:+ kv.1 := pretty kv.2]> tmp
           else tmp) tmp l !! (label +:+ k)
  = Some (pretty v).
Proof.
  revert tmp. induction l as [|[k1 v1] l IH]; intros tmp Hnd Hin Hp;
    [by apply elem_of_nil in Hin|].
  cbn [fmap list_fmap fst] in Hnd. apply NoDup_cons in Hnd as [Hk1 Hnd].
  cbn [foldl fst snd]. apply elem_of_cons in Hin as [[= <- <-]|Hin].
  - rewrite Hp, quantities_fold_other.
    + apply lookup_insert_eq.
    + intros k' Hk' _ Heq. apply String.app_inj in Heq. by subst.
  - by apply IH.
Qed.

Lemma addQuantities_lookup (label : string) (quantities : gmap string Z)
    (tmp : gmap string string) (k : string) :
  addQuantities label quantities tmp !! (label +:+ k)
  = if HasPrefix k utils.DeviceCapacityKeyPrefix
    then match quantities !! k with
         | Some v => Some (pretty v)
         | None => tmp !! (label +:+ k)
         end
    else tmp !! (label +:+ k).
Proof.
  unfold addQuantities.
  destruct (HasPrefix k utils.DeviceCapacityKeyPrefix) eqn:Hp.
  - destruct (quantities !! k) as [v|] eqn:Hq.
    + apply quantities_fold_entry; [apply range_map_NoDup|by apply range_map_elem|done].
    + apply quantities_fold_other. intros k' Hin _ Heq.
      apply String.app_inj in Heq. subst k'.
      apply list_elem_of_fmap in Hin as ([k' v'] & -> & Hin).
      apply range_map_elem in Hin. cbn in Hq. congruence.
  - apply quantities_fold_other. intros k' _ Hp' Heq.
    apply String.app_inj in Heq. congruence.
Qed.

Lemma addQuantities_other (label : string) (quantities : gmap string Z)
    (tmp : gmap string string) (key : string) :
  (∀ k, key ≠ label +:+ k) ->
  addQuantities label quantities tmp !! key = tmp !! key.
Proof. intros Hk. apply quantities_fold_other. intros k _ _. apply Hk. Qed.

Lemma addQuantities_none (label : string) (quantities : gmap string Z)
    (tmp : gmap string string) :
  (∀ k, is_Some (quantities !! k) ->
        HasPrefix k utils.DeviceCapacityKeyPrefix = false) ->
  addQuantities label quantities tmp = tmp.
Proof.
  intros Hno. apply map_eq. intros key. apply quantities_fold_other.
  intros k Hin Hp. apply list_elem_of_fmap in Hin as ([k' v'] & -> & Hin).
  apply range_map_elem in Hin.
  change (HasPrefix k' utils.DeviceCapacityKeyPrefix = true) in Hp.
  rewrite (Hno k') in Hp by (by eexists). done.
Qed.

Lemma addQuantities_inv (label : string) (quantities : gmap string Z)
    (tmp : gmap string string) (key x : string) :
  addQuantities label quantities tmp !! key = Some x ->
  tmp !! key = Some x
  ∨ ∃ k, HasPrefix k utils.DeviceCapacityKeyPrefix = true
         ∧ is_Some (quantities !! k).
Proof.
  unfold addQuantities.
  assert (G : ∀ (l : list (string * Z)) (tmp : gmap string string),
            foldl (fun tmp kv =>
                     if HasPrefix kv.1 utils.DeviceCapacityKeyPrefix
                     then <[label +:+ kv.1 := pretty kv.2]> tmp
                     else tmp) tmp l !! key = Some x ->
            tmp !! key = Some x
            ∨ ∃ k v, (k, v) ∈ l
                     ∧ HasPrefix k utils.DeviceCapacityKeyPrefix = true).
  { induction l as [|[k v] l IH]; intros tmp' Hlk; [by left|].
    cbn [foldl fst snd] in Hlk. apply IH in Hlk as [Hlk|(k' & v' & Hin & Hp)].
    - destruct (HasPrefix k utils.DeviceCapacityKeyPrefix) eqn:Hp; [|by left].
      right. exists k, v. split; [left|done].
    - right. exists k', v'. split; [by right|done]. }
  intros Hlk. apply G in Hlk as [Hlk|(k & v & Hin & Hp)]; [by left|].
  right. exists k. split; [done|]. apply range_map_elem in Hin. by eexists.
Qed.

Lemma nodeDeviceOf_elem nl r :
  r ∈ nodeDeviceOf nl <-> ∃ node, node ∈ nl ∧ r ∈ nodeRecord [] node.
Proof.
  induction nl as [|x nl IH].
  - split; [by intros ?%elem_of_nil|by intros (? & ?%elem_of_nil & _)].
  - rewrite nodeDeviceOf_cons, elem_of_app, IH. split.
    + intros [Hr|(node & Hin & Hr)]; [exists x; split; [left|done]|].
      exists node. split; [by right|done].
    + intros (node & [->|Hin]%elem_of_cons & Hr); [by left|].
      right. by exists node.
Qed.

(** X25.  Every record of the snapshot is the record of a listed node
    that has at least one capacity or allocatable quantity whose name
    carries the device prefix.  It holds the name of the node under
    [nodeName], the value of each such capacity quantity under
    [capacity.] followed by the name of the quantity and of each such
    allocatable quantity under [allocatable.] followed by the name, and no
    entry under those prefixes for any other quantity.  A node without
    such a quantity has no record. *)
Theorem node_record_content (nl : list Node) :
  (∀ r, r ∈ nodeDeviceOf nl ->
     ∃ node,
       node ∈ nl
       ∧ r !! "nodeName" = Some (node_Name node)
       ∧ (∀ k, r !! ("capacity." +:+ k)
               = if HasPrefix k utils.DeviceCapacityKeyPrefix
                 then pretty <$> node_Status_Capacity node !! k else None)
       ∧ (∀ k, r !! ("allocatable." +:+ k)
               = if HasPrefix k utils.DeviceCapacityKeyPrefix
                 then pretty <$> node_Status_Allocatable node !! k else None)
       ∧ (∃ k, HasPrefix k utils.DeviceCapacityKeyPrefix = true
               ∧ (is_Some (node_Status_Capacity node !! k)
                  ∨ is_Some (node_Status_Allocatable node !! k))))
  ∧ (∀ node,
       node ∈ nl ->
       (∀ k, is_Some (node_Status_Capacity node !! k)
             ∨ is_Some (node_Status_Allocatable node !! k) ->
             HasPrefix k utils.DeviceCapacityKeyPrefix = false) ->
       nodeRecord [] node = []).
Proof.
  split.
  - intros r (node & Hin & Hr)%nodeDeviceOf_elem. exists node. split; [done|].
    unfold nodeRecord in Hr.
    set (tmp1 := addQuantities "capacity." (node_Status_Capacity node) ∅) in *.
    set (tmp2 := addQuantities "allocatable." (node_Status_Allocatable node) tmp1) in *.
    case_bool_decide as Hsize; [|by apply elem_of_nil in Hr].
    cbn [app] in Hr. apply list_elem_of_singleton in Hr as ->.
    assert (Hcap : ∀ k, tmp2 !! ("capacity." +:+ k)
              = if HasPrefix k utils.DeviceCapacityKeyPrefix
                then pretty <$> node_Status_Capacity node !! k else None).
    { intros k. subst tmp2. rewrite addQuantities_other by (by intros k').
      subst tmp1. rewrite addQuantities_lookup, lookup_empty.
      destruct (HasPrefix k _); [|done]. by destruct (_ !! k). }
    assert (Hall : ∀ k, tmp2 !! ("allocatable." +:+ k)
              = if HasPrefix k utils.DeviceCapacityKeyPrefix
                then pretty <$> node_Status_Allocatable node !! k else None).
    { intros k. subst tmp2. rewrite addQuantities_lookup.
      subst tmp1. rewrite addQuantities_other by (by intros k').
      rewrite lookup_empty.
      destruct (HasPrefix k _); [|done]. by destruct (_ !! k). }
    split_and!.
    + apply lookup_insert_eq.
    + intros k. by rewrite lookup_insert_ne.
    + intros k. by rewrite lookup_insert_ne.
    + assert (Hne : tmp2 ≠ ∅).
      { intros Hempty. rewrite Hempty, map_size_empty in Hsize. lia. }
      apply map_choose in Hne as (key & x & Hlk). subst tmp2.
      apply addQuantities_inv in Hlk as [Hlk|(k & Hp & Hk)];
        [|exists k; split; [done|by right]].
      subst tmp1.
      apply addQuantities_inv in Hlk as [Hlk|(k & Hp & Hk)];
        [by rewrite lookup_empty in Hlk|].
      exists k. split; [done|by left].
  - intros node Hin Hno. unfold nodeRecord.
    rewrite !addQuantities_none.
    + by rewrite bool_decide_eq_false_2 by (rewrite map_size_empty; lia).
    + intros k Hk. apply Hno. by left.
    + intros k Hk. apply Hno. by right.
Qed.

End CapacityProofs2.

Section CapacityRuns2.
Import Fake PersistentVolumeReconciler CapacityScenario CapacityScenario2.

Lemma refreshed_cache_suppresses_next_write_witness :
  ListNode (world second) = (Ok [nodeB; nodeA], world second)
  ∧ cacheHit (cacheConfigMap (self second)) (nodeDeviceOf [nodeB; nodeA]) = false
  ∧ json_Marshal (nodeDeviceOf [nodeB; nodeA]) = Ok secondJson
  ∧ GetConfigMap storageConfigMapKey (world second) = (Ok stored, world second)
  ∧ UpdateConfigMap
      (MkConfigMap (cm_Namespace stored) (cm_Name stored) {["node" := secondJson]})
      (world second)
    = (None, world afterPass2)
  ∧ NoDup (node_Name <$> [nodeB; nodeA])
  ∧ self third = self (updateNodeConfigMap second).2
  ∧ ListNode (world third) = (Ok [nodeA; nodeB], world third)
  ∧ [nodeA; nodeB] ≡ₚ [nodeB; nodeA]
  ∧ updateNodeConfigMap third
    = (Val None, MkSys (self third) (world third) (trace third ++ [CallListNode])).
Proof.
  assert (H1 : ListNode (world second) = (Ok [nodeB; nodeA], world second))
    by reflexivity.
  assert (H2 : cacheHit (cacheConfigMap (self second)) (nodeDeviceOf [nodeB; nodeA])
               = false) by compute_done.
  assert (H3 : json_Marshal (nodeDeviceOf [nodeB; nodeA]) = Ok secondJson)
    by reflexivity.
  assert (H4 : GetConfigMap storageConfigMapKey (world second)
               = (Ok stored, world second)) by compute_done.
  assert (H5 : UpdateConfigMap
                 (MkConfigMap (cm_Namespace stored) (cm_Name stored)
                    {["node" := secondJson]})
                 (world second)
               = (None, world afterPass2)) by compute_done.
  assert (H6 : NoDup (node_Name <$> [nodeB; nodeA])) by compute_done.
  assert (H7 : self third = self (updateNodeConfigMap second).2) by reflexivity.
  assert (H8 : ListNode (world third) = (Ok [nodeA; nodeB], world third))
    by compute_done.
  assert (H9 : [nodeA; nodeB] ≡ₚ [nodeB; nodeA]) by apply perm_swap.
  refine (conj H1 (conj H2 (conj H3 (conj H4 (conj H5 (conj H6 (conj H7
            (conj H8 (conj H9 _))))))))).
  exact (refreshed_cache_suppresses_next_write second third [nodeB; nodeA]
           (world second) secondJson stored (world second) (world afterPass2)
           [nodeA; nodeB] (world third) H1 H2 H3 H4 H5 H6 H7 H8 H9).
Defined.

Lemma cacheHit_iff_same_records_witness :
  NoDup (nodeNameOf <$> snapshot)
  ∧ NoDup (nodeNameOf <$> shrunk)
  ∧ (cacheHit (cacheRefreshed snapshot) shrunk = true <-> shrunk ≡ₚ snapshot).
Proof.
  assert (H1 : NoDup (nodeNameOf <$> snapshot)) by compute_done.
  assert (H2 : NoDup (nodeNameOf <$> shrunk)) by compute_done.
  refine (conj H1 (conj H2 _)).
  exact (cacheHit_iff_same_records snapshot shrunk H1 H2).
Defined.

(** The record of [nodeA] is in the snapshot of [nodeA], [nodeB] and
    [nodeC]; [nodeC], which has no device quantity, has no record. *)
Lemma snapshot_of_three_nodes :
  nodeDeviceOf [nodeA; nodeC; nodeB] = nodeDeviceOf [nodeA; nodeB]
  ∧ recordA ∈ nodeDeviceOf [nodeA; nodeC; nodeB]
  ∧ cacheHit (cacheRefreshed snapshot) shrunk = false.
Proof. split_and!; compute_done. Qed.

End CapacityRuns2.
